(** * RotatableSet: a circular doubly-linked set with a cursor and an
    insertion anchor (src/unnamed/part_001, the variant with
    [addToNext]/[addToFurthest] and [insertionHead]).

    The JavaScript object graph is modelled as a heap [gmap ptr RingNode]
    of mutable ring nodes; the class fields [current], [insertionHead],
    [nodes] (a JS [Map], insertion ordered) and [_size] form the state
    record.  Methods run in a small state-and-exception monad, so a thrown
    [Error] keeps every write performed before it, as in JavaScript. *)

From stdpp Require Import base gmap list strings.
From Stdlib Require Import ZArith QArith Qround Lqa.
Open Scope nat_scope.

Definition ptr := nat.

(** Errors thrown by the class.  [Dangling] stands for a dereference of a
    pointer with no object behind it, which JavaScript references never
    produce; it only arises on states that break the invariants. *)
Inductive err := EmptyCollection | InvalidOffset | Dangling.

Inductive res (X : Type) := Ok (x : X) | Throw (e : err).
Arguments Ok {X} x.
Arguments Throw {X} e.

(** JavaScript numbers as received by [getFurthestItem]: finite values are
    rationals (every finite double is one), plus the three non-finite ones. *)
Inductive jsnum := JNaN | JPosInf | JNegInf | JFin (q : Q).

(** [Math.trunc] on a finite number: rounding toward zero. *)
Definition trunc (q : Q) : Z := Z.quot (Qnum q) (Zpos (Qden q)).

Section RotatableSet.
Context {A : Type} `{EqDecision A}.

(** class RingNode<T> { value; next; prev } *)
Record RingNode := mkNode { value : A; next : ptr; prev : ptr }.

(** The fields of RotatableSet<T> and the heap of ring nodes. *)
Record RS := mkRS {
  current : option ptr;
  insertionHead : option ptr;
  nodes : list (A * ptr);
  size : nat;
  heap : gmap ptr RingNode
}.

(** ** The JS [Map<T, RingNode<T>>] as an insertion-ordered association list *)
Fixpoint map_get (m : list (A * ptr)) (k : A) : option ptr :=
  match m with
  | [] => None
  | (k', p) :: m' => if decide (k = k') then Some p else map_get m' k
  end.

Definition map_has (m : list (A * ptr)) (k : A) : bool :=
  match map_get m k with Some _ => true | None => false end.

(** [Map.set]: overwrite in place when the key is present, else append. *)
Fixpoint map_set (m : list (A * ptr)) (k : A) (p : ptr) : list (A * ptr) :=
  match m with
  | [] => [(k, p)]
  | (k', p') :: m' =>
      if decide (k = k') then (k', p) :: m' else (k', p') :: map_set m' k p
  end.

Definition map_delete (m : list (A * ptr)) (k : A) : list (A * ptr) :=
  filter (fun e => fst e <> k) m.

(** ** The state-and-exception monad *)
Definition M (X : Type) := RS -> res X * RS.

Definition ret {X} (x : X) : M X := fun s => (Ok x, s).
Definition bind {X Y} (m : M X) (f : X -> M Y) : M Y :=
  fun s => match m s with
           | (Ok x, s') => f x s'
           | (Throw e, s') => (Throw e, s')
           end.
Definition throw {X} (e : err) : M X := fun s => (Throw e, s).
Definition get : M RS := fun s => (Ok s, s).
Definition put (s : RS) : M unit := fun _ => (Ok tt, s).

Local Notation "x <- m ;; k" := (bind m (fun x => k))
  (at level 100, m at next level, right associativity).
Local Notation "m ;;; k" := (bind m (fun _ => k))
  (at level 100, right associativity).

Definition set_current (c : option ptr) : M unit :=
  fun s => (Ok tt, mkRS c (insertionHead s) (nodes s) (size s) (heap s)).
Definition set_insertionHead (a : option ptr) : M unit :=
  fun s => (Ok tt, mkRS (current s) a (nodes s) (size s) (heap s)).
Definition set_nodes (m : list (A * ptr)) : M unit :=
  fun s => (Ok tt, mkRS (current s) (insertionHead s) m (size s) (heap s)).
Definition set_size (n : nat) : M unit :=
  fun s => (Ok tt, mkRS (current s) (insertionHead s) (nodes s) n (heap s)).

(** Dereference a node. *)
Definition read (p : ptr) : M RingNode :=
  fun s => match heap s !! p with
           | Some nd => (Ok nd, s)
           | None => (Throw Dangling, s)
           end.

Definition upd_heap (h : gmap ptr RingNode) : M unit :=
  fun s => (Ok tt, mkRS (current s) (insertionHead s) (nodes s) (size s) h).

(** [p.next = q] and [p.prev = q]. *)
Definition write_next (p q : ptr) : M unit :=
  nd <- read p;;
  s <- get;;
  upd_heap (<[p := mkNode (value nd) q (prev nd)]> (heap s)).
Definition write_prev (p q : ptr) : M unit :=
  nd <- read p;;
  s <- get;;
  upd_heap (<[p := mkNode (value nd) (next nd) q]> (heap s)).

(** [new RingNode(value)]: a fresh object whose links point to itself. *)
Definition alloc (v : A) : M ptr :=
  s <- get;;
  let p := fresh (dom (heap s)) in
  upd_heap (<[p := mkNode v p p]> (heap s));;;
  ret p.

(** ** Methods *)

(** private requireCurrent() *)
Definition requireCurrent : M ptr :=
  s <- get;;
  match current s with Some c => ret c | None => throw EmptyCollection end.

(** private requireInsertionHead() *)
Definition requireInsertionHead : M ptr :=
  s <- get;;
  match insertionHead s with Some a => ret a | None => throw EmptyCollection end.

(** private insertBefore(target, node) *)
Definition insertBefore (target node : ptr) : M unit :=
  tn <- read target;;
  let pv := prev tn in
  write_next node target;;;
  write_prev node pv;;;
  write_next pv node;;;
  write_prev target node.

(** next(): return the current item then advance the cursor. *)
Definition rs_next : M A :=
  c <- requireCurrent;;
  nd <- read c;;
  set_current (Some (next nd));;;
  ret (value nd).

(** peek() *)
Definition peek : M A :=
  c <- requireCurrent;;
  nd <- read c;;
  ret (value nd).

(** addToFurthest(item) *)
Definition addToFurthest (item : A) : M unit :=
  s <- get;;
  if map_has (nodes s) item then ret tt else
  q <- alloc item;;
  s1 <- get;;
  match current s1 with
  | None => set_current (Some q);;; set_insertionHead (Some q)
  | Some _ => a <- requireInsertionHead;; insertBefore a q
  end;;;
  s2 <- get;;
  set_nodes (map_set (nodes s2) item q);;;
  set_size (size s2 + 1).

(** addToNext(item) *)
Definition addToNext (item : A) : M unit :=
  s <- get;;
  if map_has (nodes s) item then ret tt else
  q <- alloc item;;
  s1 <- get;;
  match current s1 with
  | None => set_current (Some q);;; set_insertionHead (Some q)
  | Some c => insertBefore c q;;; set_current (Some q)
  end;;;
  s2 <- get;;
  set_nodes (map_set (nodes s2) item q);;;
  set_size (size s2 + 1).

(** add(item): alias of addToFurthest. *)
Definition add (item : A) : M unit := addToFurthest item.

(** delete(item) *)
Definition delete (item : A) : M bool :=
  s <- get;;
  match map_get (nodes s) item with
  | None => ret false
  | Some p =>
      set_nodes (map_delete (nodes s) item);;;
      if Nat.eqb (size s) 1 then
        set_current None;;; set_insertionHead None;;; set_size 0;;; ret true
      else
        nd <- read p;;
        let nx := next nd in
        nd1 <- read p;;
        write_next (prev nd1) (next nd1);;;
        nd2 <- read p;;
        write_prev (next nd2) (prev nd2);;;
        s1 <- get;;
        (if decide (current s1 = Some p) then set_current (Some nx) else ret tt);;;
        s2 <- get;;
        (if decide (insertionHead s2 = Some p) then set_insertionHead (Some nx)
         else ret tt);;;
        s3 <- get;;
        set_size (size s3 - 1);;;
        ret true
  end.

(** [for (i = 0; i < offset; i++) target = target.prev] *)
Fixpoint walk_prev_m (p : ptr) (n : nat) : M ptr :=
  match n with
  | O => ret p
  | S n' => nd <- read p;; walk_prev_m (prev nd) n'
  end.

(** The offset [((index % size) + size) % size] with JavaScript's
    truncating [%]; with [size = 0] it is NaN and the loop runs no time. *)
Definition js_offset (index : Z) (n : nat) : Z :=
  let z := Z.of_nat n in
  if Z.eqb z 0 then 0%Z else Z.rem (Z.rem index z + z) z.

(** getFurthestItem(index) *)
Definition getFurthestItem (index : jsnum) : M A :=
  c <- requireCurrent;;
  match index with
  | JFin q =>
      let i := trunc q in
      s <- get;;
      let off := js_offset i (size s) in
      nd <- read c;;
      t <- walk_prev_m (prev nd) (Z.to_nat off);;
      tn <- read t;;
      ret (value tn)
  | _ => throw InvalidOffset
  end.

(** [get size()]: [return this._size]. *)
Definition get_size : M nat :=
  s <- get;; ret (size s).

(** [get isEmpty()]: [return this._size === 0]. *)
Definition isEmpty : M bool :=
  s <- get;; ret (Nat.eqb (size s) 0).

(** has(item) *)
Definition has (item : A) : M bool :=
  s <- get;; ret (map_has (nodes s) item).

(** clear() *)
Definition clear : M unit :=
  set_current None;;; set_insertionHead None;;; set_nodes [];;; set_size 0.

(** The loop of toArray(): [size] steps along [next] from the cursor. *)
Fixpoint collect (h : gmap ptr RingNode) (p : ptr) (n : nat) : option (list A) :=
  match n with
  | O => Some []
  | S n' =>
      match h !! p with
      | Some nd => match collect h (next nd) n' with
                   | Some vs => Some (value nd :: vs)
                   | None => None
                   end
      | None => None
      end
  end.

(** toArray() *)
Definition toArray : M (list A) :=
  s <- get;;
  match current s with
  | None => ret []
  | Some c => match collect (heap s) c (size s) with
              | Some vs => ret vs
              | None => throw Dangling
              end
  end.

(** toSet(): the keys of the Map, in insertion order. *)
Definition toSet : M (list A) :=
  s <- get;; ret (map fst (nodes s)).

(** cycle(), fully consumed: [n = _size] read once, then [n] calls of next(). *)
Fixpoint cycle_n (n : nat) : M (list A) :=
  match n with
  | O => ret []
  | S n' => v <- rs_next;; vs <- cycle_n n';; ret (v :: vs)
  end.

Definition cycle : M (list A) :=
  s <- get;; cycle_n (size s).

(** [*[Symbol.iterator]()]: [while (true) yield this.next()]; the values a
    consumer gets by pulling it [n] times. *)
Fixpoint iterate_n (n : nat) : M (list A) :=
  match n with
  | O => ret []
  | S n' => v <- rs_next;; vs <- iterate_n n';; ret (v :: vs)
  end.

(** The empty set and the constructor [new RotatableSet(items)]. *)
Definition empty : RS := mkRS None None [] 0 ∅.

Fixpoint add_all (items : list A) : M unit :=
  match items with
  | [] => ret tt
  | x :: xs => addToFurthest x;;; add_all xs
  end.

Definition construct (items : list A) : res unit * RS := add_all items empty.

End RotatableSet.

Arguments RS A : clear implicits.
Arguments RingNode A : clear implicits.

Example construct_dedup :
  fst (toArray (snd (construct [1; 2; 1; 3; 2]%nat))) = Ok [1; 2; 3]%nat.
Proof. vm_compute. reflexivity. Qed.

(** * The ring as a list of pointers *)
Section Ring.
Context {A : Type}.
Implicit Types (h : gmap ptr (RingNode A)) (l ps : list ptr) (a b p q z : ptr).

Definition nxt h p : option ptr := option_map next (h !! p).
Definition prv h p : option ptr := option_map prev (h !! p).
Definition vl h p : option A := option_map value (h !! p).

(** [a.next === b] and [b.prev === a] *)
Definition linked h a b : Prop := nxt h a = Some b /\ prv h b = Some a.

(** [a -> l_0 -> ... -> l_last -> z] along next, with matching prev links. *)
Fixpoint chain h a l z : Prop :=
  match l with
  | [] => linked h a z
  | b :: l' => linked h a b /\ chain h b l' z
  end.

(** [ps] lists the ring in [next] order starting from its head. *)
Definition ring h ps : Prop :=
  match ps with [] => True | c :: l => chain h c l c end.

Lemma snoc_cases (l : list ptr) : l = [] \/ exists l' y, l = l' ++ [y].
Proof.
  destruct l as [|x l]; [left; reflexivity|right].
  destruct (exists_last (l := x :: l)) as (l' & y & E); [discriminate|].
  eauto.
Qed.

Lemma chain_app h a l1 b l2 z :
  chain h a (l1 ++ b :: l2) z <-> chain h a l1 b /\ chain h b l2 z.
Proof.
  revert a. induction l1 as [|x l1 IH]; intros a; simpl.
  - tauto.
  - rewrite IH. tauto.
Qed.

Lemma chain_snoc h a l y z :
  chain h a (l ++ [y]) z <-> chain h a l y /\ linked h y z.
Proof. rewrite chain_app. simpl. tauto. Qed.

Lemma chain_frame h h' a l z :
  (forall r, In r (a :: l) -> nxt h' r = nxt h r) ->
  (forall r, In r (l ++ [z]) -> prv h' r = prv h r) ->
  chain h a l z -> chain h' a l z.
Proof.
  revert a. induction l as [|b l IH]; intros a Hn Hp; simpl.
  - unfold linked. rewrite Hn, Hp by (simpl; auto). auto.
  - unfold linked. rewrite Hn, Hp by (simpl; auto).
    intros [Hl Hc]. split; [exact Hl|].
    apply IH; [intros r Hr; apply Hn; simpl in *; tauto
              |intros r Hr; apply Hp; simpl; auto
              |exact Hc].
Qed.

Lemma ring_rot h x l : ring h (x :: l) <-> ring h (l ++ [x]).
Proof.
  destruct l as [|y l]; simpl; [tauto|].
  rewrite chain_snoc. tauto.
Qed.

Lemma ring_rot_app h l1 l2 : ring h (l1 ++ l2) -> ring h (l2 ++ l1).
Proof.
  revert l2. induction l1 as [|x l1 IH]; intros l2.
  - rewrite app_nil_r. auto.
  - intros H. simpl in H. apply ring_rot in H.
    rewrite <- app_assoc in H. apply IH in H.
    rewrite <- app_assoc in H. exact H.
Qed.

(** The two links around the head of a ring. *)
Lemma ring_head_links h x l :
  ring h (x :: l) -> linked h x (hd x l) /\ linked h (List.last l x) x.
Proof.
  simpl. destruct (snoc_cases l) as [->|(l' & y & ->)]; simpl.
  - auto.
  - rewrite chain_snoc, last_last. intros [Hc Hl]. split; [|exact Hl].
    destruct l' as [|w l']; simpl in *; [exact Hc | tauto].
Qed.

(** Every node of a ring has a linked successor and a linked predecessor
    inside the ring. *)
Lemma chain_succ h a l z r :
  chain h a l z -> In r (a :: l) -> exists b, In b (l ++ [z]) /\ linked h r b.
Proof.
  revert a. induction l as [|b l IH]; intros a Hc Hr; simpl in *.
  - destruct Hr as [<-|[]]. eauto.
  - destruct Hc as [Hl Hc]. destruct Hr as [<-|Hr].
    + eauto.
    + destruct (IH b Hc Hr) as (y & Hy & Hly). eauto.
Qed.

Lemma chain_pred h a l z r :
  chain h a l z -> In r (l ++ [z]) -> exists b, In b (a :: l) /\ linked h b r.
Proof.
  revert a. induction l as [|b l IH]; intros a Hc Hr; simpl in *.
  - destruct Hr as [<-|[]]. eauto.
  - destruct Hc as [Hl Hc]. destruct Hr as [<-|Hr].
    + eauto.
    + destruct (IH b Hc Hr) as (y & Hy & Hly). eauto.
Qed.

Lemma ring_neighbours h ps r :
  ring h ps -> In r ps ->
  (exists b, In b ps /\ linked h r b) /\ (exists b, In b ps /\ linked h b r).
Proof.
  destruct ps as [|c l]; [intros _ []|]. simpl ring. intros Hc Hr. split.
  - destruct (chain_succ _ _ _ _ _ Hc Hr) as (b & Hb & Hl).
    exists b. split; [|exact Hl]. apply in_app_or in Hb. simpl in *. tauto.
  - assert (Hr' : In r (l ++ [c])) by (apply in_or_app; simpl in *; tauto).
    destruct (chain_pred _ _ _ _ _ Hc Hr') as (b & Hb & Hl). eauto.
Qed.

Lemma nodup_disj (l1 l2 : list ptr) x :
  NoDup (l1 ++ l2) -> In x l1 -> In x l2 -> False.
Proof.
  intros Hnd H1 H2. apply NoDup_app in Hnd as (_ & Hd & _).
  apply (Hd x); apply list_elem_of_In; assumption.
Qed.

Lemma nodup_head (x : ptr) l : NoDup (x :: l) -> ~ In x l.
Proof.
  intros Hnd Hin. apply NoDup_cons in Hnd as [Hn _].
  apply Hn, list_elem_of_In, Hin.
Qed.

(** Linking [q] between the last node of a ring and its head. *)
Lemma ring_insert h h' t l q :
  ring h (t :: l) -> NoDup (t :: l) -> ~ In q (t :: l) ->
  linked h' (List.last l t) q -> linked h' q t ->
  (forall r, r <> q -> r <> List.last l t -> nxt h' r = nxt h r) ->
  (forall r, r <> q -> r <> t -> prv h' r = prv h r) ->
  ring h' (t :: l ++ [q]).
Proof.
  intros Hr Hnd Hq L1 L2 Hn Hp. simpl. rewrite chain_snoc.
  destruct (snoc_cases l) as [->|(l' & y & ->)]; simpl in *.
  - auto.
  - rewrite List.last_last in *. rewrite chain_snoc in Hr |- *.
    destruct Hr as [Hc _]. split; [split; [|exact L1]|exact L2].
    apply (chain_frame h); [| |exact Hc].
    + intros r Hin. apply Hn; intro E; subst r.
      * apply Hq. destruct Hin as [Hin|Hin]; [left; exact Hin|].
        right. apply in_or_app. left. exact Hin.
      * apply (nodup_disj (t :: l') [y] y Hnd Hin). simpl. auto.
    + intros r Hin. apply Hp; intro E; subst r.
      * apply Hq. right. exact Hin.
      * exact (nodup_head _ _ Hnd Hin).
Qed.

(** Unlinking the last node [d] of a ring by splicing its neighbours. *)
Lemma ring_splice h h' b m d :
  ring h (b :: m ++ [d]) -> NoDup (b :: m ++ [d]) ->
  linked h' (List.last m b) b ->
  (forall r, r <> List.last m b -> nxt h' r = nxt h r) ->
  (forall r, r <> b -> prv h' r = prv h r) ->
  ring h' (b :: m).
Proof.
  intros Hr Hnd L Hn Hp. simpl in *. rewrite chain_snoc in Hr.
  destruct Hr as [Hc _].
  destruct (snoc_cases m) as [->|(m' & y & ->)]; simpl in *.
  - exact L.
  - rewrite List.last_last in *. rewrite chain_snoc in Hc |- *.
    destruct Hc as [Hc _]. split; [|exact L].
    apply (chain_frame h); [| |exact Hc].
    + intros r Hin. apply Hn. intro E; subst r.
      rewrite <- app_assoc in Hnd.
      apply (nodup_disj (b :: m') ([y] ++ [d]) y Hnd Hin). simpl. auto.
    + intros r Hin. apply Hp. intro E; subst r.
      apply (nodup_head _ _ Hnd). apply in_or_app. left. exact Hin.
Qed.

End Ring.

(** * Invariants of the set *)
Section Invariant.
Context {A : Type}.
Implicit Types (s : RS A) (h : gmap ptr (RingNode A)) (ps l : list ptr).

(** The node reached after [n] steps along [next]. *)
Fixpoint walk_next h (p : ptr) (n : nat) : option ptr :=
  match n with
  | O => Some p
  | S n' => match h !! p with Some nd => walk_next h (next nd) n' | None => None end
  end.

(** The [n] nodes visited by following [next] from [p]. *)
Fixpoint ring_from h (p : ptr) (n : nat) : option (list ptr) :=
  match n with
  | O => Some []
  | S n' =>
      match h !! p with
      | Some nd => match ring_from h (next nd) n' with
                   | Some l => Some (p :: l)
                   | None => None
                   end
      | None => None
      end
  end.

(** The state invariant of the set, as the spec states it:
    - [size] is the number of Map entries (whose keys are distinct, as in
      any JS Map, and whose nodes hold their key);
    - following [next] from the cursor [size] times visits [size] distinct
      nodes, exactly the nodes of the Map, and comes back to the cursor;
    - every node satisfies [node.next.prev == node] and
      [node.prev.next == node];
    - cursor and insertionHead, when set, are nodes of the Map;
    - [size == 0] iff the cursor is null iff insertionHead is null. *)
Definition inv s : Prop :=
  size s = length (nodes s) /\
  NoDup (map fst (nodes s)) /\
  (forall k p, In (k, p) (nodes s) -> vl (heap s) p = Some k) /\
  (forall c, current s = Some c ->
     exists ps, ring_from (heap s) c (size s) = Some ps /\ NoDup ps /\
       (forall p, In p ps <-> In p (map snd (nodes s))) /\
       walk_next (heap s) c (size s) = Some c) /\
  (forall p, In p (map snd (nodes s)) ->
     exists nd n1 n2, heap s !! p = Some nd /\
       heap s !! next nd = Some n1 /\ prev n1 = p /\
       heap s !! prev nd = Some n2 /\ next n2 = p) /\
  (forall c, current s = Some c -> In c (map snd (nodes s))) /\
  (forall a, insertionHead s = Some a -> In a (map snd (nodes s))) /\
  (size s = 0 <-> current s = None) /\
  (size s = 0 <-> insertionHead s = None).

(** The same invariant with the ring given as the list [ps] of its nodes
    in [next] order from the cursor. *)
Record Inv s ps : Prop := {
  inv_len : length ps = size s;
  inv_size : size s = length (nodes s);
  inv_keys : NoDup (map fst (nodes s));
  inv_nodup : NoDup ps;
  inv_dom : forall p, In p ps <-> In p (map snd (nodes s));
  inv_vals : forall k p, In (k, p) (nodes s) -> vl (heap s) p = Some k;
  inv_ring : ring (heap s) ps;
  inv_cur : current s = head ps;
  inv_anc : match ps with
            | [] => insertionHead s = None
            | _ => exists a, insertionHead s = Some a /\ In a ps
            end
}.

Lemma chain_ring_from h a l z :
  chain h a l z ->
  ring_from h a (S (length l)) = Some (a :: l) /\
  walk_next h a (S (length l)) = Some z.
Proof.
  revert a. induction l as [|b l IH]; intros a Hc; simpl in *.
  - destruct Hc as [Hn _]. unfold nxt in Hn.
    destruct (h !! a) as [nd|]; simpl in *; [|discriminate].
    injection Hn as <-. auto.
  - destruct Hc as [[Hn _] Hc]. unfold nxt in Hn.
    destruct (h !! a) as [nd|]; simpl in *; [|discriminate].
    injection Hn as <-. destruct (IH _ Hc) as [E1 E2]. simpl in E1, E2.
    rewrite E1. auto.
Qed.

Lemma ring_from_chain h a n l z :
  ring_from h a (S n) = Some l -> walk_next h a (S n) = Some z ->
  (forall p nd, In p l -> h !! p = Some nd -> prv h (next nd) = Some p) ->
  exists l', l = a :: l' /\ length l' = n /\ chain h a l' z.
Proof.
  revert a l. induction n as [|n IH]; intros a l Hr Hw Hp; simpl in *.
  - destruct (h !! a) as [nd|] eqn:E; [|discriminate].
    injection Hr as <-. injection Hw as <-. exists []. repeat split.
    + unfold nxt. rewrite E. reflexivity.
    + apply (Hp a nd); simpl; auto.
  - destruct (h !! a) as [nd|] eqn:E; [|discriminate].
    destruct (h !! next nd) as [nd'|] eqn:E'; [|discriminate].
    destruct (ring_from h (next nd') n) as [l0|] eqn:Er; [|discriminate].
    injection Hr as <-.
    destruct (IH (next nd) (next nd :: l0)) as (l' & El & Hlen & Hc).
    + simpl. rewrite E', Er. reflexivity.
    + simpl. rewrite E'. exact Hw.
    + intros p nd0 Hin. apply Hp. simpl. auto.
    + injection El as El. subst l'. exists (next nd :: l0).
      repeat split; simpl in *; auto;
        try solve [unfold nxt; rewrite E; reflexivity
                  |apply (Hp a nd); simpl; auto].
Qed.

Lemma ring_from_length h a n l : ring_from h a n = Some l -> length l = n.
Proof.
  revert a l. induction n as [|n IH]; intros a l Hr; simpl in *.
  - injection Hr as <-. reflexivity.
  - destruct (h !! a) as [nd|]; [|discriminate].
    destruct (ring_from h (next nd) n) as [l0|] eqn:E; [|discriminate].
    injection Hr as <-. simpl. rewrite (IH _ _ E). reflexivity.
Qed.

Lemma Inv_inv s ps : Inv s ps -> inv s.
Proof.
  intros I. destruct I as [Hlen Hsz Hk Hnd Hdom Hv Hr Hc Ha].
  repeat split; auto.
  - intros c Ec. rewrite Ec in Hc. destruct ps as [|c' l]; [discriminate|].
    injection Hc as <-. simpl in Hr. destruct (chain_ring_from _ _ _ _ Hr) as [E1 E2].
    rewrite <- Hlen. simpl. exists (c :: l). simpl in E1, E2. auto.
  - intros p Hp. apply Hdom in Hp.
    destruct (ring_neighbours _ _ _ Hr Hp) as [(b & _ & Lb) (a & _ & La)].
    destruct Lb as [Nb Pb]. destruct La as [Na Pa]. unfold nxt, prv in *.
    destruct (heap s !! p) as [nd|] eqn:E; [|discriminate].
    destruct (heap s !! b) as [nb|] eqn:Eb; [|discriminate].
    destruct (heap s !! a) as [na|] eqn:Ea; [|discriminate].
    simpl in *. injection Nb as <-. injection Pb as Pb. injection Na as Na.
    injection Pa as <-. exists nd, nb, na. auto.
  - intros c Ec. apply Hdom. rewrite Ec in Hc.
    destruct ps; simpl in Hc; [discriminate|]. injection Hc as ->. simpl. auto.
  - intros a Ea. apply Hdom. destruct ps; [congruence|].
    destruct Ha as (a' & Ea' & Hin). congruence.
  - intros H0. rewrite Hc. destruct ps; simpl in *; [reflexivity|lia].
  - intros Hn. rewrite Hc in Hn. destruct ps; simpl in *; [lia|discriminate].
  - intros H0. destruct ps; simpl in *; [exact Ha|lia].
  - intros Hn. destruct ps; [simpl in *; lia|].
    destruct Ha as (a' & Ea' & _). congruence.
Qed.

Lemma inv_Inv s : inv s -> exists ps, Inv s ps.
Proof.
  intros (Hsz & Hk & Hv & Hring & Hnb & Hcur & Hanc & Hc0 & Ha0).
  destruct (current s) as [c|] eqn:Ec.
  - destruct (Hring c eq_refl) as (ps & Hrf & Hnd & Hdom & Hw).
    destruct (size s) as [|n] eqn:En.
    { assert (Some c = None) by (apply Hc0; reflexivity). discriminate. }
    destruct (ring_from_chain _ _ _ _ _ Hrf Hw) as (l & -> & Hlen & Hch).
    + intros p nd Hin Ep. apply Hdom in Hin.
      destruct (Hnb p Hin) as (nd' & n1 & n2 & E1 & E2 & E3 & _).
      rewrite Ep in E1. injection E1 as <-. unfold prv. rewrite E2. simpl.
      rewrite E3. reflexivity.
    + exists (c :: l). split; auto; try (rewrite En; simpl; congruence).
      destruct (insertionHead s) as [a|] eqn:Ea.
      * exists a. split; [reflexivity|]. apply Hdom, Hanc. reflexivity.
      * assert (S n = 0) by (apply Ha0; reflexivity). discriminate.
  - assert (Hs0 : size s = 0) by (apply Hc0; reflexivity).
    exists (@nil ptr).
    split; auto; try constructor; try reflexivity; try (apply Ha0; exact Hs0);
      destruct (nodes s); simpl in *; try tauto; lia.
Qed.

End Invariant.

(** * Executing the methods on the heap *)
Section Exec.
Context {A : Type} `{EqDecision A}.
Implicit Types (s : RS A) (h : gmap ptr (RingNode A)) (m : list (A * ptr))
  (k x : A) (ps l : list ptr).

Definition with_heap s h : RS A :=
  mkRS (current s) (insertionHead s) (nodes s) (size s) h.

Local Ltac rw_lookups :=
  repeat match goal with
         | H : ?m !! ?x = Some _ |- context [?m !! ?x] => rewrite H
         end.

Local Ltac heap_cases :=
  repeat (rewrite lookup_insert; simpl; repeat case_decide; subst; simpl;
          try congruence);
  rw_lookups; simpl; congruence.

Local Ltac unfold_m :=
  cbv beta iota zeta delta [bind ret get throw read upd_heap write_next
    write_prev set_current set_insertionHead set_nodes set_size with_heap];
  simpl.

(** insertBefore(target, node) relinks exactly four fields. *)
Lemma insertBefore_spec s t q nt nq npv :
  heap s !! t = Some nt -> heap s !! q = Some nq ->
  heap s !! prev nt = Some npv -> q <> t -> q <> prev nt ->
  exists h',
    insertBefore t q s = (Ok tt, with_heap s h') /\
    (forall r, vl h' r = vl (heap s) r) /\
    linked h' q t /\ linked h' (prev nt) q /\
    (forall r, r <> q -> r <> prev nt -> nxt h' r = nxt (heap s) r) /\
    (forall r, r <> q -> r <> t -> prv h' r = prv (heap s) r).
Proof.
  intros Ht Hq Hpv Hqt Hqp. destruct s as [cu ih ns sz h]; simpl in *.
  unfold insertBefore. unfold_m. rewrite Ht. simpl. rewrite Hq. simpl.
  rewrite lookup_insert_eq. simpl.
  rewrite lookup_insert_ne by congruence.
  rewrite lookup_insert_ne by congruence. rewrite Hpv. simpl.
  destruct (decide (t = prev nt)) as [Etp|Ntp].
  - rewrite <- Etp, lookup_insert_eq. simpl.
    eexists. split; [reflexivity|].
    unfold linked, nxt, prv, vl.
    repeat split; intros; heap_cases.
  - rewrite lookup_insert_ne by congruence.
    rewrite lookup_insert_ne by congruence.
    rewrite lookup_insert_ne by congruence. rewrite Ht. simpl.
    eexists. split; [reflexivity|].
    unfold linked, nxt, prv, vl.
    repeat split; intros; heap_cases.
Qed.

(** ** The Map *)
Lemma map_get_None m k : map_get m k = None <-> ~ In k (map fst m).
Proof.
  induction m as [|[k' p'] m IH]; simpl; [tauto|].
  case_decide; subst; [split; [discriminate|tauto]|].
  rewrite IH. intuition congruence.
Qed.

Lemma map_get_In m k p : map_get m k = Some p -> In (k, p) m.
Proof.
  induction m as [|[k' p'] m IH]; simpl; [discriminate|].
  case_decide; subst; [intros [= ->]; auto|]. auto.
Qed.

Lemma map_In_get m k p : NoDup (map fst m) -> In (k, p) m -> map_get m k = Some p.
Proof.
  induction m as [|[k' p'] m IH]; simpl; [tauto|].
  intros Hnd Hin. apply NoDup_cons in Hnd as [Hn Hnd].
  case_decide as E; subst.
  - destruct Hin as [[= ->]|Hin]; [reflexivity|].
    exfalso. apply Hn, list_elem_of_In. apply (in_map fst) in Hin. exact Hin.
  - destruct Hin as [[= -> ->]|Hin]; [congruence|]. auto.
Qed.

Lemma map_set_new m k p : map_get m k = None -> map_set m k p = m ++ [(k, p)].
Proof.
  induction m as [|[k' p'] m IH]; simpl; [reflexivity|].
  case_decide as Ek; [discriminate|]. intros Hg. rewrite IH by exact Hg. reflexivity.
Qed.

Lemma map_has_get m k : map_has m k = false <-> map_get m k = None.
Proof. unfold map_has. destruct (map_get m k); split; congruence. Qed.

Lemma In_map_delete m k k' p :
  In (k', p) (map_delete m k) <-> In (k', p) m /\ k' <> k.
Proof.
  unfold map_delete. rewrite <- !list_elem_of_In, list_elem_of_filter. simpl. tauto.
Qed.

Lemma map_delete_keys m k :
  NoDup (map fst m) -> NoDup (map fst (map_delete m k)).
Proof.
  unfold map_delete. induction m as [|[k' p'] m IH]; simpl; [auto|].
  intros Hnd. apply NoDup_cons in Hnd as [Hn Hnd].
  rewrite filter_cons. simpl. case_decide; simpl; auto.
  apply NoDup_cons. split; auto. intros Hin. apply Hn.
  apply list_elem_of_In in Hin. apply list_elem_of_In.
  apply in_map_iff in Hin as ([k0 p0] & E & Hin). simpl in E. subst k0.
  apply In_map_delete in Hin as [Hin _]. apply (in_map fst) in Hin. exact Hin.
Qed.

Lemma map_delete_absent m k : ~ In k (map fst m) -> map_delete m k = m.
Proof.
  unfold map_delete. induction m as [|[k' p'] m IH]; simpl; [reflexivity|].
  intros Hn. rewrite filter_cons. simpl. case_decide; [|tauto].
  rewrite IH by tauto. reflexivity.
Qed.

Lemma map_delete_length m k p :
  NoDup (map fst m) -> In (k, p) m -> length (map_delete m k) = length m - 1.
Proof.
  unfold map_delete. induction m as [|[k' p'] m IH]; simpl; [tauto|].
  intros Hnd Hin. apply NoDup_cons in Hnd as [Hn Hnd].
  rewrite filter_cons. simpl. case_decide as E.
  - destruct Hin as [[= -> ->]|Hin]; [congruence|]. simpl.
    rewrite IH by auto. destruct m; simpl in *; [tauto|lia].
  - try apply dec_stable in E; subst k'. simpl.
    pose proof (map_delete_absent m k) as Ha. unfold map_delete in Ha.
    rewrite Ha; [lia|]. intros Hin'. apply Hn, list_elem_of_In. exact Hin'.
Qed.

(** A freshly allocated pointer is not in the heap. *)
Lemma fresh_lookup h : h !! fresh (dom h) = None.
Proof. apply not_elem_of_dom. apply is_fresh. Qed.

Lemma Inv_lookup s ps p : Inv s ps -> In p ps -> exists nd, heap s !! p = Some nd.
Proof.
  intros I Hin. destruct (ring_neighbours _ _ _ (inv_ring _ _ I) Hin)
    as [(b & _ & [Hn _]) _].
  unfold nxt in Hn. destruct (heap s !! p); [eauto|discriminate].
Qed.

Lemma Inv_fresh s ps : Inv s ps -> ~ In (fresh (dom (heap s))) ps.
Proof.
  intros I Hin. destruct (Inv_lookup _ _ _ I Hin) as [nd E].
  rewrite fresh_lookup in E. discriminate.
Qed.

(** addToFurthest / addToNext on an item already present do nothing. *)
Lemma addToFurthest_present s x :
  map_has (nodes s) x = true -> addToFurthest x s = (Ok tt, s).
Proof. intros H. unfold addToFurthest. unfold_m. rewrite H. reflexivity. Qed.

Lemma addToNext_present s x :
  map_has (nodes s) x = true -> addToNext x s = (Ok tt, s).
Proof. intros H. unfold addToNext. unfold_m. rewrite H. reflexivity. Qed.

(** The heap after linking the fresh node [q] holding [x] before [t]. *)
Definition linked_before (h h' : gmap ptr (RingNode A)) (q : ptr) (x : A)
    (t : ptr) (nt : RingNode A) : Prop :=
  h !! t = Some nt /\
  vl h' q = Some x /\ (forall r, r <> q -> vl h' r = vl h r) /\
  linked h' q t /\ linked h' (prev nt) q /\
  (forall r, r <> q -> r <> prev nt -> nxt h' r = nxt h r) /\
  (forall r, r <> q -> r <> t -> prv h' r = prv h r).

Lemma insertBefore_fresh s t x cu ih nt :
  heap s !! t = Some nt -> (exists npv, heap s !! prev nt = Some npv) ->
  let q := fresh (dom (heap s)) in
  exists h',
    insertBefore t q (mkRS cu ih (nodes s) (size s) (<[q := mkNode x q q]> (heap s)))
    = (Ok tt, mkRS cu ih (nodes s) (size s) h') /\
    linked_before (heap s) h' q x t nt.
Proof.
  intros Ht [npv Hpv] q.
  assert (Hq : heap s !! q = None) by apply fresh_lookup.
  clearbody q.
  assert (Hqt : q <> t) by congruence.
  assert (Hqp : q <> prev nt) by congruence.
  destruct (insertBefore_spec (mkRS cu ih (nodes s) (size s)
              (<[q := mkNode x q q]> (heap s))) t q nt (mkNode x q q) npv)
    as (h' & E & Hvl & L1 & L2 & Hn & Hp); simpl;
    try (rewrite lookup_insert_ne by congruence; assumption);
    try (apply lookup_insert_eq); try assumption.
  unfold with_heap in E. simpl in *.
  exists h'. split; [exact E|]. unfold linked_before.
  assert (Fn : forall r, r <> q -> nxt (<[q:=mkNode x q q]> (heap s)) r = nxt (heap s) r)
    by (intros r Hr; unfold nxt; rewrite lookup_insert_ne by congruence; reflexivity).
  assert (Fp : forall r, r <> q -> prv (<[q:=mkNode x q q]> (heap s)) r = prv (heap s) r)
    by (intros r Hr; unfold prv; rewrite lookup_insert_ne by congruence; reflexivity).
  repeat split; try apply L1; try apply L2; try assumption.
  - rewrite Hvl. unfold vl. rewrite lookup_insert_eq. reflexivity.
  - intros r Hr. rewrite Hvl. unfold vl. rewrite lookup_insert_ne by congruence.
    reflexivity.
  - intros r H1 H2. rewrite Hn by assumption. apply Fn. exact H1.
  - intros r H1 H2. rewrite Hp by assumption. apply Fp. exact H1.
Qed.

Lemma Inv_links s ps p nd :
  Inv s ps -> In p ps -> heap s !! p = Some nd ->
  In (prev nd) ps /\ In (next nd) ps /\
  linked (heap s) (prev nd) p /\ linked (heap s) p (next nd).
Proof.
  intros I Hin E.
  destruct (ring_neighbours _ _ _ (inv_ring _ _ I) Hin)
    as [(b & Hb & [Nb Pb]) (a & Ha & [Na Pa])].
  unfold nxt, prv in Nb, Pa. rewrite E in Nb, Pa. simpl in Nb, Pa.
  injection Nb as Enb. injection Pa as Epa. rewrite Enb, Epa.
  repeat split; auto; unfold nxt, prv; rewrite E; simpl; congruence.
Qed.

Lemma Inv_empty s : Inv s [] <-> Inv s [] /\ current s = None /\ insertionHead s = None.
Proof.
  split; [|tauto]. intros I. split; [exact I|]. split; [apply (inv_cur _ _ I)|].
  apply (inv_anc _ _ I).
Qed.

Lemma addToFurthest_new s ps x :
  Inv s ps -> map_get (nodes s) x = None ->
  let q := fresh (dom (heap s)) in
  match insertionHead s with
  | None => ps = [] /\
      addToFurthest x s = (Ok tt, mkRS (Some q) (Some q) (nodes s ++ [(x, q)])
                                   (size s + 1) (<[q := mkNode x q q]> (heap s)))
  | Some a => exists na h', In a ps /\ linked_before (heap s) h' q x a na /\
      addToFurthest x s = (Ok tt, mkRS (current s) (Some a) (nodes s ++ [(x, q)])
                                   (size s + 1) h')
  end.
Proof.
  intros I Hx q.
  assert (Hh : map_has (nodes s) x = false) by (apply map_has_get; exact Hx).
  pose proof (inv_cur _ _ I) as Hc. pose proof (inv_anc _ _ I) as Ha.
  unfold addToFurthest, alloc. unfold_m. rewrite Hh. fold q.
  destruct ps as [|c l]; simpl in Ha, Hc.
  - rewrite Ha, Hc. simpl.
    rewrite map_set_new by exact Hx. auto.
  - destruct Ha as (a & Ea & Hin). rewrite Ea. simpl in Hc. rewrite Hc.
    unfold requireInsertionHead. unfold_m.
    destruct (Inv_lookup _ _ _ I Hin) as [na Hna].
    destruct (Inv_links _ _ _ _ I Hin Hna) as (Hpv & _).
    destruct (Inv_lookup _ _ _ I Hpv) as [npv Hnpv].
    destruct (insertBefore_fresh s a x (Some c) (Some a) na Hna (ex_intro _ npv Hnpv))
      as (h' & E & Hlb).
    fold q in E, Hlb. rewrite E. simpl.
    rewrite map_set_new by exact Hx. exists na, h'. auto.
Qed.

Lemma addToNext_new s ps x :
  Inv s ps -> map_get (nodes s) x = None ->
  let q := fresh (dom (heap s)) in
  match current s with
  | None => ps = [] /\
      addToNext x s = (Ok tt, mkRS (Some q) (Some q) (nodes s ++ [(x, q)])
                               (size s + 1) (<[q := mkNode x q q]> (heap s)))
  | Some c => exists nc h', In c ps /\ linked_before (heap s) h' q x c nc /\
      addToNext x s = (Ok tt, mkRS (Some q) (insertionHead s) (nodes s ++ [(x, q)])
                               (size s + 1) h')
  end.
Proof.
  intros I Hx q.
  assert (Hh : map_has (nodes s) x = false) by (apply map_has_get; exact Hx).
  pose proof (inv_cur _ _ I) as Hc. pose proof (inv_anc _ _ I) as Ha.
  unfold addToNext, alloc. unfold_m. rewrite Hh. fold q.
  destruct ps as [|c l]; simpl in Ha, Hc.
  - rewrite Ha, Hc. simpl. rewrite map_set_new by exact Hx. auto.
  - rewrite Hc. unfold_m.
    assert (Hin : In c (c :: l)) by (left; reflexivity).
    destruct (Inv_lookup _ _ _ I Hin) as [nc Hnc].
    destruct (Inv_links _ _ _ _ I Hin Hnc) as (Hpv & _).
    destruct (Inv_lookup _ _ _ I Hpv) as [npv Hnpv].
    destruct (insertBefore_fresh s c x (Some c) (insertionHead s) nc Hnc
                (ex_intro _ npv Hnpv)) as (h' & E & Hlb).
    fold q in E, Hlb. rewrite E. simpl.
    rewrite map_set_new by exact Hx. exists nc, h'. auto.
Qed.

Lemma nodup_rot l1 l2 : NoDup (l1 ++ l2) -> NoDup (l2 ++ l1).
Proof.
  intros H. apply (NoDup_Permutation_proper _ _ (Permutation_app_comm l1 l2)).
  exact H.
Qed.

(** Linking [q] before [t] keeps a ring, with [q] just before [t]. *)
Lemma ring_insert_at h h' l1 t l2 q x nt :
  ring h (l1 ++ t :: l2) -> NoDup (l1 ++ t :: l2) -> ~ In q (l1 ++ t :: l2) ->
  linked_before h h' q x t nt -> ring h' (l1 ++ q :: t :: l2).
Proof.
  intros Hr Hnd Hq (Ht & _ & _ & L1 & L2 & Hn & Hp).
  apply ring_rot_app in Hr. apply nodup_rot in Hnd. simpl in Hr, Hnd.
  destruct (ring_head_links _ _ _ Hr) as [_ [_ Hpv]].
  unfold prv in Hpv. rewrite Ht in Hpv. injection Hpv as Hpv.
  rewrite Hpv in L2, Hn.
  assert (Hq' : ~ In q (t :: l2 ++ l1)).
  { intros Hin. apply Hq. apply in_or_app. simpl in Hin.
    rewrite in_app_iff in Hin. simpl. tauto. }
  pose proof (ring_insert h h' t (l2 ++ l1) q Hr Hnd Hq' L2 L1 Hn Hp) as R.
  replace (t :: (l2 ++ l1) ++ [q]) with ((t :: l2) ++ (l1 ++ [q])) in R
    by (simpl; rewrite app_assoc; reflexivity).
  apply ring_rot_app in R. rewrite <- app_assoc in R. exact R.
Qed.

(** The invariant after a fresh node [q] holding [x] joined the ring. *)
Lemma Inv_insert s ps ps' x h' cur' anc' :
  Inv s ps -> map_get (nodes s) x = None ->
  let q := fresh (dom (heap s)) in
  vl h' q = Some x -> (forall r, r <> q -> vl h' r = vl (heap s) r) ->
  ps' ≡ₚ q :: ps -> ring h' ps' -> cur' = head ps' ->
  (exists a, anc' = Some a /\ In a ps') ->
  Inv (mkRS cur' anc' (nodes s ++ [(x, q)]) (size s + 1) h') ps'.
Proof.
  intros I Hx q Hvq Hvr Hperm Hr Hc Ha.
  pose proof (Inv_fresh _ _ I) as Hq. fold q in Hq.
  assert (Hin : forall p, In p ps' <-> p = q \/ In p ps).
  { intros p. rewrite <- !list_elem_of_In, Hperm, elem_of_cons,
      list_elem_of_In. split; intros [H|H]; auto. }
  destruct I as [Hlen Hsz Hk Hnd Hdom Hv Hri Hcu Han].
  split; simpl.
  - rewrite (Permutation_length Hperm). simpl. lia.
  - rewrite length_app. simpl. lia.
  - rewrite map_app. simpl. apply NoDup_app. split; [exact Hk|].
    split; [|apply NoDup_singleton]. intros y Hy Hy'.
    apply list_elem_of_singleton in Hy'. subst y.
    apply map_get_None in Hx. apply Hx, list_elem_of_In, Hy.
  - rewrite Hperm. apply NoDup_cons. split; [|exact Hnd].
    rewrite list_elem_of_In. exact Hq.
  - intros p. rewrite Hin, map_app, in_app_iff, <- Hdom. simpl. intuition (subst; auto).
  - intros k p Hkp. apply in_app_or in Hkp as [Hkp|[Hkp|[]]].
    + assert (Hp : In p ps) by (apply Hdom; apply (in_map snd) in Hkp; exact Hkp).
      rewrite Hvr by (intros ->; exact (Hq Hp)). apply Hv. exact Hkp.
    + injection Hkp as <- <-. exact Hvq.
  - exact Hr.
  - exact Hc.
  - destruct ps' as [|p0 ps'].
    + symmetry in Hperm. apply Permutation_nil_r in Hperm. discriminate.
    + exact Ha.
Qed.

(** A node linked to itself is alone in its ring. *)
Lemma ring_self h ps p :
  ring h ps -> NoDup ps -> In p ps -> nxt h p = Some p -> length ps = 1.
Proof.
  intros Hr Hnd Hin Hn. apply in_split in Hin as (l1 & l2 & ->).
  apply ring_rot_app in Hr. apply nodup_rot in Hnd. simpl in Hr, Hnd.
  destruct (ring_head_links _ _ _ Hr) as [[Hn' _] _].
  rewrite Hn in Hn'. injection Hn' as Hn'.
  destruct (l2 ++ l1) as [|b l] eqn:E.
  - apply (f_equal (@length ptr)) in E. rewrite length_app in E. simpl in E.
    rewrite length_app. simpl. lia.
  - simpl in Hn'. subst b. apply nodup_head in Hnd. simpl in Hnd. tauto.
Qed.

Lemma delete_absent s x : map_get (nodes s) x = None -> delete x s = (Ok false, s).
Proof. intros H. unfold delete. unfold_m. rewrite H. reflexivity. Qed.

Lemma delete_sole s x p :
  map_get (nodes s) x = Some p -> size s = 1 ->
  delete x s = (Ok true, mkRS None None (map_delete (nodes s) x) 0 (heap s)).
Proof.
  intros H E. unfold delete. unfold_m. rewrite H, E. reflexivity.
Qed.

(** delete(item) on a node with other nodes around: the two neighbours are
    spliced together and only their [next] / [prev] fields change. *)
Lemma delete_many s ps x p :
  Inv s ps -> map_get (nodes s) x = Some p -> size s <> 1 ->
  exists nd, heap s !! p = Some nd /\ In p ps /\
    prev nd <> p /\ next nd <> p /\ exists h',
    delete x s = (Ok true,
      mkRS (if decide (current s = Some p) then Some (next nd) else current s)
           (if decide (insertionHead s = Some p) then Some (next nd)
            else insertionHead s)
           (map_delete (nodes s) x) (size s - 1) h') /\
    linked h' (prev nd) (next nd) /\
    (forall r, vl h' r = vl (heap s) r) /\
    (forall r, r <> prev nd -> nxt h' r = nxt (heap s) r) /\
    (forall r, r <> next nd -> prv h' r = prv (heap s) r).
Proof.
  intros I Hg Hs.
  assert (Hin : In p ps).
  { apply (inv_dom _ _ I). apply map_get_In in Hg.
    apply (in_map snd) in Hg. exact Hg. }
  destruct (Inv_lookup _ _ _ I Hin) as [nd Hnd].
  destruct (Inv_links _ _ _ _ I Hin Hnd) as (Hpi & Hni & Lp & Ln).
  destruct (Inv_lookup _ _ _ I Hpi) as [npv Hnpv].
  destruct (Inv_lookup _ _ _ I Hni) as [nnx Hnnx].
  assert (Hlen : length ps <> 1) by (rewrite (inv_len _ _ I); exact Hs).
  assert (Hpp : prev nd <> p).
  { intros E. apply Hlen. apply (ring_self (heap s) ps p (inv_ring _ _ I)
      (inv_nodup _ _ I) Hin). rewrite <- E at 1. apply Lp. }
  assert (Hnp : next nd <> p).
  { intros E. apply Hlen. apply (ring_self (heap s) ps p (inv_ring _ _ I)
      (inv_nodup _ _ I) Hin). rewrite <- E at 2. apply Ln. }
  exists nd. do 4 (split; [assumption|]). clear Lp Ln.
  destruct s as [cu ih ns sz h]; simpl in *.
  unfold delete. unfold_m. rewrite Hg. simpl.
  apply Nat.eqb_neq in Hs. rewrite Hs. simpl. rewrite Hnd. simpl.
  rewrite Hnd. simpl. rewrite Hnpv. simpl.
  rewrite lookup_insert_ne by congruence. rewrite Hnd. simpl.
  destruct (decide (next nd = prev nd)) as [Enp|Nnp].
  - rewrite Enp, lookup_insert_eq. simpl.
    repeat case_decide; simpl in *; try congruence;
      (eexists; split; [try rewrite Enp; reflexivity|];
       unfold linked, nxt, prv, vl; try rewrite Enp;
       repeat split; intros; heap_cases).
  - rewrite lookup_insert_ne by congruence. rewrite Hnnx. simpl.
    repeat case_decide; simpl in *; try congruence;
      (eexists; split; [reflexivity|];
       unfold linked, nxt, prv, vl;
       repeat split; intros; heap_cases).
Qed.

(** The first node of an empty set links to itself. *)
Lemma Inv_first s x :
  Inv s [] -> map_get (nodes s) x = None ->
  let q := fresh (dom (heap s)) in
  Inv (mkRS (Some q) (Some q) (nodes s ++ [(x, q)]) (size s + 1)
         (<[q := mkNode x q q]> (heap s))) [q].
Proof.
  intros I Hx q. apply (Inv_insert s [] [q] x _ _ _ I Hx).
  - unfold vl. rewrite lookup_insert_eq. reflexivity.
  - intros r Hr. fold q in Hr. unfold vl.
    rewrite lookup_insert_ne by congruence. reflexivity.
  - reflexivity.
  - simpl. unfold linked, nxt, prv. rewrite lookup_insert_eq. auto.
  - reflexivity.
  - exists q. simpl. auto.
Qed.

(** addToFurthest(x) of a fresh item when the anchor [b] sits in the ring:
    the new node [q] holding [x] is placed just before [b]. *)
Lemma addToFurthest_Inv_at s l1 b l2 x :
  Inv s (l1 ++ b :: l2) -> insertionHead s = Some b ->
  map_get (nodes s) x = None ->
  exists q, ~ In q (l1 ++ b :: l2) /\
    fst (addToFurthest x s) = Ok tt /\
    vl (heap (snd (addToFurthest x s))) q = Some x /\
    (forall r, r <> q -> vl (heap (snd (addToFurthest x s))) r = vl (heap s) r) /\
    Inv (snd (addToFurthest x s))
      (match l1 with [] => b :: l2 ++ [q] | _ => l1 ++ q :: b :: l2 end).
Proof.
  intros I Hb Hx. pose proof (addToFurthest_new _ _ _ I Hx) as Hn. simpl in Hn.
  rewrite Hb in Hn. destruct Hn as (na & h' & Hin & Hlb & E).
  set (q := fresh (dom (heap s))) in *.
  assert (Hq : ~ In q (l1 ++ b :: l2)) by apply (Inv_fresh _ _ I).
  exists q. rewrite E. simpl. split; [exact Hq|]. split; [reflexivity|].
  pose proof Hlb as (_ & Hvq & Hvr & _).
  split; [exact Hvq|]. split; [exact Hvr|].
  pose proof (ring_insert_at _ _ _ _ _ _ _ _ (inv_ring _ _ I) (inv_nodup _ _ I)
                Hq Hlb) as R.
  pose proof (inv_cur _ _ I) as Hc.
  apply (Inv_insert s _ _ x h' _ _ I Hx Hvq Hvr).
  - destruct l1 as [|c l1].
    + simpl. rewrite app_comm_cons. symmetry. apply Permutation_cons_append.
    + symmetry. apply (Permutation_middle (c :: l1) (b :: l2) q).
  - destruct l1 as [|c l1]; [|exact R].
    apply (ring_rot h' q (b :: l2)) in R. exact R.
  - rewrite Hc. destruct l1; reflexivity.
  - exists b. split; [reflexivity|]. destruct l1 as [|c l1]; simpl; [auto|].
    right. apply in_or_app. right. simpl. auto.
Qed.

(** addToNext(x) of a fresh item on a non-empty set: the new node [q] is
    placed just before the cursor and becomes the cursor. *)
Lemma addToNext_Inv_at s c l x :
  Inv s (c :: l) -> map_get (nodes s) x = None ->
  exists q, ~ In q (c :: l) /\
    fst (addToNext x s) = Ok tt /\
    vl (heap (snd (addToNext x s))) q = Some x /\
    (forall r, r <> q -> vl (heap (snd (addToNext x s))) r = vl (heap s) r) /\
    insertionHead (snd (addToNext x s)) = insertionHead s /\
    Inv (snd (addToNext x s)) (q :: c :: l).
Proof.
  intros I Hx. pose proof (addToNext_new _ _ _ I Hx) as Hn. simpl in Hn.
  pose proof (inv_cur _ _ I) as Hc. simpl in Hc. rewrite Hc in Hn.
  destruct Hn as (nc & h' & Hin & Hlb & E).
  set (q := fresh (dom (heap s))) in *.
  assert (Hq : ~ In q (c :: l)) by apply (Inv_fresh _ _ I).
  exists q. rewrite E. simpl. split; [exact Hq|]. split; [reflexivity|].
  pose proof Hlb as (_ & Hvq & Hvr & _).
  split; [exact Hvq|]. split; [exact Hvr|]. split; [reflexivity|].
  pose proof (ring_insert_at _ _ [] _ _ _ _ _ (inv_ring _ _ I) (inv_nodup _ _ I)
                Hq Hlb) as R.
  pose proof (inv_anc _ _ I) as Ha. simpl in Ha.
  destruct Ha as (a & Ea & Hain).
  apply (Inv_insert s _ _ x h' _ _ I Hx Hvq Hvr).
  - reflexivity.
  - exact R.
  - reflexivity.
  - exists a. split; [exact Ea|]. right. exact Hain.
Qed.

(** addToFurthest(x) and addToNext(x) keep the invariant. *)
Lemma addToFurthest_Inv s ps x :
  Inv s ps -> fst (addToFurthest x s) = Ok tt /\
  exists ps', Inv (snd (addToFurthest x s)) ps'.
Proof.
  intros I. destruct (map_has (nodes s) x) eqn:Eh.
  - rewrite addToFurthest_present by exact Eh. eauto.
  - apply map_has_get in Eh.
    destruct (insertionHead s) as [b|] eqn:Eb.
    + pose proof (inv_anc _ _ I) as Ha. destruct ps as [|c l]; [congruence|].
      destruct Ha as (a & Ea & Hin). rewrite Eb in Ea. injection Ea as <-.
      apply in_split in Hin as (l1 & l2 & E12). rewrite E12 in I.
      destruct (addToFurthest_Inv_at _ _ _ _ _ I Eb Eh) as (q & _ & E & _ & _ & I').
      eauto.
    + pose proof (addToFurthest_new _ _ _ I Eh) as Hn. simpl in Hn.
      rewrite Eb in Hn. destruct Hn as [-> E]. rewrite E.
      split; [reflexivity|]. eexists. apply Inv_first; assumption.
Qed.

Lemma addToNext_Inv s ps x :
  Inv s ps -> fst (addToNext x s) = Ok tt /\
  exists ps', Inv (snd (addToNext x s)) ps'.
Proof.
  intros I. destruct (map_has (nodes s) x) eqn:Eh.
  - rewrite addToNext_present by exact Eh. eauto.
  - apply map_has_get in Eh. destruct ps as [|c l].
    + pose proof (addToNext_new _ _ _ I Eh) as Hn. simpl in Hn.
      rewrite (inv_cur _ _ I) in Hn. destruct Hn as [_ E]. rewrite E.
      split; [reflexivity|]. eexists. apply Inv_first; assumption.
    + destruct (addToNext_Inv_at _ _ _ _ I Eh) as (q & _ & E & _ & _ & _ & I').
      eauto.
Qed.

Lemma last_cons_default (b d : ptr) (l : list ptr) :
  List.last (b :: l) d = List.last l b.
Proof.
  revert b d. induction l as [|y l IH]; intros b d; [reflexivity|].
  change (List.last (y :: l) d = List.last (y :: l) b). rewrite !IH. reflexivity.
Qed.

Lemma in_remove_mid (r p : ptr) l1 l2 :
  In r (l1 ++ p :: l2) -> r <> p -> In r (l1 ++ l2).
Proof. rewrite !in_app_iff. simpl. intuition congruence. Qed.

Lemma In_key_unique m k a b :
  NoDup (map fst m) -> In (k, a) m -> In (k, b) m -> a = b.
Proof.
  intros Hnd Ha Hb. apply (map_In_get _ _ _ Hnd) in Ha.
  apply (map_In_get _ _ _ Hnd) in Hb. congruence.
Qed.

(** delete(item) of the last item empties the set. *)
Lemma delete_Inv_sole s ps x p :
  Inv s ps -> map_get (nodes s) x = Some p -> size s = 1 ->
  Inv (snd (delete x s)) [].
Proof.
  intros I Hg H1. rewrite (delete_sole _ _ _ Hg H1). simpl.
  apply map_get_In in Hg.
  assert (E0 : map_delete (nodes s) x = []).
  { apply length_zero_iff_nil.
    rewrite (map_delete_length _ _ _ (inv_keys _ _ I) Hg).
    rewrite <- (inv_size _ _ I). lia. }
  rewrite E0. split; simpl; try tauto; try reflexivity; try constructor.
Qed.

(** delete(item) of one of several items: its node leaves the ring. *)
Lemma delete_Inv_many s l1 p l2 x :
  Inv s (l1 ++ p :: l2) -> map_get (nodes s) x = Some p -> size s <> 1 ->
  exists nd, heap s !! p = Some nd /\ next nd = hd p (l2 ++ l1) /\
    fst (delete x s) = Ok true /\
    nodes (snd (delete x s)) = map_delete (nodes s) x /\
    size (snd (delete x s)) = size s - 1 /\
    (forall r, vl (heap (snd (delete x s))) r = vl (heap s) r) /\
    current (snd (delete x s)) =
      (if decide (current s = Some p) then Some (next nd) else current s) /\
    insertionHead (snd (delete x s)) =
      (if decide (insertionHead s = Some p) then Some (next nd)
       else insertionHead s) /\
    Inv (snd (delete x s)) (l1 ++ l2).
Proof.
  intros I Hg Hs.
  destruct (delete_many _ _ _ _ I Hg Hs)
    as (nd & Hnd & Hin & Hpp & Hnp & h' & E & L & Hv & Hn & Hp).
  pose proof (inv_ring _ _ I) as R. apply ring_rot_app in R. simpl in R.
  pose proof (inv_nodup _ _ I) as Hnd0.
  pose proof Hnd0 as ND. apply nodup_rot in ND. simpl in ND.
  destruct (ring_head_links _ _ _ R) as [[Hn1 _] [_ Hp1]].
  unfold nxt in Hn1. unfold prv in Hp1. rewrite Hnd in Hn1, Hp1.
  injection Hn1 as Hn1. injection Hp1 as Hp1.
  exists nd. split; [exact Hnd|]. split; [exact Hn1|].
  rewrite E. simpl. clear E. split; [reflexivity|].
  split; [reflexivity|]. split; [reflexivity|]. split; [exact Hv|].
  split; [reflexivity|]. split; [reflexivity|].
  assert (Hlen : length (l1 ++ p :: l2) = size s) by apply (inv_len _ _ I).
  destruct (l2 ++ l1) as [|b m] eqn:Elm.
  { exfalso. apply Hs. rewrite <- Hlen, !length_app. simpl.
    apply (f_equal (@length ptr)) in Elm. rewrite length_app in Elm. simpl in Elm.
    lia. }
  simpl in Hn1. rewrite last_cons_default in Hp1.
  assert (Rs : ring h' (b :: m)).
  { change (ring (heap s) (p :: b :: m)) in R. apply ring_rot in R.
    apply (nodup_rot [p] (b :: m)) in ND.
    apply (ring_splice (heap s) h' b m p); [exact R|exact ND
                                           |rewrite <- Hp1, <- Hn1; exact L
                                           |rewrite <- Hp1; exact Hn
                                           |rewrite <- Hn1; exact Hp]. }
  rewrite <- Elm in Rs. apply ring_rot_app in Rs.
  assert (Hnd' : NoDup (l1 ++ l2)).
  { apply (NoDup_Permutation_proper _ _ (Permutation_middle l1 l2 p)) in Hnd0.
    apply NoDup_cons in Hnd0. tauto. }
  assert (Hpn : ~ In p (l1 ++ l2)).
  { apply (NoDup_Permutation_proper _ _ (Permutation_middle l1 l2 p)) in Hnd0.
    apply NoDup_cons in Hnd0 as [H _]. rewrite list_elem_of_In in H. exact H. }
  assert (Hbin : In b (l1 ++ l2)).
  { assert (Hb : In b (l2 ++ l1)) by (rewrite Elm; left; reflexivity).
    apply in_or_app. apply in_app_or in Hb. tauto. }
  pose proof (map_get_In _ _ _ Hg) as Hxp.
  destruct I as [Ilen Isz Ik Ind Idom Iv Iring Icur Ianc].
  split; simpl.
  - rewrite length_app in *. simpl in Ilen. lia.
  - rewrite (map_delete_length _ _ _ Ik Hxp). lia.
  - apply map_delete_keys. exact Ik.
  - exact Hnd'.
  - intros r. split.
    + intros Hr. assert (Hr' : In r (l1 ++ p :: l2)).
      { rewrite in_app_iff in Hr |- *. simpl. tauto. }
      apply Idom in Hr'. apply in_map_iff in Hr' as ([k r'] & Er & Hkr).
      simpl in Er. subst r'. apply in_map_iff. exists (k, r). split; [reflexivity|].
      apply In_map_delete. split; [exact Hkr|]. intros ->.
      apply Hpn. rewrite (In_key_unique _ _ _ _ Ik Hkr Hxp) in Hr. exact Hr.
    + intros Hr. apply in_map_iff in Hr as ([k r'] & Er & Hkr).
      simpl in Er. subst r'. apply In_map_delete in Hkr as [Hkr Hk].
      apply in_remove_mid with (p := p).
      * apply Idom. apply (in_map snd) in Hkr. exact Hkr.
      * intros ->. apply Hk. apply Iv in Hkr. apply Iv in Hxp. congruence.
  - intros k r Hkr. rewrite Hv. apply Iv. apply In_map_delete in Hkr. tauto.
  - exact Rs.
  - case_decide as Ec.
    + rewrite Icur in Ec. destruct l1 as [|c l1]; simpl in Ec.
      * simpl in Elm |- *. rewrite app_nil_r in Elm. subst l2. simpl. congruence.
      * injection Ec as ->. exfalso. apply Hpn. left. reflexivity.
    + rewrite Icur. destruct l1 as [|c l1]; simpl in *; [|reflexivity].
      congruence.
  - destruct (l1 ++ l2) as [|c0 l0] eqn:E12; [destruct Hbin|].
    destruct (l1 ++ p :: l2) as [|c1 l1'] eqn:E1; [destruct l1; discriminate|].
    destruct Ianc as (a & Ea & Hain).
    case_decide as Ea'.
    + exists (next nd). split; [reflexivity|]. rewrite Hn1. exact Hbin.
    + exists a. split; [exact Ea|]. rewrite <- E12. apply in_remove_mid with (p := p).
      * rewrite E1. exact Hain.
      * intros ->. congruence.
Qed.

Lemma delete_Inv s ps x :
  Inv s ps -> exists ps', Inv (snd (delete x s)) ps'.
Proof.
  intros I. destruct (map_get (nodes s) x) as [p|] eqn:Eg.
  - destruct (Nat.eq_dec (size s) 1) as [E1|E1].
    + exists []. apply (delete_Inv_sole _ _ _ _ I Eg E1).
    + assert (Hin : In p ps).
      { apply (inv_dom _ _ I). apply map_get_In in Eg.
        apply (in_map snd) in Eg. exact Eg. }
      apply in_split in Hin as (l1 & l2 & ->).
      destruct (delete_Inv_many _ _ _ _ _ I Eg E1)
        as (_ & _ & _ & _ & _ & _ & _ & _ & _ & I').
      eauto.
  - rewrite delete_absent by exact Eg. eauto.
Qed.

(** ** Moving the cursor *)
Definition with_current s (c : option ptr) : RS A :=
  mkRS c (insertionHead s) (nodes s) (size s) (heap s).

(** Any rotation of the ring, with the cursor on its head, satisfies the
    invariant. *)
Lemma Inv_rot s l1 l2 :
  Inv s (l1 ++ l2) -> Inv (with_current s (head (l2 ++ l1))) (l2 ++ l1).
Proof.
  intros [Hlen Hsz Hk Hnd Hdom Hv Hr Hc Ha].
  assert (Hin : forall r, In r (l2 ++ l1) <-> In r (l1 ++ l2))
    by (intros r; rewrite !in_app_iff; tauto).
  split; simpl; auto.
  - rewrite length_app in *. lia.
  - apply nodup_rot. exact Hnd.
  - intros r. rewrite Hin. apply Hdom.
  - apply ring_rot_app. exact Hr.
  - destruct (l2 ++ l1) as [|c l] eqn:E.
    + apply app_eq_nil in E as [-> ->]. exact Ha.
    + destruct (l1 ++ l2) as [|c' l'] eqn:E'.
      * apply app_eq_nil in E' as [-> ->]. discriminate.
      * destruct Ha as (a & Ea & Hain). exists a. split; [exact Ea|].
        apply Hin. exact Hain.
Qed.

(** next() on a non-empty set returns the cursor's value and moves the
    cursor to the following node of the ring. *)
Lemma rs_next_step s c l :
  Inv s (c :: l) ->
  exists v, vl (heap s) c = Some v /\
    rs_next s = (Ok v, with_current s (Some (hd c l))).
Proof.
  intros I. destruct (Inv_lookup _ _ c I (or_introl eq_refl)) as [nd Hnd].
  destruct (ring_head_links _ _ _ (inv_ring _ _ I)) as [[Hn _] _].
  unfold nxt in Hn. rewrite Hnd in Hn. injection Hn as Hn.
  exists (value nd). split; [unfold vl; rewrite Hnd; reflexivity|].
  pose proof (inv_cur _ _ I) as Hc.
  unfold rs_next, requireCurrent. unfold_m. rewrite Hc. unfold_m.
  rewrite Hnd. simpl. rewrite Hn. reflexivity.
Qed.

Lemma rs_next_Inv s c l :
  Inv s (c :: l) -> Inv (snd (rs_next s)) (l ++ [c]).
Proof.
  intros I. destruct (rs_next_step _ _ _ I) as (v & _ & E). rewrite E. simpl.
  apply (Inv_rot s [c] l) in I. simpl in I.
  replace (head (l ++ [c])) with (Some (hd c l)) in I by (destruct l; reflexivity).
  exact I.
Qed.

(** next(), peek() and getFurthestItem(k) on an empty set. *)
Lemma rs_next_empty s : current s = None -> rs_next s = (Throw EmptyCollection, s).
Proof. intros H. unfold rs_next, requireCurrent. unfold_m. rewrite H. reflexivity. Qed.

Lemma peek_empty s : current s = None -> peek s = (Throw EmptyCollection, s).
Proof. intros H. unfold peek, requireCurrent. unfold_m. rewrite H. reflexivity. Qed.

Lemma getFurthestItem_empty s (i : jsnum) :
  current s = None -> getFurthestItem i s = (Throw EmptyCollection, s).
Proof.
  intros H. unfold getFurthestItem, requireCurrent. unfold_m. rewrite H. reflexivity.
Qed.

Lemma peek_step s c l :
  Inv s (c :: l) -> exists v, vl (heap s) c = Some v /\ peek s = (Ok v, s).
Proof.
  intros I. destruct (Inv_lookup _ _ c I (or_introl eq_refl)) as [nd Hnd].
  exists (value nd). split; [unfold vl; rewrite Hnd; reflexivity|].
  pose proof (inv_cur _ _ I) as Hc.
  unfold peek, requireCurrent. unfold_m. rewrite Hc. unfold_m.
  rewrite Hnd. reflexivity.
Qed.

(** ** Reading the ring *)
Fixpoint ring_values h (ps : list ptr) : option (list A) :=
  match ps with
  | [] => Some []
  | p :: ps' => match vl h p, ring_values h ps' with
                | Some v, Some vs => Some (v :: vs)
                | _, _ => None
                end
  end.

Lemma ring_values_app h l1 l2 :
  ring_values h (l1 ++ l2) =
  match ring_values h l1, ring_values h l2 with
  | Some vs1, Some vs2 => Some (vs1 ++ vs2)
  | _, _ => None
  end.
Proof.
  induction l1 as [|p l1 IH]; simpl.
  - destruct (ring_values h l2); reflexivity.
  - rewrite IH. destruct (vl h p), (ring_values h l1), (ring_values h l2);
      reflexivity.
Qed.

Lemma ring_values_frame h h' l :
  (forall r, In r l -> vl h' r = vl h r) -> ring_values h' l = ring_values h l.
Proof.
  induction l as [|p l IH]; simpl; intros Hv; [reflexivity|].
  rewrite Hv by auto. rewrite IH by auto. reflexivity.
Qed.

Lemma ring_values_Some h l :
  (forall r, In r l -> exists nd, h !! r = Some nd) ->
  exists vs, ring_values h l = Some vs /\ length vs = length l.
Proof.
  induction l as [|p l IH]; simpl; intros Hl; [eauto|].
  destruct (Hl p (or_introl eq_refl)) as [nd E].
  destruct IH as (vs & Evs & Hlen); [intros r Hr; apply Hl; auto|].
  unfold vl. rewrite E, Evs. simpl. exists (value nd :: vs). simpl. auto.
Qed.

Lemma collect_S h p n :
  collect h p (S n) =
  match h !! p with
  | Some nd => match collect h (next nd) n with
               | Some vs => Some (value nd :: vs) | None => None end
  | None => None
  end.
Proof. reflexivity. Qed.

Lemma collect_chain h a l z :
  chain h a l z -> collect h a (S (length l)) = ring_values h (a :: l).
Proof.
  revert a. induction l as [|b l IH]; intros a Hc.
  - destruct Hc as [Hn _]. unfold nxt in Hn. simpl. unfold vl.
    destruct (h !! a) as [nd|]; [reflexivity|discriminate].
  - destruct Hc as [[Hn _] Hc]. unfold nxt in Hn.
    rewrite collect_S. change (length (b :: l)) with (S (length l)).
    cbn [ring_values]. unfold vl at 1.
    destruct (h !! a) as [nd|]; [|discriminate].
    injection Hn as Hb. rewrite Hb, (IH _ Hc). simpl.
    destruct (vl h b), (ring_values h l); reflexivity.
Qed.

(** toArray() lists the values of the ring from the cursor. *)
Lemma toArray_Inv s ps :
  Inv s ps -> exists vs, ring_values (heap s) ps = Some vs /\
    length vs = size s /\ toArray s = (Ok vs, s).
Proof.
  intros I.
  destruct (ring_values_Some (heap s) ps) as (vs & Evs & Hlen).
  { intros r Hr. apply (Inv_lookup _ _ _ I Hr). }
  exists vs. split; [exact Evs|]. split; [rewrite Hlen; apply (inv_len _ _ I)|].
  pose proof (inv_cur _ _ I) as Hc.
  unfold toArray. unfold_m. rewrite Hc.
  destruct ps as [|c l].
  - simpl in Evs. injection Evs as <-. reflexivity.
  - rewrite <- (inv_len _ _ I). change (length (c :: l)) with (S (length l)).
    change (head (c :: l)) with (Some c). cbn iota. rewrite (collect_chain _ _ _ _ (inv_ring _ _ I)). rewrite Evs. reflexivity.
Qed.

(** The loop of cycle(): [length l2] calls of next() from the head of
    [l2 ++ l1] read the values of [l2] and leave the cursor on the head of
    [l1 ++ l2]. *)
Lemma cycle_n_spec s l1 l2 vs2 :
  Inv s (l1 ++ l2) -> ring_values (heap s) l2 = Some vs2 ->
  cycle_n (length l2) (with_current s (head (l2 ++ l1))) =
  (Ok vs2, with_current s (head (l1 ++ l2))).
Proof.
  revert l1 vs2. induction l2 as [|y l2 IH]; intros l1 vs2 I Hv.
  - simpl in Hv. injection Hv as <-. rewrite app_nil_r. reflexivity.
  - simpl in Hv. destruct (vl (heap s) y) as [v|] eqn:Ey; [|discriminate].
    destruct (ring_values (heap s) l2) as [vs|] eqn:Evs; [|discriminate].
    injection Hv as <-.
    pose proof (Inv_rot _ _ _ I) as I'. simpl in I'.
    destruct (rs_next_step _ _ _ I') as (v' & Ev' & E). simpl in Ev'.
    rewrite Ey in Ev'. injection Ev' as <-.
    cbn [cycle_n length]. change (head ((y :: l2) ++ l1)) with (Some y).
    unfold bind at 1. rewrite E.
    assert (I2 : Inv s ((l1 ++ [y]) ++ l2)) by (rewrite <- app_assoc; exact I).
    unfold with_current at 1. simpl.
    replace (Some (hd y (l2 ++ l1))) with (head (l2 ++ l1 ++ [y]))
      by (destruct l2; [destruct l1|]; reflexivity).
    change (mkRS (head (l2 ++ l1 ++ [y])) (insertionHead s) (nodes s) (size s)
              (heap s)) with (with_current s (head (l2 ++ (l1 ++ [y])))).
    unfold bind. rewrite (IH _ _ I2 eq_refl). unfold ret.
    rewrite <- app_assoc. reflexivity.
Qed.

Lemma with_current_self s : with_current s (current s) = s.
Proof. destruct s; reflexivity. Qed.

(** cycle(), fully consumed, returns toArray() and restores the state. *)
Lemma cycle_Inv s ps vs :
  Inv s ps -> ring_values (heap s) ps = Some vs -> cycle s = (Ok vs, s).
Proof.
  intros I Hv. unfold cycle. unfold_m.
  rewrite <- (inv_len _ _ I).
  pose proof (cycle_n_spec s [] ps vs I Hv) as E. simpl in E.
  rewrite app_nil_r, <- (inv_cur _ _ I), with_current_self in E. exact E.
Qed.

(** clear() *)
Lemma clear_Inv s : Inv (snd (clear s)) [].
Proof.
  unfold clear. unfold_m. split; simpl; try tauto; try reflexivity; constructor.
Qed.

(** ** getFurthestItem *)

(** With a non-zero size, the offset of getFurthestItem is the floored
    modulo of the truncated index. *)
Lemma js_offset_mod (i : Z) n : n <> 0 -> js_offset i n = Z.modulo i (Z.of_nat n).
Proof.
  intros Hn. unfold js_offset.
  assert (Hz : (0 < Z.of_nat n)%Z) by lia.
  destruct (Z.eqb_spec (Z.of_nat n) 0) as [E|_]; [lia|].
  set (z := Z.of_nat n) in *.
  pose proof (Z.rem_bound_abs i z ltac:(lia)) as Hb.
  rewrite (Z.abs_eq z) in Hb by lia.
  pose proof (Z.quot_rem' i z) as Eq.
  rewrite Z.rem_mod_nonneg by lia.
  replace (Z.rem i z + z)%Z with (Z.rem i z + 1 * z)%Z by lia.
  rewrite Z_mod_plus_full.
  rewrite <- (Z_mod_plus_full (Z.rem i z) (Z.quot i z) z).
  f_equal. lia.
Qed.

Lemma chain_nth h a l z (m : nat) (u w : ptr) :
  chain h a l z -> nth_error (a :: l) m = Some u ->
  nth_error (l ++ [z]) m = Some w -> linked h u w.
Proof.
  revert a m. induction l as [|b l IH]; intros a m Hc Hu Hw.
  - destruct m as [|m]; simpl in *.
    + congruence.
    + destruct m; discriminate.
  - destruct Hc as [L Hc]. destruct m as [|m]; simpl in *.
    + congruence.
    + exact (IH b m Hc Hu Hw).
Qed.

Lemma ring_prev_nth h ps (m : nat) p nd :
  ring h ps -> nth_error ps (S m) = Some p -> h !! p = Some nd ->
  nth_error ps m = Some (prev nd).
Proof.
  intros Hr Hp Hnd. destruct ps as [|c l]; [discriminate|]. simpl in Hp, Hr.
  assert (Hm : m < length l) by (apply nth_error_Some; congruence).
  destruct (nth_error (c :: l) m) as [u|] eqn:Eu.
  - assert (Hw : nth_error (l ++ [c]) m = Some p)
      by (rewrite nth_error_app1 by exact Hm; exact Hp).
    destruct (chain_nth _ _ _ _ _ _ _ Hr Eu Hw) as [_ Hpv].
    unfold prv in Hpv. rewrite Hnd in Hpv. simpl in Hpv. congruence.
  - apply nth_error_None in Eu. simpl in Eu. lia.
Qed.

Lemma nth_last (c : ptr) l : nth_error (c :: l) (length l) = Some (List.last l c).
Proof.
  revert c. induction l as [|b l IH]; intros c; [reflexivity|].
  simpl length. change (nth_error (b :: l) (length l) = Some (List.last (b :: l) c)).
  rewrite IH, last_cons_default. reflexivity.
Qed.

(** The loop [target = target.prev], [j] times, from position [i + j]. *)
Lemma walk_prev_m_nth s ps i j p :
  Inv s ps -> nth_error ps (i + j) = Some p ->
  exists t, nth_error ps i = Some t /\ walk_prev_m p j s = (Ok t, s).
Proof.
  intros I. revert p. induction j as [|j IH]; intros p Hp.
  - rewrite Nat.add_0_r in Hp. exists p. auto.
  - destruct (Inv_lookup _ _ p I) as [nd Hnd].
    { apply nth_error_In with (i + S j). exact Hp. }
    rewrite Nat.add_succ_r in Hp.
    pose proof (ring_prev_nth _ _ _ _ _ (inv_ring _ _ I) Hp Hnd) as Hpv.
    destruct (IH _ Hpv) as (t & Ht & E). exists t. split; [exact Ht|].
    cbn [walk_prev_m]. unfold bind, read. rewrite Hnd. exact E.
Qed.

Lemma walk_prev_m_state p n s : exists r, walk_prev_m p n s = (r, s).
Proof.
  revert p. induction n as [|n IH]; intros p; [eexists; reflexivity|].
  cbn [walk_prev_m]. unfold bind, read.
  destruct (heap s !! p) as [nd|]; [apply IH|eexists; reflexivity].
Qed.

Lemma ring_values_nth h ps vs i t :
  ring_values h ps = Some vs -> nth_error ps i = Some t ->
  exists v, vl h t = Some v /\ nth_error vs i = Some v.
Proof.
  revert vs i. induction ps as [|p ps IH]; intros vs i Hv Ht;
    [destruct i; discriminate|].
  simpl in Hv. destruct (vl h p) as [v|] eqn:Ep; [|discriminate].
  destruct (ring_values h ps) as [vs'|] eqn:Evs; [|discriminate].
  injection Hv as <-. destruct i as [|i]; simpl in Ht.
  - injection Ht as <-. exists v. auto.
  - exact (IH _ _ eq_refl Ht).
Qed.

(** getFurthestItem(k) for a finite [k] on a non-empty set: the node
    [length l - off] of the ring [c :: l] from the cursor, where [off] is
    the floored modulo of the truncated [k]. *)
Lemma getFurthestItem_spec s c l (k : Q) :
  Inv s (c :: l) ->
  let off := Z.to_nat (Z.modulo (trunc k) (Z.of_nat (size s))) in
  off < size s /\
  exists t v, nth_error (c :: l) (length l - off) = Some t /\
    vl (heap s) t = Some v /\ getFurthestItem (JFin k) s = (Ok v, s).
Proof.
  intros I off.
  pose proof (inv_len _ _ I) as Hlen. simpl in Hlen.
  assert (Hoff : off < size s).
  { unfold off. pose proof (Z.mod_pos_bound (trunc k) (Z.of_nat (size s))) as B.
    lia. }
  split; [exact Hoff|].
  destruct (Inv_lookup _ _ c I (or_introl eq_refl)) as [nd Hnd].
  destruct (ring_head_links _ _ _ (inv_ring _ _ I)) as [_ [_ Hpv]].
  unfold prv in Hpv. rewrite Hnd in Hpv. injection Hpv as Hpv.
  assert (Hp : nth_error (c :: l) ((length l - off) + off) = Some (prev nd)).
  { replace (length l - off + off) with (length l) by lia.
    rewrite Hpv. apply nth_last. }
  destruct (walk_prev_m_nth _ _ _ _ _ I Hp) as (t & Ht & Ew).
  destruct (Inv_lookup _ _ t I) as [nt Hnt]; [apply nth_error_In in Ht; exact Ht|].
  exists t, (value nt). split; [exact Ht|]. split; [unfold vl; rewrite Hnt; reflexivity|].
  pose proof (inv_cur _ _ I) as Hc.
  unfold getFurthestItem, requireCurrent. unfold_m. rewrite Hc. unfold_m.
  rewrite Hnd. simpl.
  rewrite js_offset_mod by lia. fold off. rewrite Ew. unfold_m. rewrite Hnt.
  reflexivity.
Qed.

(** getFurthestItem(k) for a non-finite [k] on a non-empty set. *)
Lemma getFurthestItem_nonfinite s (i : jsnum) :
  current s <> None -> (forall q, i <> JFin q) ->
  getFurthestItem i s = (Throw InvalidOffset, s).
Proof.
  intros Hc Hi. unfold getFurthestItem, requireCurrent. unfold_m.
  destruct (current s) as [c|]; [|congruence]. unfold_m.
  destruct i as [| | |q]; try reflexivity. exfalso. exact (Hi q eq_refl).
Qed.

(** The answer of getFurthestItem(k) only depends on the offset. *)
Lemma getFurthestItem_offset s (k1 k2 : Q) :
  js_offset (trunc k1) (size s) = js_offset (trunc k2) (size s) ->
  getFurthestItem (JFin k1) s = getFurthestItem (JFin k2) s.
Proof.
  intros E. unfold getFurthestItem, requireCurrent. unfold_m.
  destruct (current s); [|reflexivity]. unfold_m. rewrite E. reflexivity.
Qed.

(** ** Adding an item twice *)
Lemma map_has_set m k p : map_has (map_set m k p) k = true.
Proof.
  unfold map_has. induction m as [|[k' p'] m IH]; simpl.
  - rewrite decide_True by reflexivity. reflexivity.
  - case_decide; simpl.
    + rewrite decide_True by assumption. reflexivity.
    + rewrite decide_False by assumption. exact IH.
Qed.

Lemma bind_get {Y} (f : RS A -> M Y) s : bind get f s = f s s.
Proof. reflexivity. Qed.

Lemma bind_ok {X Y} (m : M X) (f : X -> M Y) s a s1 :
  m s = (Ok a, s1) -> bind m f s = f a s1.
Proof. intros E. unfold bind. rewrite E. reflexivity. Qed.

Lemma alloc_ok v s :
  alloc v s = (Ok (fresh (dom (heap s))),
               mkRS (current s) (insertionHead s) (nodes s) (size s)
                 (<[fresh (dom (heap s)) := mkNode v (fresh (dom (heap s)))
                                              (fresh (dom (heap s)))]> (heap s))).
Proof. reflexivity. Qed.

(** The common tail of addToFurthest and addToNext registers the item. *)
Lemma register_has (m : M unit) x q s u s' :
  bind m (fun _ => bind get (fun s2 =>
    bind (set_nodes (map_set (nodes s2) x q)) (fun _ => set_size (size s2 + 1)))) s
  = (Ok u, s') -> map_has (nodes s') x = true.
Proof.
  unfold bind, get, set_nodes, set_size.
  destruct (m s) as [[v|e] s1]; [|discriminate].
  intros [= _ <-]. simpl. apply map_has_set.
Qed.

Lemma addToFurthest_has s x u s' :
  addToFurthest x s = (Ok u, s') -> map_has (nodes s') x = true.
Proof.
  unfold addToFurthest. rewrite bind_get.
  destruct (map_has (nodes s) x) eqn:Eh; [intros [= _ <-]; exact Eh|].
  rewrite (bind_ok _ _ _ _ _ (alloc_ok x s)), bind_get. apply register_has.
Qed.

Lemma addToNext_has s x u s' :
  addToNext x s = (Ok u, s') -> map_has (nodes s') x = true.
Proof.
  unfold addToNext. rewrite bind_get.
  destruct (map_has (nodes s) x) eqn:Eh; [intros [= _ <-]; exact Eh|].
  rewrite (bind_ok _ _ _ _ _ (alloc_ok x s)), bind_get. apply register_has.
Qed.

(** ** Operations that only read the state *)
Lemma peek_state s : snd (peek s) = s.
Proof.
  unfold peek, requireCurrent. unfold_m.
  destruct (current s) as [c|]; [|reflexivity]. unfold_m.
  destruct (heap s !! c); reflexivity.
Qed.

Lemma has_state s x : snd (has x s) = s.
Proof. reflexivity. Qed.

Lemma toSet_state s : snd (toSet s) = s.
Proof. reflexivity. Qed.

Lemma toArray_state s : snd (toArray s) = s.
Proof.
  unfold toArray. unfold_m. destruct (current s) as [c|]; [|reflexivity].
  destruct (collect (heap s) c (size s)); reflexivity.
Qed.

Lemma getFurthestItem_state s (i : jsnum) : snd (getFurthestItem i s) = s.
Proof.
  unfold getFurthestItem, requireCurrent. unfold_m.
  destruct (current s) as [c|]; [|reflexivity]. unfold_m.
  destruct i as [| | |k]; try reflexivity. unfold_m.
  destruct (heap s !! c) as [nd|]; [|reflexivity]. simpl.
  destruct (walk_prev_m_state (prev nd) (Z.to_nat (js_offset (trunc k) (size s))) s)
    as [r E].
  rewrite E. destruct r as [t|e]; [|reflexivity]. unfold_m.
  destruct (heap s !! t); reflexivity.
Qed.

(** ** The invariant along every operation *)
Lemma Inv_empty_set : Inv (@empty A) [].
Proof. split; simpl; try tauto; try reflexivity; constructor. Qed.

Lemma add_all_Inv (items : list A) s ps :
  Inv s ps -> exists ps', Inv (snd (add_all items s)) ps'.
Proof.
  revert s ps. induction items as [|x items IH]; intros s ps I; [eauto|].
  destruct (addToFurthest_Inv _ _ x I) as [E [ps' I']].
  cbn [add_all]. unfold bind at 1.
  destruct (addToFurthest x s) as [r s'] eqn:Ea. simpl in E. subst r.
  apply (IH _ _ I').
Qed.

Lemma construct_inv (items : list A) : inv (snd (construct items)).
Proof.
  destruct (add_all_Inv items _ _ Inv_empty_set) as [ps I].
  apply (Inv_inv _ _ I).
Qed.

Lemma rs_next_Inv_any s ps : Inv s ps -> exists ps', Inv (snd (rs_next s)) ps'.
Proof.
  intros I. destruct ps as [|c l].
  - rewrite rs_next_empty by apply (inv_cur _ _ I). eauto.
  - eexists. apply (rs_next_Inv _ _ _ I).
Qed.

Lemma cycle_state s ps : Inv s ps -> snd (cycle s) = s.
Proof.
  intros I. destruct (toArray_Inv _ _ I) as (vs & Hv & _).
  rewrite (cycle_Inv _ _ _ I Hv). reflexivity.
Qed.

(** ** Values along pieces of the ring *)
Lemma ring_values_length h l vs : ring_values h l = Some vs -> length vs = length l.
Proof.
  revert vs. induction l as [|p l IH]; simpl; intros vs E.
  - injection E as <-. reflexivity.
  - destruct (vl h p); [|discriminate]. destruct (ring_values h l) as [vs'|];
      [|discriminate]. injection E as <-. simpl. rewrite (IH _ eq_refl). reflexivity.
Qed.

Lemma ring_values_split h l1 p l2 vs :
  ring_values h (l1 ++ p :: l2) = Some vs ->
  exists vs1 v vs2, vs = vs1 ++ v :: vs2 /\ ring_values h l1 = Some vs1 /\
    vl h p = Some v /\ ring_values h l2 = Some vs2.
Proof.
  rewrite ring_values_app. simpl.
  destruct (ring_values h l1) as [vs1|]; [|discriminate].
  destruct (vl h p) as [v|]; [|discriminate].
  destruct (ring_values h l2) as [vs2|]; [|discriminate].
  intros E. injection E as <-. eauto 10.
Qed.

Lemma ring_values_except h h' q l :
  (forall r, r <> q -> vl h' r = vl h r) -> ~ In q l ->
  ring_values h' l = ring_values h l.
Proof.
  intros Hv Hq. apply ring_values_frame. intros r Hr. apply Hv.
  intros ->. exact (Hq Hr).
Qed.

Lemma map_get_delete m k x :
  map_get m x = None -> map_get (map_delete m k) x = None.
Proof.
  rewrite !map_get_None. intros Hn Hin. apply Hn.
  apply in_map_iff in Hin as ([k' p] & E & Hin). simpl in E. subst k'.
  apply In_map_delete in Hin as [Hin _]. apply (in_map fst) in Hin. exact Hin.
Qed.

Lemma map_get_delete_self m k : map_get (map_delete m k) k = None.
Proof.
  apply map_get_None. intros Hin.
  apply in_map_iff in Hin as ([k' p] & E & Hin). simpl in E. subst k'.
  apply In_map_delete in Hin as [_ Hk]. exact (Hk eq_refl).
Qed.

Lemma ring_values_snoc h l q vs v :
  ring_values h l = Some vs -> vl h q = Some v ->
  ring_values h (l ++ [q]) = Some (vs ++ [v]).
Proof.
  intros E Ev. rewrite ring_values_app, E. simpl. rewrite Ev. reflexivity.
Qed.

Lemma ring_values_mid h l1 q l2 vs1 v vs2 :
  ring_values h l1 = Some vs1 -> vl h q = Some v -> ring_values h l2 = Some vs2 ->
  ring_values h (l1 ++ q :: l2) = Some (vs1 ++ v :: vs2).
Proof.
  intros E1 Ev E2. rewrite ring_values_app, E1. simpl. rewrite Ev, E2. reflexivity.
Qed.

Lemma js_offset_zero n : js_offset 0 n = 0%Z.
Proof.
  unfold js_offset. destruct (Z.eqb_spec (Z.of_nat n) 0) as [_|Hn]; [reflexivity|].
  rewrite Z.rem_0_l by exact Hn. simpl. apply Z.rem_same. exact Hn.
Qed.

(** getFurthestItem() with its default index 0 reads [cursor.prev]. *)
Lemma getFurthestItem_zero s c nd np :
  current s = Some c -> heap s !! c = Some nd -> heap s !! prev nd = Some np ->
  getFurthestItem (JFin 0%Q) s = (Ok (value np), s).
Proof.
  intros Hc Hn Hp. unfold getFurthestItem, requireCurrent. unfold_m.
  rewrite Hc. unfold_m. rewrite Hn.
  change (trunc 0%Q) with 0%Z. rewrite js_offset_zero. simpl.
  unfold_m. rewrite Hp. reflexivity.
Qed.

End Exec.

(** * Reference lists used by the statements *)
Section Lists.
Context {A : Type} `{EqDecision A}.

(** The items of a list in the order of their first occurrence, after the
    ones of [seen]. *)
Fixpoint first_occurrences_from (seen l : list A) : list A :=
  match l with
  | [] => seen
  | x :: l' =>
      if decide (x ∈ seen) then first_occurrences_from seen l'
      else first_occurrences_from (seen ++ [x]) l'
  end.

Definition first_occurrences (l : list A) : list A := first_occurrences_from [] l.

End Lists.

(** * The earlier variants of the class in the same file *)

(** [index % n] for a number [index] and the size [n]: NaN ([None]) for NaN
    and the infinities and for [n = 0]; [q - n * trunc(q / n)] for a finite
    [q] (the remainder with the sign of the dividend). *)
Definition js_rem_num (index : jsnum) (n : nat) : option Q :=
  if Nat.eqb n 0 then None else
  match index with
  | JFin q =>
      let d := inject_Z (Z.of_nat n) in
      Some (q - d * inject_Z (trunc (q / d)))%Q
  | _ => None
  end.

(** [((index % n) + n) % n]; NaN stays NaN. *)
Definition js_offset_num (index : jsnum) (n : nat) : option Q :=
  match js_rem_num index n with
  | Some r => js_rem_num (JFin (r + inject_Z (Z.of_nat n))%Q) n
  | None => None
  end.

(** The number of rounds of [for (let i = 0; i < offset; i += 1)]: the
    naturals below [offset], none when [offset] is NaN. *)
Definition loop_rounds (off : option Q) : nat :=
  match off with
  | Some q => Z.to_nat (Qceiling q)
  | None => 0
  end.

(** ** The first variant (lines 20-186): no insertion anchor; add() links
    the new node just before the cursor, and getFurthestItem(index) neither
    rejects non-finite indexes nor truncates them. *)
Module V1.
Section V1.
Context {A : Type} `{EqDecision A}.

(** The fields [current], [nodes], [_size] and the heap of ring nodes. *)
Record RS := mkRS {
  current : option ptr;
  nodes : list (A * ptr);
  size : nat;
  heap : gmap ptr (RingNode A)
}.

Definition M (X : Type) := RS -> res X * RS.

Definition ret {X} (x : X) : M X := fun s => (Ok x, s).
Definition bind {X Y} (m : M X) (f : X -> M Y) : M Y :=
  fun s => match m s with
           | (Ok x, s') => f x s'
           | (Throw e, s') => (Throw e, s')
           end.
Definition throw {X} (e : err) : M X := fun s => (Throw e, s).
Definition get : M RS := fun s => (Ok s, s).

Local Notation "x <- m ;; k" := (bind m (fun x => k))
  (at level 100, m at next level, right associativity).
Local Notation "m ;;; k" := (bind m (fun _ => k))
  (at level 100, right associativity).

Definition set_current (c : option ptr) : M unit :=
  fun s => (Ok tt, mkRS c (nodes s) (size s) (heap s)).
Definition set_nodes (m : list (A * ptr)) : M unit :=
  fun s => (Ok tt, mkRS (current s) m (size s) (heap s)).
Definition set_size (n : nat) : M unit :=
  fun s => (Ok tt, mkRS (current s) (nodes s) n (heap s)).

Definition read (p : ptr) : M (RingNode A) :=
  fun s => match heap s !! p with
           | Some nd => (Ok nd, s)
           | None => (Throw Dangling, s)
           end.

Definition upd_heap (h : gmap ptr (RingNode A)) : M unit :=
  fun s => (Ok tt, mkRS (current s) (nodes s) (size s) h).

Definition write_next (p q : ptr) : M unit :=
  nd <- read p;;
  s <- get;;
  upd_heap (<[p := mkNode (value nd) q (prev nd)]> (heap s)).
Definition write_prev (p q : ptr) : M unit :=
  nd <- read p;;
  s <- get;;
  upd_heap (<[p := mkNode (value nd) (next nd) q]> (heap s)).

Definition alloc (v : A) : M ptr :=
  s <- get;;
  let p := fresh (dom (heap s)) in
  upd_heap (<[p := mkNode v p p]> (heap s));;;
  ret p.

(** private requireCurrent() *)
Definition requireCurrent : M ptr :=
  s <- get;;
  match current s with Some c => ret c | None => throw EmptyCollection end.

(** next() *)
Definition rs_next : M A :=
  c <- requireCurrent;;
  nd <- read c;;
  set_current (Some (next nd));;;
  ret (value nd).

(** peek() *)
Definition peek : M A :=
  c <- requireCurrent;;
  nd <- read c;;
  ret (value nd).

(** add(item): [const tail = this.current.prev; node.next = this.current;
    node.prev = tail; tail.next = node; this.current.prev = node]. *)
Definition add (item : A) : M unit :=
  s <- get;;
  if map_has (nodes s) item then ret tt else
  q <- alloc item;;
  s1 <- get;;
  match current s1 with
  | None => set_current (Some q)
  | Some c =>
      cn <- read c;;
      let tail := prev cn in
      write_next q c;;;
      write_prev q tail;;;
      write_next tail q;;;
      write_prev c q
  end;;;
  s2 <- get;;
  set_nodes (map_set (nodes s2) item q);;;
  set_size (size s2 + 1).

(** delete(item): the cursor moves to [node.next], read after the
    splice. *)
Definition delete (item : A) : M bool :=
  s <- get;;
  match map_get (nodes s) item with
  | None => ret false
  | Some p =>
      set_nodes (map_delete (nodes s) item);;;
      if Nat.eqb (size s) 1 then
        set_current None;;; set_size 0;;; ret true
      else
        nd1 <- read p;;
        write_next (prev nd1) (next nd1);;;
        nd2 <- read p;;
        write_prev (next nd2) (prev nd2);;;
        s1 <- get;;
        (if decide (current s1 = Some p) then
           nd3 <- read p;; set_current (Some (next nd3))
         else ret tt);;;
        s3 <- get;;
        set_size (size s3 - 1);;;
        ret true
  end.

(** [for (i = 0; i < offset; i++) target = target.prev] *)
Fixpoint walk_prev_m (p : ptr) (n : nat) : M ptr :=
  match n with
  | O => ret p
  | S n' => nd <- read p;; walk_prev_m (prev nd) n'
  end.

(** getFurthestItem(index = 0) *)
Definition getFurthestItem (index : jsnum) : M A :=
  c <- requireCurrent;;
  s <- get;;
  let off := js_offset_num index (size s) in
  nd <- read c;;
  t <- walk_prev_m (prev nd) (loop_rounds off);;
  tn <- read t;;
  ret (value tn).

(** has(item) *)
Definition has (item : A) : M bool :=
  s <- get;; ret (map_has (nodes s) item).

(** clear() *)
Definition clear : M unit :=
  set_current None;;; set_nodes [];;; set_size 0.

(** toArray() *)
Definition toArray : M (list A) :=
  s <- get;;
  match current s with
  | None => ret []
  | Some c => match collect (heap s) c (size s) with
              | Some vs => ret vs
              | None => throw Dangling
              end
  end.

(** toSet() *)
Definition toSet : M (list A) :=
  s <- get;; ret (map fst (nodes s)).

(** [get size()] *)
Definition get_size : M nat :=
  s <- get;; ret (size s).

Definition empty : RS := mkRS None [] 0 ∅.

(** constructor(items): [for (const item of items) this.add(item)] *)
Fixpoint add_all (items : list A) : M unit :=
  match items with
  | [] => ret tt
  | x :: xs => add x;;; add_all xs
  end.

Definition construct (items : list A) : res unit * RS := add_all items empty.

End V1.
End V1.

(** ** The second variant (lines 207-386).  Its fields, next(), peek(),
    add(), delete(), has(), clear(), toArray(), toSet(), the iterator,
    cycle() and requireCurrent() are the same code as the first
    variant's; it adds [length], addItem(), removeItem(), builds the set
    with addItem(), and has a getFurthestItem() without index. *)
Module V2.
Section V2.
Context {A : Type} `{EqDecision A}.

Local Notation "x <- m ;; k" := (V1.bind m (fun x => k))
  (at level 100, m at next level, right associativity).
Local Notation "m ;;; k" := (V1.bind m (fun _ => k))
  (at level 100, right associativity).

(** [get length()]: [return this._size]. *)
Definition length : @V1.M A nat := V1.get_size.

(** addItem(item): [if (this.nodes.has(item)) return false; this.add(item);
    return true;] *)
Definition addItem (item : A) : V1.M bool :=
  s <- V1.get;;
  if map_has (V1.nodes s) item then V1.ret false else
  V1.add item;;; V1.ret true.

(** removeItem(item): [return this.delete(item)]. *)
Definition removeItem (item : A) : V1.M bool := V1.delete item.

(** getFurthestItem(): [return this.requireCurrent().prev.value]. *)
Definition getFurthestItem : @V1.M A A :=
  c <- V1.requireCurrent;;
  nd <- V1.read c;;
  pn <- V1.read (prev nd);;
  V1.ret (value pn).

(** constructor(items): [for (const item of items) this.addItem(item)] *)
Fixpoint add_all (items : list A) : V1.M unit :=
  match items with
  | [] => V1.ret tt
  | x :: xs => addItem x;;; add_all xs
  end.

Definition construct (items : list A) : res unit * V1.RS := add_all items V1.empty.

End V2.
End V2.

(** The state of the final class that the first variant's state stands
    for: the insertion anchor on the cursor.  [down] forgets the anchor. *)
Definition up {A} (s : @V1.RS A) : RS A :=
  mkRS (V1.current s) (V1.current s) (V1.nodes s) (V1.size s) (V1.heap s).
Definition down {A} (s : RS A) : @V1.RS A :=
  V1.mkRS (current s) (nodes s) (size s) (heap s).

(** A run of a method of the final class seen from the first variant. *)
Definition lift {A X} (r : res X * RS A) : res X * @V1.RS A := (fst r, down (snd r)).

(** The invariant of the first variant: the final class's one with the
    anchor on the cursor. *)
Definition inv1 {A} (s : @V1.RS A) : Prop := inv (up s).

(** * The properties of the specification *)
Section Claims.
Context {A : Type} `{EqDecision A}.
Implicit Types (s : RS A) (x y : A).

(** An operation keeps the state invariant [inv]. *)
Definition preserves {X : Type} (m : @M A X) : Prop :=
  forall s, inv s -> inv (snd (m s)).

(** C1: on a state satisfying the invariant, addToFurthest(x) of an absent
    item [x] allocates a fresh node [q] holding [x]; when the set is
    non-empty, [q] is linked immediately before the insertionHead (anchor)
    node [a] ([prev(a) -> q -> a]), the cursor and the anchor are unchanged;
    when the set is empty, [q] becomes both cursor and anchor. On the set
    built from A, B, C, after one next(), addToFurthest("D") gives
    toArray() = [B; C; D; A]. *)
Theorem addToFurthest_before_anchor s x :
  inv s -> map_has (nodes s) x = false ->
  (let q := fresh (dom (heap s)) in
   match insertionHead s with
   | Some a => exists na h', heap s !! a = Some na /\
       addToFurthest x s =
         (Ok tt, mkRS (current s) (Some a) (nodes s ++ [(x, q)]) (size s + 1) h') /\
       vl h' q = Some x /\ linked h' (prev na) q /\ linked h' q a
   | None =>
       addToFurthest x s =
         (Ok tt, mkRS (Some q) (Some q) (nodes s ++ [(x, q)]) (size s + 1)
                   (<[q := mkNode x q q]> (heap s)))
   end) /\
  fst (toArray (snd (addToFurthest "D"
         (snd (rs_next (snd (construct ["A"; "B"; "C"]%string)))))))
  = Ok ["B"; "C"; "D"; "A"]%string.
Proof.
  intros Hinv Hx. split; [|vm_compute; reflexivity].
  destruct (inv_Inv _ Hinv) as [ps I]. apply map_has_get in Hx.
  pose proof (addToFurthest_new _ _ _ I Hx) as Hn. cbv zeta in Hn |- *.
  destruct (insertionHead s) as [a|].
  - destruct Hn as (na & h' & _ & (Ha & Hvq & _ & L1 & L2 & _) & E).
    exists na, h'. auto.
  - destruct Hn as [_ E]. exact E.
Qed.

(** C2: on a state satisfying the invariant, addToNext(x) of an absent item
    [x] on a non-empty set links a fresh node [q] holding [x] immediately
    before the cursor node [c] ([prev(c) -> q -> c]), makes [q] the cursor
    and keeps the insertionHead; then peek() and next() return [x] and the
    following next() returns the value the cursor had before. On an empty set
    it is addToFurthest(x). On the set {1, 2, 3} after one next(),
    addToNext(99) gives peek() = 99, then next() = 99, then next() = 2. *)
Theorem addToNext_before_cursor s x :
  inv s -> map_has (nodes s) x = false ->
  (let q := fresh (dom (heap s)) in
   match current s with
   | Some c => exists nc h', heap s !! c = Some nc /\
       addToNext x s =
         (Ok tt, mkRS (Some q) (insertionHead s) (nodes s ++ [(x, q)])
                   (size s + 1) h') /\
       vl h' q = Some x /\ linked h' (prev nc) q /\ linked h' q c /\
       (let s' := snd (addToNext x s) in
        peek s' = (Ok x, s') /\ fst (rs_next s') = Ok x /\
        fst (rs_next (snd (rs_next s'))) = fst (peek s))
   | None => addToNext x s = addToFurthest x s
   end) /\
  (let s1 := snd (addToNext 99 (snd (rs_next (snd (construct [1; 2; 3]))))) in
   fst (peek s1) = Ok 99 /\ fst (rs_next s1) = Ok 99 /\
   fst (rs_next (snd (rs_next s1))) = Ok 2).
Proof.
  intros Hinv Hx. split; [|vm_compute; auto].
  destruct (inv_Inv _ Hinv) as [ps I]. apply map_has_get in Hx.
  pose proof (addToNext_new _ _ _ I Hx) as Hn. cbv zeta in Hn |- *.
  pose proof (inv_cur _ _ I) as Hc.
  destruct (current s) as [c|] eqn:Ec.
  - destruct Hn as (nc & h' & _ & (Hc' & Hvq & _ & L1 & L2 & _) & E).
    exists nc, h'. split; [exact Hc'|]. split; [exact E|].
    split; [exact Hvq|]. split; [exact L2|]. split; [exact L1|].
    destruct ps as [|c0 l]; [discriminate|]. injection Hc as <-.
    destruct (addToNext_Inv_at _ _ _ _ I Hx) as (q & Hq & _ & Hvq' & Hvr & _ & I').
    destruct (peek_step _ _ _ I') as (v & Ev & Ep). rewrite Hvq' in Ev.
    injection Ev as <-. split; [exact Ep|].
    destruct (rs_next_step _ _ _ I') as (v & Ev & En). rewrite Hvq' in Ev.
    injection Ev as <-. rewrite En. split; [reflexivity|].
    pose proof (rs_next_Inv _ _ _ I') as I2. rewrite En in I2. simpl in I2.
    destruct (rs_next_step _ _ _ I2) as (v & Ev & En2). cbn [snd hd]. rewrite En2. simpl.
    destruct (peek_step _ _ _ I) as (v0 & Ev0 & Ep0). rewrite Ep0. simpl.
    simpl in Ev. rewrite Hvr in Ev by (intros ->; apply Hq; left; reflexivity).
    congruence.
  - destruct Hn as [-> E]. rewrite E.
    pose proof (addToFurthest_new _ _ _ I Hx) as Hf. cbv zeta in Hf.
    pose proof (inv_anc _ _ I) as Ha. simpl in Ha. rewrite Ha in Hf.
    destruct Hf as [_ Ef]. rewrite Ef. reflexivity.
Qed.

(** C3: on a state satisfying the invariant, delete(x) of an absent item
    returns false and leaves the state unchanged. delete(x) of a present
    item returns true, removes [x] from the Map and decrements the size;
    the sole item leaves cursor and insertionHead null; otherwise, with [p]
    the node of [x], [prev(p)] and [next(p)] are linked together, and the
    cursor and the insertionHead move to [next(p)] when they were [p]. The
    values of toArray() lose [x] and keep their order. *)
Theorem delete_unlinks s x :
  inv s ->
  (map_has (nodes s) x = false -> delete x s = (Ok false, s)) /\
  (map_has (nodes s) x = true ->
   let s' := snd (delete x s) in
   fst (delete x s) = Ok true /\
   nodes s' = map_delete (nodes s) x /\ map_has (nodes s') x = false /\
   size s' = size s - 1 /\
   (size s = 1 -> current s' = None /\ insertionHead s' = None) /\
   (size s <> 1 -> exists p nd,
      map_get (nodes s) x = Some p /\ heap s !! p = Some nd /\
      linked (heap s') (prev nd) (next nd) /\
      current s' = (if decide (current s = Some p) then Some (next nd)
                    else current s) /\
      insertionHead s' = (if decide (insertionHead s = Some p) then Some (next nd)
                          else insertionHead s)) /\
   exists vs1 vs2, toArray s = (Ok (vs1 ++ x :: vs2), s) /\
     toArray s' = (Ok (vs1 ++ vs2), s')).
Proof.
  intros Hinv. destruct (inv_Inv _ Hinv) as [ps I]. split.
  - intros Hx. apply delete_absent. apply map_has_get. exact Hx.
  - intros Hx s'.
    destruct (map_get (nodes s) x) as [p|] eqn:Eg;
      [|unfold map_has in Hx; rewrite Eg in Hx; discriminate].
    assert (Hxp : In (x, p) (nodes s)) by (apply map_get_In; exact Eg).
    assert (Hin : In p ps).
    { apply (inv_dom _ _ I). apply (in_map snd) in Hxp. exact Hxp. }
    apply in_split in Hin as (l1 & l2 & ->).
    destruct (toArray_Inv _ _ I) as (vs & Hvs & _ & Ht).
    destruct (ring_values_split _ _ _ _ _ Hvs) as (vs1 & v & vs2 & -> & H1 & Hv & H2).
    rewrite (inv_vals _ _ I _ _ Hxp) in Hv. injection Hv as <-.
    destruct (Nat.eq_dec (size s) 1) as [E1|E1].
    + pose proof (delete_Inv_sole _ _ _ _ I Eg E1) as I'. fold s' in I'.
      pose proof (delete_sole _ _ _ Eg E1) as Ed.
      assert (Es' : s' = mkRS None None (map_delete (nodes s) x) 0 (heap s))
        by (unfold s'; rewrite Ed; reflexivity).
      rewrite Ed. simpl. split; [reflexivity|]. rewrite Es'. simpl.
      split; [reflexivity|]. split; [unfold map_has; rewrite map_get_delete_self; reflexivity|].
      split; [lia|]. split; [auto|]. split; [intros; lia|].
      exists vs1, vs2. split; [exact Ht|].
      pose proof (inv_len _ _ I) as Hlen. rewrite length_app in Hlen. simpl in Hlen.
      destruct l1; [|simpl in Hlen; lia]. destruct l2; [|simpl in Hlen; lia].
      simpl in H1, H2. injection H1 as <-. injection H2 as <-.
      rewrite <- Es'. destruct (toArray_Inv _ _ I') as (vs' & Hv' & _ & Ht').
      simpl in Hv'. injection Hv' as <-. exact Ht'.
    + destruct (delete_many _ _ _ _ I Eg E1)
        as (nd & Hnd & _ & _ & _ & h' & Ed & L & _ & _ & _).
      destruct (delete_Inv_many _ _ _ _ _ I Eg E1)
        as (nd' & Hnd' & _ & _ & Hnodes & Hsize & Hvl & _ & _ & I').
      rewrite Hnd in Hnd'. injection Hnd' as <-. fold s' in Hnodes, Hsize, Hvl, I'.
      assert (Es' : s' = mkRS (if decide (current s = Some p) then Some (next nd)
                               else current s)
                              (if decide (insertionHead s = Some p)
                               then Some (next nd) else insertionHead s)
                              (map_delete (nodes s) x) (size s - 1) h')
        by (unfold s'; rewrite Ed; reflexivity).
      rewrite Ed. simpl. split; [reflexivity|].
      split; [exact Hnodes|].
      split; [rewrite Hnodes; unfold map_has; rewrite map_get_delete_self; reflexivity|].
      split; [exact Hsize|]. split; [intros; lia|].
      split.
      * intros _. exists p, nd. rewrite Es'. simpl. auto.
      * exists vs1, vs2. split; [exact Ht|].
        destruct (toArray_Inv _ _ I') as (vs' & Hv' & _ & Ht'). rewrite Ht'.
        rewrite (ring_values_frame (heap s) (heap s')) in Hv' by (intros; apply Hvl).
        rewrite ring_values_app, H1, H2 in Hv'. injection Hv' as <-. reflexivity.
Qed.

(** C4 (amended): on a state satisfying the invariant with at least two
    items, where [y] is the item held by the insertionHead (anchor) node,
    delete(y) followed by addToFurthest(x) of an absent item [x] puts [x]
    exactly in the place [y] had: if toArray() was [vs1 ++ y :: vs2] before,
    it is [vs1 ++ x :: vs2] afterwards, or [vs2 ++ [x]] when [y] was the
    cursor's item ([vs1] empty). So [x] lands immediately before the deleted
    anchor's former successor, not immediately after it. *)
Theorem addToFurthest_after_anchor_delete s x y vs :
  inv s -> 2 <= size s -> map_get (nodes s) y = insertionHead s ->
  map_has (nodes s) x = false -> fst (toArray s) = Ok vs ->
  exists vs1 vs2, vs = vs1 ++ y :: vs2 /\
    fst (toArray (snd (addToFurthest x (snd (delete y s))))) =
      Ok (match vs1 with [] => vs2 ++ [x] | _ => vs1 ++ x :: vs2 end).
Proof.
  intros Hinv Hge Hy Hx Hvs. destruct (inv_Inv _ Hinv) as [ps I].
  apply map_has_get in Hx.
  pose proof (inv_anc _ _ I) as Ha.
  destruct ps as [|c0 ps0]; [pose proof (inv_len _ _ I); simpl in *; lia|].
  destruct Ha as (a & Ea & Hain). rewrite Ea in Hy.
  assert (Hya : In (y, a) (nodes s)) by (apply map_get_In; exact Hy).
  apply in_split in Hain as (l1 & l2 & Hps). rewrite Hps in I. clear Hps c0 ps0.
  destruct (toArray_Inv _ _ I) as (ws & Hws & _ & Ht).
  rewrite Ht in Hvs. simpl in Hvs. injection Hvs as <-.
  destruct (ring_values_split _ _ _ _ _ Hws) as (vs1 & v & vs2 & -> & H1 & Hv & H2).
  rewrite (inv_vals _ _ I _ _ Hya) in Hv. injection Hv as <-.
  exists vs1, vs2. split; [reflexivity|].
  assert (Hs1 : size s <> 1) by lia.
  pose proof (inv_len _ _ I) as Hlen. rewrite length_app in Hlen. simpl in Hlen.
  destruct (delete_Inv_many _ _ _ _ _ I Hy Hs1)
    as (nd & _ & Hnext & _ & Hnodes & _ & Hvl & _ & Hanc & I1).
  set (s1 := snd (delete y s)) in *.
  revert Hanc. case_decide; [intros Hanc|congruence].
  assert (Hx1 : map_get (nodes s1) x = None)
    by (rewrite Hnodes; apply map_get_delete; exact Hx).
  destruct l1 as [|c l1'].
  - destruct l2 as [|b l2']; [simpl in Hlen; lia|].
    simpl in Hnext. rewrite Hnext in Hanc.
    destruct (addToFurthest_Inv_at _ [] b l2' _ I1 Hanc Hx1)
      as (q & Hq & _ & Hqx & Hvq & I2).
    set (s2 := snd (addToFurthest x s1)) in *.
    assert (Hrv : forall l, ~ In q l -> ring_values (heap s2) l = ring_values (heap s) l).
    { intros l Hl. rewrite (ring_values_except (heap s1) (heap s2) q l Hvq Hl).
      apply ring_values_frame. intros r _. apply Hvl. }
    destruct (toArray_Inv _ _ I2) as (ws2 & Hws2 & _ & Ht2). rewrite Ht2. simpl.
    simpl in H1. injection H1 as <-.
    rewrite (ring_values_snoc _ (b :: l2') q vs2 x) in Hws2;
      [congruence| |exact Hqx].
    rewrite Hrv; [exact H2|exact Hq].
  - destruct l2 as [|b l2'].
    + rewrite app_nil_r in I1. simpl in Hnext. rewrite Hnext in Hanc.
      destruct (addToFurthest_Inv_at _ [] c l1' _ I1 Hanc Hx1)
        as (q & Hq & _ & Hqx & Hvq & I2).
      set (s2 := snd (addToFurthest x s1)) in *.
      assert (Hrv : forall l, ~ In q l -> ring_values (heap s2) l = ring_values (heap s) l).
      { intros l Hl. rewrite (ring_values_except (heap s1) (heap s2) q l Hvq Hl).
        apply ring_values_frame. intros r _. apply Hvl. }
      destruct (toArray_Inv _ _ I2) as (ws2 & Hws2 & _ & Ht2). rewrite Ht2. simpl.
      simpl in H2. injection H2 as <-.
      destruct vs1 as [|v1 vs1'];
        [apply ring_values_length in H1; simpl in H1; discriminate|].
      rewrite (ring_values_snoc _ (c :: l1') q (v1 :: vs1') x) in Hws2;
        [congruence| |exact Hqx].
      rewrite Hrv; [exact H1|exact Hq].
    + simpl in Hnext. rewrite Hnext in Hanc.
      destruct (addToFurthest_Inv_at _ (c :: l1') b l2' _ I1 Hanc Hx1)
        as (q & Hq & _ & Hqx & Hvq & I2).
      set (s2 := snd (addToFurthest x s1)) in *.
      assert (Hrv : forall l, ~ In q l -> ring_values (heap s2) l = ring_values (heap s) l).
      { intros l Hl. rewrite (ring_values_except (heap s1) (heap s2) q l Hvq Hl).
        apply ring_values_frame. intros r _. apply Hvl. }
      destruct (toArray_Inv _ _ I2) as (ws2 & Hws2 & _ & Ht2). rewrite Ht2. simpl.
      destruct vs1 as [|v1 vs1'];
        [apply ring_values_length in H1; simpl in H1; discriminate|].
      rewrite (ring_values_mid _ (c :: l1') q (b :: l2') (v1 :: vs1') x vs2) in Hws2.
      * congruence.
      * rewrite Hrv; [exact H1|]. intros Hin. apply Hq. apply in_app_iff. left. exact Hin.
      * exact Hqx.
      * rewrite Hrv; [exact H2|]. intros Hin. apply Hq. apply in_app_iff. right. exact Hin.
Qed.

(** C5: construction yields a state satisfying the invariant [inv], and
    every public method (addToFurthest, addToNext, add, delete, clear,
    next, peek, getFurthestItem, has, toArray, toSet, cycle) preserves it:
    size equals the number of Map entries and the number of nodes reached
    from the cursor along [next] in [size] steps back to the cursor, every
    registered node has [next.prev] and [prev.next] equal to itself, cursor
    and insertionHead are registered nodes when set, and [size = 0] iff the
    cursor is null iff insertionHead is null. *)
Theorem operations_preserve_inv :
  (forall items : list A, inv (snd (construct items))) /\
  (forall x, preserves (addToFurthest x)) /\
  (forall x, preserves (addToNext x)) /\
  (forall x, preserves (add x)) /\
  (forall x, preserves (delete x)) /\
  preserves clear /\ preserves rs_next /\ preserves peek /\
  (forall i, preserves (getFurthestItem i)) /\
  (forall x, preserves (has x)) /\
  preserves toArray /\ preserves toSet /\ preserves cycle.
Proof.
  split; [exact construct_inv|].
  repeat match goal with |- _ /\ _ => split end; unfold preserves; intros; try (rewrite ?peek_state, ?has_state,
    ?toSet_state, ?toArray_state, ?getFurthestItem_state; assumption);
    match goal with Hinv : inv ?s |- _ => destruct (inv_Inv _ Hinv) as [ps I] end.
  - destruct (addToFurthest_Inv _ _ x I) as [_ [ps' I']]. exact (Inv_inv _ _ I').
  - destruct (addToNext_Inv _ _ x I) as [_ [ps' I']]. exact (Inv_inv _ _ I').
  - destruct (addToFurthest_Inv _ _ x I) as [_ [ps' I']]. exact (Inv_inv _ _ I').
  - destruct (delete_Inv _ _ x I) as [ps' I']. exact (Inv_inv _ _ I').
  - exact (Inv_inv _ _ (clear_Inv s)).
  - destruct (rs_next_Inv_any _ _ I) as [ps' I']. exact (Inv_inv _ _ I').
  - rewrite (cycle_state _ _ I). assumption.
Qed.

(** C6: on a non-empty state satisfying the invariant, with [vs] the values
    of toArray() (from the cursor along [next], [length vs = size]), the
    offset of getFurthestItem(k) for a finite [k] is the floored modulo of
    Math.trunc(k) by [size], and getFurthestItem(k) returns the value
    [1 + offset] steps behind the cursor, that is [vs[size - 1 - offset]];
    with the default index 0 it returns the value of [cursor.prev]; on four
    items getFurthestItem(5) equals getFurthestItem(1); Math.trunc rounds
    toward zero ([trunc(-1.5) = -1], [trunc(3.5) = 3]). *)
Theorem getFurthestItem_behind_cursor s :
  inv s -> current s <> None ->
  (exists vs, toArray s = (Ok vs, s) /\ length vs = size s /\
    forall k : Q,
      js_offset (trunc k) (size s) = Z.modulo (trunc k) (Z.of_nat (size s)) /\
      exists v,
        nth_error vs (size s - 1 - Z.to_nat (Z.modulo (trunc k) (Z.of_nat (size s))))
          = Some v /\
        getFurthestItem (JFin k) s = (Ok v, s)) /\
  (exists c nd np, current s = Some c /\ heap s !! c = Some nd /\
     heap s !! prev nd = Some np /\
     getFurthestItem (JFin 0%Q) s = (Ok (value np), s)) /\
  (size s = 4 -> getFurthestItem (JFin (5 # 1)%Q) s = getFurthestItem (JFin (1 # 1)%Q) s) /\
  trunc (-3 # 2)%Q = (-1)%Z /\ trunc (7 # 2)%Q = 3%Z.
Proof.
  intros Hinv Hc. destruct (inv_Inv _ Hinv) as [ps I].
  pose proof (inv_cur _ _ I) as Ec. pose proof (inv_len _ _ I) as Hlen.
  destruct ps as [|c l]; [contradiction|]. simpl in Ec, Hlen.
  split; [|split; [|split; [|split; reflexivity]]].
  - destruct (toArray_Inv _ _ I) as (vs & Hvs & Hl & Ht).
    exists vs. split; [exact Ht|]. split; [exact Hl|]. intros k.
    split; [apply js_offset_mod; lia|].
    destruct (getFurthestItem_spec _ _ _ k I) as (Hoff & t & v & Hnt & Hv & Hg).
    destruct (ring_values_nth _ _ _ _ _ Hvs Hnt) as (v' & Hv' & Hn').
    rewrite Hv in Hv'. injection Hv' as <-.
    exists v. split; [|exact Hg].
    replace (size s - 1) with (length l) by lia. exact Hn'.
  - destruct (Inv_lookup _ _ c I (or_introl eq_refl)) as [nd Hnd].
    destruct (Inv_links _ _ _ _ I (or_introl eq_refl) Hnd) as (Hp & _).
    destruct (Inv_lookup _ _ _ I Hp) as [np Hnp].
    exists c, nd, np. split; [exact Ec|]. split; [exact Hnd|]. split; [exact Hnp|].
    apply (getFurthestItem_zero _ _ _ _ Ec Hnd Hnp).
  - intros H4. apply getFurthestItem_offset. rewrite H4. reflexivity.
Qed.

(** C7: on a state satisfying the invariant, next(), peek() and
    getFurthestItem(k) fail with EmptyCollection exactly when [size = 0];
    on a non-empty set getFurthestItem fails with InvalidOffset for NaN and
    the infinities; and every failure of these three leaves the state
    unchanged. *)
Theorem read_failures s :
  inv s ->
  (fst (rs_next s) = Throw EmptyCollection <-> size s = 0) /\
  (fst (peek s) = Throw EmptyCollection <-> size s = 0) /\
  (forall i, fst (getFurthestItem i s) = Throw EmptyCollection <-> size s = 0) /\
  (forall i, size s <> 0 -> (forall q, i <> JFin q) ->
     getFurthestItem i s = (Throw InvalidOffset, s)) /\
  (forall e, fst (rs_next s) = Throw e -> snd (rs_next s) = s) /\
  (forall e, fst (peek s) = Throw e -> snd (peek s) = s) /\
  (forall i e, fst (getFurthestItem i s) = Throw e -> snd (getFurthestItem i s) = s).
Proof.
  intros Hinv. destruct (inv_Inv _ Hinv) as [ps I].
  pose proof (inv_cur _ _ I) as Ec. pose proof (inv_len _ _ I) as Hlen.
  split; [|split; [|split; [|split; [|split; [|split]]]]];
    try (intros; rewrite ?peek_state, ?getFurthestItem_state; reflexivity).
  - destruct ps as [|c l].
    + rewrite rs_next_empty by exact Ec. simpl in *. split; [intros; lia|reflexivity].
    + destruct (rs_next_step _ _ _ I) as (v & _ & E). rewrite E. simpl in *.
      split; [discriminate|lia].
  - destruct ps as [|c l].
    + rewrite peek_empty by exact Ec. simpl in *. split; [intros; lia|reflexivity].
    + destruct (peek_step _ _ _ I) as (v & _ & E). rewrite E. simpl in *.
      split; [discriminate|lia].
  - intros i. destruct ps as [|c l].
    + rewrite getFurthestItem_empty by exact Ec. simpl in *. split; [intros; lia|reflexivity].
    + simpl in Hlen. split; [|lia]. destruct i as [| | |k];
        try (rewrite getFurthestItem_nonfinite by (simpl in Ec; congruence || discriminate);
             discriminate).
      destruct (getFurthestItem_spec _ _ _ k I) as (_ & t & v & _ & _ & E).
      rewrite E. discriminate.
  - intros i Hs Hi. apply getFurthestItem_nonfinite; [|exact Hi].
    destruct ps; simpl in *; [lia|rewrite Ec; discriminate].
  - intros e. destruct ps as [|c l].
    + rewrite rs_next_empty by exact Ec. reflexivity.
    + destruct (rs_next_step _ _ _ I) as (v & _ & E). rewrite E. discriminate.
Qed.

(** C8: on a state satisfying the invariant, fully consuming cycle(), which
    reads [size] once and calls next() that many times, returns exactly
    [size] values, the values of toArray() in the same order, and brings
    the cursor back to where it was, so peek() is unchanged. *)
Theorem cycle_matches_toArray s :
  inv s ->
  exists vs, toArray s = (Ok vs, s) /\ length vs = size s /\
    cycle s = (Ok vs, s) /\ current (snd (cycle s)) = current s /\
    peek (snd (cycle s)) = peek s.
Proof.
  intros Hinv. destruct (inv_Inv _ Hinv) as [ps I].
  destruct (toArray_Inv _ _ I) as (vs & Hvs & Hl & Ht).
  exists vs. rewrite (cycle_Inv _ _ _ I Hvs). auto.
Qed.

(** C9: for every state, addToFurthest(x) run twice in a row has the same
    result and final state as once, and so does addToNext(x); add,
    addToFurthest and addToNext of a present item return without changing
    the state. *)
Theorem add_twice_noop :
  (forall s x, bind (addToFurthest x) (fun _ => addToFurthest x) s = addToFurthest x s) /\
  (forall s x, bind (addToNext x) (fun _ => addToNext x) s = addToNext x s) /\
  (forall s x, map_has (nodes s) x = true ->
     add x s = (Ok tt, s) /\ addToFurthest x s = (Ok tt, s) /\
     addToNext x s = (Ok tt, s)).
Proof.
  split; [|split].
  - intros s x. unfold bind at 1.
    destruct (addToFurthest x s) as [[u|e] s'] eqn:E; [|reflexivity].
    rewrite addToFurthest_present by exact (addToFurthest_has _ _ _ _ E).
    destruct u. reflexivity.
  - intros s x. unfold bind at 1.
    destruct (addToNext x s) as [[u|e] s'] eqn:E; [|reflexivity].
    rewrite addToNext_present by exact (addToNext_has _ _ _ _ E).
    destruct u. reflexivity.
  - intros s x H. unfold add. rewrite addToFurthest_present, addToNext_present by exact H.
    auto.
Qed.

(** C10: on a state satisfying the invariant, getFurthestItem(i) on an
    empty set fails with EmptyCollection for every index, NaN and the
    infinities included; an InvalidOffset failure only happens on a
    non-empty set. *)
Theorem getFurthestItem_empty_before_offset s :
  inv s ->
  (size s = 0 -> forall i, getFurthestItem i s = (Throw EmptyCollection, s)) /\
  (forall i, fst (getFurthestItem i s) = Throw InvalidOffset -> size s <> 0).
Proof.
  intros Hinv. destruct (inv_Inv _ Hinv) as [ps I].
  pose proof (inv_cur _ _ I) as Ec. pose proof (inv_len _ _ I) as Hlen.
  destruct ps as [|c l]; simpl in Ec, Hlen.
  - split; [intros _ i; apply getFurthestItem_empty; exact Ec|].
    intros i. rewrite getFurthestItem_empty by exact Ec. discriminate.
  - split; [intros; lia|]. intros; lia.
Qed.

End Claims.

(** * Instances on concrete sets *)

(** The set built from [1; 2; 3]: cursor and insertionHead on 1. *)
Local Abbreviation sample := (snd (construct [1; 2; 3]%nat)).

Lemma sample_inv : inv sample.
Proof. apply construct_inv. Qed.

Lemma sample_next_inv : inv (snd (rs_next sample)).
Proof.
  destruct (inv_Inv _ sample_inv) as [ps I].
  destruct (rs_next_Inv_any _ _ I) as [ps' I']. exact (Inv_inv _ _ I').
Qed.

Lemma addToFurthest_before_anchor_witness :
  inv sample /\ map_has (nodes sample) 4 = false /\
  (let q := fresh (dom (heap sample)) in
   match insertionHead sample with
   | Some a => exists na h', heap sample !! a = Some na /\
       addToFurthest 4 sample =
         (Ok tt, mkRS (current sample) (Some a) (nodes sample ++ [(4, q)])
                   (size sample + 1) h') /\
       vl h' q = Some 4 /\ linked h' (prev na) q /\ linked h' q a
   | None =>
       addToFurthest 4 sample =
         (Ok tt, mkRS (Some q) (Some q) (nodes sample ++ [(4, q)]) (size sample + 1)
                   (<[q := mkNode 4 q q]> (heap sample)))
   end) /\
  fst (toArray (snd (addToFurthest "D"
         (snd (rs_next (snd (construct ["A"; "B"; "C"]%string)))))))
  = Ok ["B"; "C"; "D"; "A"]%string.
Proof.
  split; [exact sample_inv|]. split; [vm_compute; reflexivity|].
  apply (addToFurthest_before_anchor sample 4); [exact sample_inv|vm_compute; reflexivity].
Defined.

Lemma addToNext_before_cursor_witness :
  inv sample /\ map_has (nodes sample) 4 = false /\
  (let q := fresh (dom (heap sample)) in
   match current sample with
   | Some c => exists nc h', heap sample !! c = Some nc /\
       addToNext 4 sample =
         (Ok tt, mkRS (Some q) (insertionHead sample) (nodes sample ++ [(4, q)])
                   (size sample + 1) h') /\
       vl h' q = Some 4 /\ linked h' (prev nc) q /\ linked h' q c /\
       (let s' := snd (addToNext 4 sample) in
        peek s' = (Ok 4, s') /\ fst (rs_next s') = Ok 4 /\
        fst (rs_next (snd (rs_next s'))) = fst (peek sample))
   | None => addToNext 4 sample = addToFurthest 4 sample
   end) /\
  (let s1 := snd (addToNext 99 (snd (rs_next (snd (construct [1; 2; 3]))))) in
   fst (peek s1) = Ok 99 /\ fst (rs_next s1) = Ok 99 /\
   fst (rs_next (snd (rs_next s1))) = Ok 2).
Proof.
  split; [exact sample_inv|]. split; [vm_compute; reflexivity|].
  apply (addToNext_before_cursor sample 4); [exact sample_inv|vm_compute; reflexivity].
Defined.

Lemma delete_unlinks_witness :
  inv sample /\
  (map_has (nodes sample) 2 = false -> delete 2 sample = (Ok false, sample)) /\
  (map_has (nodes sample) 2 = true ->
   let s' := snd (delete 2 sample) in
   fst (delete 2 sample) = Ok true /\
   nodes s' = map_delete (nodes sample) 2 /\ map_has (nodes s') 2 = false /\
   size s' = size sample - 1 /\
   (size sample = 1 -> current s' = None /\ insertionHead s' = None) /\
   (size sample <> 1 -> exists p nd,
      map_get (nodes sample) 2 = Some p /\ heap sample !! p = Some nd /\
      linked (heap s') (prev nd) (next nd) /\
      current s' = (if decide (current sample = Some p) then Some (next nd)
                    else current sample) /\
      insertionHead s' = (if decide (insertionHead sample = Some p)
                          then Some (next nd) else insertionHead sample)) /\
   exists vs1 vs2, toArray sample = (Ok (vs1 ++ 2 :: vs2), sample) /\
     toArray s' = (Ok (vs1 ++ vs2), s')).
Proof.
  split; [exact sample_inv|]. apply (delete_unlinks sample 2). exact sample_inv.
Defined.

Lemma addToFurthest_after_anchor_delete_witness :
  inv (snd (rs_next sample)) /\ 2 <= size (snd (rs_next sample)) /\
  map_get (nodes (snd (rs_next sample))) 1 = insertionHead (snd (rs_next sample)) /\
  map_has (nodes (snd (rs_next sample))) 4 = false /\
  fst (toArray (snd (rs_next sample))) = Ok [2; 3; 1] /\
  exists vs1 vs2, [2; 3; 1] = vs1 ++ 1 :: vs2 /\
    fst (toArray (snd (addToFurthest 4 (snd (delete 1 (snd (rs_next sample))))))) =
      Ok (match vs1 with [] => vs2 ++ [4] | _ => vs1 ++ 4 :: vs2 end).
Proof.
  split; [exact sample_next_inv|].
  split; [vm_compute; lia|].
  split; [vm_compute; reflexivity|].
  split; [vm_compute; reflexivity|].
  split; [vm_compute; reflexivity|].
  apply (addToFurthest_after_anchor_delete (snd (rs_next sample)) 4 1 [2; 3; 1]);
    [exact sample_next_inv|vm_compute; lia|vm_compute; reflexivity
    |vm_compute; reflexivity|vm_compute; reflexivity].
Defined.

(** On the set built from [1; 2; 3] (cursor and insertionHead both on 1),
    deleting the anchor's item 1 moves the anchor to its successor 2, and
    the following addToFurthest(4) puts 4 right before 2, at the end of
    toArray() = [2; 3; 4]; it does not land right after 2. *)
Lemma addToFurthest_after_anchor_delete_counterexample :
  inv sample /\ 2 <= size sample /\
  map_get (nodes sample) 1 = insertionHead sample /\
  map_has (nodes sample) 4 = false /\
  fst (toArray sample) = Ok [1; 2; 3] /\
  fst (peek (snd (delete 1 sample))) = Ok 2 /\
  fst (toArray (snd (addToFurthest 4 (snd (delete 1 sample))))) = Ok [2; 3; 4] /\
  fst (toArray (snd (addToFurthest 4 (snd (delete 1 sample))))) <> Ok [2; 4; 3].
Proof.
  split; [exact sample_inv|].
  repeat split; vm_compute; try reflexivity; try lia; discriminate.
Qed.

Lemma getFurthestItem_behind_cursor_witness :
  inv sample /\ current sample <> None /\
  (exists vs, toArray sample = (Ok vs, sample) /\ length vs = size sample /\
    forall k : Q,
      js_offset (trunc k) (size sample) = Z.modulo (trunc k) (Z.of_nat (size sample)) /\
      exists v,
        nth_error vs (size sample - 1
                      - Z.to_nat (Z.modulo (trunc k) (Z.of_nat (size sample))))
          = Some v /\
        getFurthestItem (JFin k) sample = (Ok v, sample)) /\
  (exists c nd np, current sample = Some c /\ heap sample !! c = Some nd /\
     heap sample !! prev nd = Some np /\
     getFurthestItem (JFin 0%Q) sample = (Ok (value np), sample)) /\
  (size sample = 4 ->
   getFurthestItem (JFin (5 # 1)%Q) sample = getFurthestItem (JFin (1 # 1)%Q) sample) /\
  trunc (-3 # 2)%Q = (-1)%Z /\ trunc (7 # 2)%Q = 3%Z.
Proof.
  split; [exact sample_inv|]. split; [vm_compute; discriminate|].
  apply getFurthestItem_behind_cursor; [exact sample_inv|vm_compute; discriminate].
Defined.

Lemma read_failures_witness :
  inv sample /\
  (fst (rs_next sample) = Throw EmptyCollection <-> size sample = 0) /\
  (fst (peek sample) = Throw EmptyCollection <-> size sample = 0) /\
  (forall i, fst (getFurthestItem i sample) = Throw EmptyCollection <-> size sample = 0) /\
  (forall i, size sample <> 0 -> (forall q, i <> JFin q) ->
     getFurthestItem i sample = (Throw InvalidOffset, sample)) /\
  (forall e, fst (rs_next sample) = Throw e -> snd (rs_next sample) = sample) /\
  (forall e, fst (peek sample) = Throw e -> snd (peek sample) = sample) /\
  (forall i e, fst (getFurthestItem i sample) = Throw e ->
     snd (getFurthestItem i sample) = sample).
Proof.
  split; [exact sample_inv|]. apply read_failures. exact sample_inv.
Defined.

Lemma cycle_matches_toArray_witness :
  inv sample /\
  exists vs, toArray sample = (Ok vs, sample) /\ length vs = size sample /\
    cycle sample = (Ok vs, sample) /\ current (snd (cycle sample)) = current sample /\
    peek (snd (cycle sample)) = peek sample.
Proof.
  split; [exact sample_inv|]. apply cycle_matches_toArray. exact sample_inv.
Defined.

Lemma getFurthestItem_empty_before_offset_witness :
  inv (@empty nat) /\
  (size (@empty nat) = 0 ->
   forall i, getFurthestItem i (@empty nat) = (Throw EmptyCollection, @empty nat)) /\
  (forall i, fst (getFurthestItem i (@empty nat)) = Throw InvalidOffset ->
   size (@empty nat) <> 0).
Proof.
  assert (H : inv (@empty nat)) by exact (Inv_inv _ _ Inv_empty_set).
  split; [exact H|]. apply getFurthestItem_empty_before_offset. exact H.
Defined.

(** * Further properties of the final RotatableSet *)
Section Extras.
Context {A : Type} `{EqDecision A}.
Implicit Types (s : RS A) (x y : A).

Local Ltac unfold_m :=
  cbv beta iota zeta delta [bind ret get throw read upd_heap write_next
    write_prev set_current set_insertionHead set_nodes set_size with_heap];
  simpl.

Lemma map_has_elem (m : list (A * ptr)) k : map_has m k = true <-> k ∈ map fst m.
Proof.
  rewrite list_elem_of_In. unfold map_has.
  destruct (map_get m k) eqn:E.
  - split; [intros _|reflexivity]. apply map_get_In in E.
    apply (in_map fst) in E. exact E.
  - apply map_get_None in E. split; [discriminate|tauto].
Qed.

Lemma map_get_snoc (m : list (A * ptr)) k q y :
  map_get (m ++ [(k, q)]) y =
  match map_get m y with Some p => Some p | None => if decide (y = k) then Some q else None end.
Proof.
  induction m as [|[k' p'] m IH]; simpl; [reflexivity|].
  destruct (decide (y = k')); [reflexivity|]. exact IH.
Qed.

Lemma map_has_snoc (m : list (A * ptr)) k q y :
  map_has (m ++ [(k, q)]) y = (bool_decide (y = k) || map_has m y)%bool.
Proof.
  unfold map_has. rewrite map_get_snoc.
  destruct (map_get m y); simpl; case_bool_decide; repeat case_decide; simpl;
    congruence.
Qed.

Lemma map_get_delete_ne (m : list (A * ptr)) k y :
  y <> k -> map_get (map_delete m k) y = map_get m y.
Proof.
  intros Hy. unfold map_delete. induction m as [|[k' p'] m IH]; [reflexivity|].
  rewrite filter_cons. simpl.
  destruct (decide (k' <> k)) as [Hk|Hk].
  - simpl. destruct (decide (y = k')); [reflexivity|]. exact IH.
  - apply dec_stable in Hk. subst k'. destruct (decide (y = k)); [contradiction|].
    exact IH.
Qed.

Lemma map_has_delete (m : list (A * ptr)) k y :
  map_has (map_delete m k) y = (bool_decide (y <> k) && map_has m y)%bool.
Proof.
  destruct (decide (y = k)) as [->|Hy].
  - rewrite bool_decide_false by tauto. unfold map_has.
    rewrite map_get_delete_self. reflexivity.
  - rewrite bool_decide_true by exact Hy. unfold map_has.
    rewrite map_get_delete_ne by exact Hy. reflexivity.
Qed.

Lemma map_delete_snoc (m : list (A * ptr)) k q :
  ~ In k (map fst m) -> map_delete (m ++ [(k, q)]) k = m.
Proof.
  intros Hk. unfold map_delete. rewrite filter_app.
  fold (map_delete m k). rewrite map_delete_absent by exact Hk.
  rewrite filter_cons. simpl. case_decide as E; [congruence|].
  rewrite filter_nil, app_nil_r. reflexivity.
Qed.

(** One addToFurthest on a state whose anchor is its cursor. *)
Lemma addToFurthest_append s ps acc x :
  Inv s ps -> insertionHead s = current s ->
  ring_values (heap s) ps = Some acc -> map fst (nodes s) = acc ->
  let s' := snd (addToFurthest x s) in
  let acc' := if decide (x ∈ acc) then acc else acc ++ [x] in
  exists ps', fst (addToFurthest x s) = Ok tt /\ Inv s' ps' /\
    insertionHead s' = current s' /\
    ring_values (heap s') ps' = Some acc' /\ map fst (nodes s') = acc'.
Proof.
  intros I Ha Hv Hk s' acc'. unfold acc'.
  case_decide as Hx.
  - assert (Hh : map_has (nodes s) x = true) by (apply map_has_elem; rewrite Hk; exact Hx).
    unfold s'. rewrite addToFurthest_present by exact Hh. simpl.
    exists ps. auto.
  - assert (Hg : map_get (nodes s) x = None).
    { apply map_get_None. rewrite Hk. rewrite <- list_elem_of_In. exact Hx. }
    pose proof (addToFurthest_new _ _ _ I Hg) as Hn. cbv zeta in Hn.
    pose proof (inv_cur _ _ I) as Hc.
    destruct ps as [|b l].
    + simpl in Hc. rewrite Ha, Hc in Hn. destruct Hn as [_ E].
      unfold s'. rewrite E. simpl. exists [fresh (dom (heap s))].
      simpl in Hv. injection Hv as <-.
      split; [reflexivity|]. split; [apply (Inv_first _ _ I Hg)|].
      split; [reflexivity|]. split.
      * cbn [ring_values]. unfold vl. rewrite lookup_insert_eq. reflexivity.
      * rewrite map_app, Hk. reflexivity.
    + simpl in Hc. rewrite Ha, Hc in Hn.
      destruct Hn as (na & h' & _ & Hlb & E).
      rewrite Hc in Ha.
      destruct (addToFurthest_Inv_at s [] b l x I Ha Hg)
        as (q & Hq & _ & Hqx & Hvq & I').
      fold s' in Hqx, Hvq, I'. exists (b :: l ++ [q]).
      split; [unfold s'; rewrite E; reflexivity|]. split; [exact I'|].
      assert (Es : s' = mkRS (Some b) (Some b) (nodes s ++ [(x, fresh (dom (heap s)))])
                        (size s + 1) h') by (unfold s'; rewrite E; reflexivity).
      split; [rewrite Es; reflexivity|]. split.
      * change (b :: l ++ [q]) with ((b :: l) ++ [q]).
        apply ring_values_snoc; [|exact Hqx].
        rewrite (ring_values_except (heap s) (heap s') q); [exact Hv|exact Hvq|exact Hq].
      * rewrite Es. simpl. rewrite map_app, Hk. reflexivity.
Qed.

Lemma add_all_append items s ps acc :
  Inv s ps -> insertionHead s = current s ->
  ring_values (heap s) ps = Some acc -> map fst (nodes s) = acc ->
  let s' := snd (add_all items s) in
  exists ps', fst (add_all items s) = Ok tt /\ Inv s' ps' /\
    insertionHead s' = current s' /\
    ring_values (heap s') ps' = Some (first_occurrences_from acc items) /\
    map fst (nodes s') = first_occurrences_from acc items.
Proof.
  revert s ps acc. induction items as [|x items IH]; intros s ps acc I Ha Hv Hk s'.
  - exists ps. auto.
  - destruct (addToFurthest_append s ps acc x I Ha Hv Hk)
      as (ps1 & E1 & I1 & Ha1 & Hv1 & Hk1).
    destruct (addToFurthest x s) as [r s1] eqn:Ea. simpl in E1. subst r.
    simpl in I1, Ha1, Hv1, Hk1.
    assert (E : add_all (x :: items) s = add_all items s1)
      by (cbn [add_all]; unfold bind; rewrite Ea; reflexivity).
    unfold s'. rewrite E.
    destruct (IH _ _ _ I1 Ha1 Hv1 Hk1) as (ps2 & R). exists ps2.
    cbn [first_occurrences_from]. destruct (decide (x ∈ acc)); exact R.
Qed.

Lemma addToFurthest_fresh_at s l1 b l2 x :
  Inv s (l1 ++ b :: l2) -> insertionHead s = Some b ->
  map_get (nodes s) x = None ->
  let q := fresh (dom (heap s)) in
  let s1 := snd (addToFurthest x s) in
  ~ In q (l1 ++ b :: l2) /\ fst (addToFurthest x s) = Ok tt /\
  current s1 = current s /\ insertionHead s1 = Some b /\
  nodes s1 = nodes s ++ [(x, q)] /\ size s1 = size s + 1 /\
  vl (heap s1) q = Some x /\
  (forall r, r <> q -> vl (heap s1) r = vl (heap s) r) /\
  Inv s1 (match l1 with [] => b :: l2 ++ [q] | _ => l1 ++ q :: b :: l2 end).
Proof.
  intros I Hb Hx. cbv zeta.
  pose proof (addToFurthest_new _ _ _ I Hx) as Hn. simpl in Hn.
  rewrite Hb in Hn. destruct Hn as (na & h' & Hin & Hlb & E).
  set (q := fresh (dom (heap s))) in *.
  assert (Hq : ~ In q (l1 ++ b :: l2)) by apply (Inv_fresh _ _ I).
  rewrite E. simpl. split; [exact Hq|]. split; [reflexivity|].
  do 4 (split; [reflexivity|]).
  pose proof Hlb as (_ & Hvq & Hvr & _).
  split; [exact Hvq|]. split; [exact Hvr|].
  pose proof (ring_insert_at _ _ _ _ _ _ _ _ (inv_ring _ _ I) (inv_nodup _ _ I)
                Hq Hlb) as R.
  pose proof (inv_cur _ _ I) as Hc.
  apply (Inv_insert s _ _ x h' _ _ I Hx Hvq Hvr).
  - destruct l1 as [|c l1].
    + simpl. rewrite app_comm_cons. symmetry. apply Permutation_cons_append.
    + symmetry. apply (Permutation_middle (c :: l1) (b :: l2) q).
  - destruct l1 as [|c l1]; [|exact R].
    apply (ring_rot h' q (b :: l2)) in R. exact R.
  - rewrite Hc. destruct l1; reflexivity.
  - exists b. split; [reflexivity|]. destruct l1 as [|c l1]; simpl; [auto|].
    right. apply in_or_app. right. simpl. auto.
Qed.

Lemma addToNext_fresh_at s c l x :
  Inv s (c :: l) -> map_get (nodes s) x = None ->
  let q := fresh (dom (heap s)) in
  let s1 := snd (addToNext x s) in
  ~ In q (c :: l) /\ fst (addToNext x s) = Ok tt /\
  current s1 = Some q /\ insertionHead s1 = insertionHead s /\
  nodes s1 = nodes s ++ [(x, q)] /\ size s1 = size s + 1 /\
  vl (heap s1) q = Some x /\
  (forall r, r <> q -> vl (heap s1) r = vl (heap s) r) /\
  Inv s1 (q :: c :: l).
Proof.
  intros I Hx. cbv zeta.
  pose proof (addToNext_new _ _ _ I Hx) as Hn. simpl in Hn.
  pose proof (inv_cur _ _ I) as Hc. simpl in Hc. rewrite Hc in Hn.
  destruct Hn as (nc & h' & Hin & Hlb & E).
  set (q := fresh (dom (heap s))) in *.
  assert (Hq : ~ In q (c :: l)) by apply (Inv_fresh _ _ I).
  rewrite E. simpl. split; [exact Hq|]. split; [reflexivity|].
  do 4 (split; [reflexivity|]).
  pose proof Hlb as (_ & Hvq & Hvr & _).
  split; [exact Hvq|]. split; [exact Hvr|].
  pose proof (ring_insert_at _ _ [] _ _ _ _ _ (inv_ring _ _ I) (inv_nodup _ _ I)
                Hq Hlb) as R.
  pose proof (inv_anc _ _ I) as Ha. simpl in Ha.
  destruct Ha as (a & Ea & Hain).
  apply (Inv_insert s _ _ x h' _ _ I Hx Hvq Hvr).
  - reflexivity.
  - exact R.
  - reflexivity.
  - exists a. split; [exact Ea|]. right. exact Hain.
Qed.

Lemma addToFurthest_nodes s ps x :
  Inv s ps ->
  nodes (snd (addToFurthest x s)) =
  if map_has (nodes s) x then nodes s
  else nodes s ++ [(x, fresh (dom (heap s)))].
Proof.
  intros I. destruct (map_has (nodes s) x) eqn:Hx.
  - rewrite addToFurthest_present by exact Hx. reflexivity.
  - apply map_has_get in Hx.
    pose proof (addToFurthest_new _ _ _ I Hx) as Hn. simpl in Hn.
    destruct (insertionHead s).
    + destruct Hn as (na & h' & _ & _ & E). rewrite E. reflexivity.
    + destruct Hn as (_ & E). rewrite E. reflexivity.
Qed.

Lemma addToNext_nodes s ps x :
  Inv s ps ->
  nodes (snd (addToNext x s)) =
  if map_has (nodes s) x then nodes s
  else nodes s ++ [(x, fresh (dom (heap s)))].
Proof.
  intros I. destruct (map_has (nodes s) x) eqn:Hx.
  - rewrite addToNext_present by exact Hx. reflexivity.
  - apply map_has_get in Hx.
    pose proof (addToNext_new _ _ _ I Hx) as Hn. simpl in Hn.
    destruct (current s).
    + destruct Hn as (na & h' & _ & _ & E). rewrite E. reflexivity.
    + destruct Hn as (_ & E). rewrite E. reflexivity.
Qed.

Lemma delete_nodes s ps x :
  Inv s ps -> nodes (snd (delete x s)) = map_delete (nodes s) x.
Proof.
  intros I. destruct (map_get (nodes s) x) as [p|] eqn:Eg.
  - destruct (decide (size s = 1)) as [E1|E1].
    + rewrite (delete_sole _ _ _ Eg E1). reflexivity.
    + destruct (delete_many _ _ _ _ I Eg E1)
        as (nd & _ & _ & _ & _ & h' & E & _).
      rewrite E. reflexivity.
  - rewrite delete_absent by exact Eg. symmetry.
    apply map_delete_absent. apply map_get_None. exact Eg.
Qed.

Lemma iterate_n_cycle_n n : (iterate_n n : @M A (list A)) = cycle_n n.
Proof. induction n as [|n IH]; [reflexivity|]. simpl. rewrite IH. reflexivity. Qed.

Lemma cycle_n_add a b s xs s1 :
  cycle_n a s = (Ok xs, s1) ->
  cycle_n (a + b) s =
  match cycle_n b s1 with
  | (Ok ys, s2) => (Ok (xs ++ ys), s2)
  | (Throw e, s2) => (Throw e, s2)
  end.
Proof.
  revert s xs s1. induction a as [|a IH]; intros s xs s1 E.
  - cbn in E. injection E as <- <-. simpl. destruct (cycle_n b s) as [[]]; reflexivity.
  - change (S a + b) with (S (a + b)). cbn [cycle_n] in E |- *.
    unfold bind at 1 in E. unfold bind at 1.
    destruct (rs_next s) as [[v|e] s'] eqn:En; [|discriminate].
    unfold bind in E. destruct (cycle_n a s') as [[vs|e] s''] eqn:Ec; [|discriminate].
    unfold ret in E. injection E as <- <-.
    unfold bind. rewrite (IH _ _ _ Ec).
    destruct (cycle_n b s'') as [[ys|e] s2]; reflexivity.
Qed.

Lemma with_current_twice s c c' : with_current (with_current s c) c' = with_current s c'.
Proof. reflexivity. Qed.

Lemma cycle_n_prefix s a b va :
  Inv s (a ++ b) -> ring_values (heap s) a = Some va ->
  cycle_n (length a) s = (Ok va, with_current s (head (b ++ a))).
Proof.
  intros I Hva. pose proof (Inv_rot _ _ _ I) as I0.
  pose proof (cycle_n_spec _ b a va I0 Hva) as E.
  rewrite !with_current_twice in E.
  rewrite <- (inv_cur _ _ I), with_current_self in E. exact E.
Qed.

Lemma cycle_n_round s ps vs :
  Inv s ps -> ring_values (heap s) ps = Some vs ->
  cycle_n (length vs) s = (Ok vs, s).
Proof.
  intros I Hv. rewrite (ring_values_length _ _ _ Hv).
  pose proof (cycle_n_prefix s ps [] vs) as E. rewrite app_nil_r in E.
  rewrite E by assumption. simpl. rewrite <- (inv_cur _ _ I), with_current_self.
  reflexivity.
Qed.


Lemma delete_fresh_restores s s1 L1 L2 x q :
  Inv s (L1 ++ L2) -> Inv s1 (L1 ++ q :: L2) -> ~ In q (L1 ++ L2) ->
  map_get (nodes s) x = None -> L1 ++ L2 <> [] ->
  nodes s1 = nodes s ++ [(x, q)] -> size s1 = size s + 1 ->
  insertionHead s1 = insertionHead s ->
  (forall r, r <> q -> vl (heap s1) r = vl (heap s) r) ->
  fst (delete x s1) = Ok true /\ current (snd (delete x s1)) = current s /\
  insertionHead (snd (delete x s1)) = insertionHead s /\
  nodes (snd (delete x s1)) = nodes s /\ size (snd (delete x s1)) = size s /\
  fst (toArray (snd (delete x s1))) = fst (toArray s).
Proof.
  intros I I1 Hq Hx Hne Hn Hs Ha Hv.
  assert (Hg : map_get (nodes s1) x = Some q).
  { rewrite Hn, map_get_snoc, Hx. destruct (decide (x = x)); [reflexivity|congruence]. }
  assert (H1 : size s1 <> 1).
  { rewrite Hs, <- (inv_len _ _ I). destruct (L1 ++ L2); [congruence|simpl; lia]. }
  destruct (delete_Inv_many _ _ _ _ _ I1 Hg H1)
    as (nd & _ & _ & Eok & Hn2 & Hs2 & Hv2 & _ & Ha2 & I2).
  split; [exact Eok|].
  split; [rewrite (inv_cur _ _ I2), (inv_cur _ _ I); reflexivity|].
  split.
  { rewrite Ha2, Ha. destruct (decide (insertionHead s = Some q)) as [E|]; [|reflexivity].
    exfalso. pose proof (inv_anc _ _ I) as Hanc. revert Hanc Hq Hne.
    destruct (L1 ++ L2) as [|p0 l0]; intros Hanc Hq Hne; [congruence|].
    destruct Hanc as (a & Ea & Hin). rewrite E in Ea. injection Ea as <-.
    exact (Hq Hin). }
  split; [rewrite Hn2, Hn; apply map_delete_snoc, map_get_None, Hx|].
  split; [rewrite Hs2, Hs; lia|].
  destruct (toArray_Inv _ _ I2) as (vs2 & Hvs2 & _ & Ht2).
  destruct (toArray_Inv _ _ I) as (vs & Hvs & _ & Ht).
  rewrite Ht2, Ht. simpl. f_equal.
  rewrite (ring_values_frame (heap s1)) in Hvs2 by (intros r _; apply Hv2).
  rewrite (ring_values_except (heap s) (heap s1) q) in Hvs2 by assumption.
  congruence.
Qed.

Lemma delete_fresh_sole s s1 x q :
  Inv s [] -> map_get (nodes s) x = None ->
  nodes s1 = nodes s ++ [(x, q)] -> size s1 = size s + 1 ->
  fst (delete x s1) = Ok true /\ current (snd (delete x s1)) = current s /\
  insertionHead (snd (delete x s1)) = insertionHead s /\
  nodes (snd (delete x s1)) = nodes s /\ size (snd (delete x s1)) = size s /\
  fst (toArray (snd (delete x s1))) = fst (toArray s).
Proof.
  intros I Hx Hn Hs.
  assert (Hg : map_get (nodes s1) x = Some q).
  { rewrite Hn, map_get_snoc, Hx. destruct (decide (x = x)); [reflexivity|congruence]. }
  pose proof (inv_len _ _ I) as L. simpl in L.
  pose proof (inv_cur _ _ I) as Hc. pose proof (inv_anc _ _ I) as Ha. simpl in Hc, Ha.
  rewrite (delete_sole _ _ _ Hg) by lia. simpl.
  split; [reflexivity|]. split; [symmetry; exact Hc|]. split; [symmetry; exact Ha|].
  split; [rewrite Hn; apply map_delete_snoc, map_get_None, Hx|].
  split; [lia|].
  unfold toArray, bind, get, ret. simpl. rewrite Hc. reflexivity.
Qed.

Lemma ring_values_perm (h : gmap ptr (RingNode A)) (l l' : list ptr) vs :
  Permutation l l' -> ring_values h l = Some vs ->
  exists vs', ring_values h l' = Some vs' /\ Permutation vs vs'.
Proof.
  intros P. revert vs.
  induction P as [|p l l' P IH|p p' l|l l' l'' P1 IH1 P2 IH2]; intros vs Hv.
  - exists vs. split; [exact Hv|reflexivity].
  - cbn [ring_values] in Hv |- *. destruct (vl h p) as [v|]; [|discriminate].
    destruct (ring_values h l) as [vs0|]; [|discriminate]. injection Hv as <-.
    destruct (IH _ eq_refl) as (vs' & E' & Pv). rewrite E'.
    eexists; split; [reflexivity|]. apply perm_skip. exact Pv.
  - cbn [ring_values] in Hv |- *.
    destruct (vl h p) as [v|]; destruct (vl h p') as [v'|];
      destruct (ring_values h l) as [vs0|]; try discriminate.
    injection Hv as <-. eexists; split; [reflexivity|]. apply perm_swap.
  - destruct (IH1 _ Hv) as (v1 & E1 & Q1). destruct (IH2 _ E1) as (v2 & E2 & Q2).
    exists v2. split; [exact E2|]. etransitivity; eassumption.
Qed.

Lemma ring_values_nodes (h : gmap ptr (RingNode A)) (m : list (A * ptr)) :
  (forall k p, In (k, p) m -> vl h p = Some k) ->
  ring_values h (map snd m) = Some (map fst m).
Proof.
  induction m as [|[k p] m IH]; intros Hm; [reflexivity|]. simpl.
  rewrite (Hm k p (or_introl eq_refl)), IH; [reflexivity|].
  intros k' p' H'. apply Hm. right. exact H'.
Qed.

Lemma toArray_perm_keys s ps vs :
  Inv s ps -> ring_values (heap s) ps = Some vs -> Permutation vs (map fst (nodes s)).
Proof.
  intros I Hv.
  assert (P : Permutation ps (map snd (nodes s))).
  { apply NoDup_Permutation_bis; [apply NoDup_ListNoDup, (inv_nodup _ _ I)| |].
    - rewrite length_map, <- (inv_size _ _ I), <- (inv_len _ _ I). lia.
    - intros p Hp. apply (inv_dom _ _ I). exact Hp. }
  destruct (ring_values_perm _ _ _ _ P Hv) as (vs' & E' & Pv).
  rewrite (ring_values_nodes _ _ (inv_vals _ _ I)) in E'. injection E' as <-.
  exact Pv.
Qed.

Lemma toArray_NoDup s ps vs :
  Inv s ps -> ring_values (heap s) ps = Some vs -> NoDup vs.
Proof.
  intros I Hv. pose proof (toArray_perm_keys _ _ _ I Hv) as Pv. symmetry in Pv.
  apply NoDup_ListNoDup, (Permutation_NoDup Pv), NoDup_ListNoDup, (inv_keys _ _ I).
Qed.

Lemma filter_neq_notin (x : A) l : ~ In x l -> filter (fun y => y <> x) l = l.
Proof.
  induction l as [|y l IH]; intros Hn; [reflexivity|].
  rewrite filter_cons_True by (intros ->; apply Hn; left; reflexivity).
  rewrite IH; [reflexivity|]. intros H; apply Hn; right; exact H.
Qed.

(** X1: [new RotatableSet(items)] adds the items with addToFurthest in
    order; toArray() and toSet() both give the items in the order of their
    first occurrence, duplicates dropped, and the anchor is the cursor. *)
Theorem construct_first_occurrences (items : list A) :
  let s := snd (construct items) in
  fst (construct items) = Ok tt /\
  toArray s = (Ok (first_occurrences items), s) /\
  toSet s = (Ok (first_occurrences items), s) /\
  insertionHead s = current s.
Proof.
  unfold construct. cbv zeta.
  destruct (add_all_append items empty [] [] Inv_empty_set eq_refl eq_refl eq_refl)
    as (ps & E & I & Ha & Hv & Hk).
  split; [exact E|].
  destruct (toArray_Inv _ _ I) as (vs & Hvs & _ & Ht).
  rewrite Hv in Hvs. injection Hvs as <-.
  split; [exact Ht|]. split; [|exact Ha].
  unfold toSet, bind, get, ret. rewrite Hk. reflexivity.
Qed.

(** X2: the iterator ([*[Symbol.iterator]], [while (true) yield
    this.next()]) on an empty set throws EmptyCollection at the first pull;
    on a non-empty one, [k] whole rounds and [r] more pulls give [k] copies
    of toArray() followed by its first [r] items, and leave the set rotated
    by [r]. *)
Theorem iterate_round_robin s :
  inv s ->
  (size s = 0 -> forall m, iterate_n (S m) s = (Throw EmptyCollection, s)) /\
  (forall vs k r, fst (toArray s) = Ok vs -> r <= length vs ->
   exists s', iterate_n (k * length vs + r) s =
                (Ok (concat (repeat vs k) ++ take r vs), s') /\
              fst (toArray s') = Ok (drop r vs ++ take r vs)).
Proof.
  intros Hi. destruct (inv_Inv _ Hi) as [ps I]. split.
  - intros H0 m. assert (Hc : current s = None).
    { rewrite (inv_cur _ _ I). pose proof (inv_len _ _ I) as L.
      destruct ps; [reflexivity|simpl in L; lia]. }
    cbn [iterate_n]. unfold bind at 1. rewrite rs_next_empty by exact Hc. reflexivity.
  - intros vs k r Hv Hr.
    destruct (toArray_Inv _ _ I) as (vs0 & Hv0 & _ & Ht).
    rewrite Ht in Hv. simpl in Hv. injection Hv as ->.
    pose proof (ring_values_length _ _ _ Hv0) as Hlen.
    pose proof (take_drop r ps) as Hab.
    set (a := take r ps) in *. set (b := drop r ps) in *.
    rewrite <- Hab in I, Hv0. rewrite ring_values_app in Hv0.
    destruct (ring_values (heap s) a) as [va|] eqn:Ea; [|discriminate].
    destruct (ring_values (heap s) b) as [vb|] eqn:Eb; [|discriminate].
    injection Hv0 as Hvs. subst vs.
    assert (Hla : length va = r).
    { rewrite (ring_values_length _ _ _ Ea). unfold a. rewrite length_take.
      rewrite length_app in Hlen, Hr. lia. }
    assert (Hla' : length a = length va) by (symmetry; apply (ring_values_length _ _ _ Ea)).
    subst r. rewrite take_app_length, drop_app_length.
    assert (Hround : cycle_n (length (va ++ vb)) s = (Ok (va ++ vb), s)).
    { apply (cycle_n_round s (a ++ b)); [exact I|].
      rewrite ring_values_app, Ea, Eb. reflexivity. }
    exists (with_current s (head (b ++ a))). split.
    + rewrite iterate_n_cycle_n. induction k as [|k IH].
      * rewrite Nat.mul_0_l, Nat.add_0_l, <- Hla'. simpl.
        exact (cycle_n_prefix s a b va I Ea).
      * replace (S k * length (va ++ vb) + length va)
          with (length (va ++ vb) + (k * length (va ++ vb) + length va)) by lia.
        rewrite (cycle_n_add _ _ _ _ _ Hround), IH. simpl.
        rewrite app_assoc. reflexivity.
    + pose proof (Inv_rot _ _ _ I) as I'.
      destruct (toArray_Inv _ _ I') as (vs' & Hv' & _ & Ht').
      rewrite Ht'. simpl in Hv' |- *. rewrite ring_values_app, Ea, Eb in Hv'.
      congruence.
Qed.

Lemma rs_next_toArray_rot s v vs :
  inv s -> fst (toArray s) = Ok (v :: vs) ->
  fst (peek s) = Ok v /\ fst (rs_next s) = Ok v /\
  fst (toArray (snd (rs_next s))) = Ok (vs ++ [v]).
Proof.
  intros Hi Hv. destruct (inv_Inv _ Hi) as [ps I].
  destruct (toArray_Inv _ _ I) as (vs0 & Hv0 & _ & Ht).
  rewrite Ht in Hv. simpl in Hv. injection Hv as ->.
  destruct ps as [|c l]; [discriminate|].
  cbn [ring_values] in Hv0.
  destruct (vl (heap s) c) as [v0|] eqn:Ec; [|discriminate].
  destruct (ring_values (heap s) l) as [vs0|] eqn:El; [|discriminate].
  injection Hv0 as -> ->.
  destruct (peek_step _ _ _ I) as (v1 & Ev1 & Ep).
  destruct (rs_next_step _ _ _ I) as (v2 & Ev2 & En).
  rewrite Ec in Ev1, Ev2. injection Ev1 as <-. injection Ev2 as <-.
  rewrite Ep, En. split; [reflexivity|]. split; [reflexivity|].
  pose proof (rs_next_Inv _ _ _ I) as I'. rewrite En in I'. simpl in I'.
  destruct (toArray_Inv _ _ I') as (vs' & Hv' & _ & Ht').
  simpl. rewrite Ht'. simpl in Hv' |- *.
  rewrite ring_values_app, El in Hv'. cbn [ring_values] in Hv'. rewrite Ec in Hv'.
  congruence.
Qed.

(** X3: when toArray() is [v :: vs], peek() and next() both return [v], and
    after next() toArray() is [vs ++ [v]]: next() rotates the set by one. *)
Theorem next_rotates_toArray s v vs :
  inv s -> fst (toArray s) = Ok (v :: vs) ->
  fst (peek s) = Ok v /\ fst (rs_next s) = Ok v /\
  fst (toArray (snd (rs_next s))) = Ok (vs ++ [v]).
Proof. apply rs_next_toArray_rot. Qed.

(** X4: on a non-empty set, getFurthestItem(0) right after next() returns
    the item that next() returned: the item just passed is the furthest
    one. *)
Theorem next_then_furthest_zero s :
  inv s -> size s <> 0 ->
  fst (getFurthestItem (JFin 0%Q) (snd (rs_next s))) = fst (rs_next s).
Proof.
  intros Hi H0. destruct (inv_Inv _ Hi) as [ps I].
  destruct ps as [|c l]; [pose proof (inv_len _ _ I); simpl in *; lia|].
  destruct (rs_next_step _ _ _ I) as (v & Ev & En). rewrite En. simpl.
  pose proof (ring_head_links _ _ _ (inv_ring _ _ I)) as [[_ Hp] _].
  unfold prv in Hp.
  destruct (heap s !! hd c l) as [nd|] eqn:Ed; [|discriminate].
  simpl in Hp. injection Hp as Hp.
  unfold vl in Ev. destruct (heap s !! c) as [np|] eqn:Enp; [|discriminate].
  simpl in Ev. injection Ev as <-.
  rewrite (getFurthestItem_zero (with_current s (Some (hd c l))) (hd c l) nd np);
    simpl; [reflexivity|reflexivity|exact Ed|rewrite Hp; exact Enp].
Qed.

(** X5: clear() empties any set: afterwards size is 0, toArray() and
    toSet() are empty, has() is false, next(), peek() and getFurthestItem()
    throw EmptyCollection, and a following addToFurthest(x) gives toArray()
    = [x]. *)
Theorem clear_empties s x :
  let s1 := snd (clear s) in
  fst (clear s) = Ok tt /\ size s1 = 0 /\
  toArray s1 = (Ok [], s1) /\ toSet s1 = (Ok [], s1) /\
  fst (has x s1) = Ok false /\
  rs_next s1 = (Throw EmptyCollection, s1) /\
  peek s1 = (Throw EmptyCollection, s1) /\
  (forall i, getFurthestItem i s1 = (Throw EmptyCollection, s1)) /\
  fst (addToFurthest x s1) = Ok tt /\
  fst (toArray (snd (addToFurthest x s1))) = Ok [x].
Proof.
  cbv zeta. pose proof (clear_Inv s) as I.
  assert (Hc : current (snd (clear s)) = None) by reflexivity.
  split; [reflexivity|]. split; [reflexivity|].
  split; [reflexivity|]. split; [reflexivity|]. split; [reflexivity|].
  split; [apply rs_next_empty, Hc|]. split; [apply peek_empty, Hc|].
  split; [intros i; apply getFurthestItem_empty, Hc|].
  assert (Hx : map_get (nodes (snd (clear s))) x = None) by reflexivity.
  pose proof (addToFurthest_new _ _ _ I Hx) as Hn. simpl in Hn.
  destruct Hn as (_ & E). change (snd (clear s)) with (mkRS (A := A) None None [] 0 (heap s)).
  rewrite E. split; [reflexivity|].
  unfold toArray, bind, get, ret. simpl. rewrite lookup_insert_eq. reflexivity.
Qed.

(** X6: when the anchor is the cursor (as after the constructor),
    addToFurthest(x) of an absent [x] makes [x] the item getFurthestItem(0)
    returns, on an empty set as on a non-empty one. *)
Theorem addToFurthest_at_cursor_is_furthest s x :
  inv s -> insertionHead s = current s -> map_has (nodes s) x = false ->
  fst (addToFurthest x s) = Ok tt /\
  fst (getFurthestItem (JFin 0%Q) (snd (addToFurthest x s))) = Ok x.
Proof.
  intros Hi Ha Hx. apply map_has_get in Hx. destruct (inv_Inv _ Hi) as [ps I].
  destruct ps as [|c l].
  - pose proof (addToFurthest_new _ _ _ I Hx) as Hn. simpl in Hn.
    rewrite (inv_anc _ _ I) in Hn. destruct Hn as (_ & E). rewrite E.
    split; [reflexivity|].
    set (q := fresh (dom (heap s))).
    rewrite (getFurthestItem_zero _ q (mkNode x q q) (mkNode x q q));
      simpl; [reflexivity|reflexivity| |]; apply lookup_insert_eq.
  - assert (Hb : insertionHead s = Some c) by (rewrite Ha; exact (inv_cur _ _ I)).
    destruct (addToFurthest_fresh_at s [] c l x I Hb Hx)
      as (_ & Eok & Hcur & _ & _ & _ & Hvq & _ & I1).
    split; [exact Eok|]. simpl in I1.
    set (q := fresh (dom (heap s))) in *.
    set (s1 := snd (addToFurthest x s)) in *.
    pose proof (ring_head_links _ _ _ (inv_ring _ _ I1)) as [_ [_ Hp]].
    rewrite last_last in Hp. unfold prv in Hp.
    destruct (heap s1 !! c) as [nd|] eqn:Ed; [|discriminate].
    simpl in Hp. injection Hp as Hp.
    unfold vl in Hvq. destruct (heap s1 !! q) as [np|] eqn:Enp; [|discriminate].
    simpl in Hvq. injection Hvq as <-.
    rewrite (getFurthestItem_zero s1 c nd np);
      [reflexivity|rewrite Hcur; exact (inv_cur _ _ I)|exact Ed|rewrite Hp; exact Enp].
Qed.

(** X7: has(y) after addToFurthest(x) or addToNext(x) is [y = x] or has(y)
    before; after delete(x) it is [y <> x] and has(y) before. *)
Theorem has_after_updates s x y b :
  inv s -> fst (has y s) = Ok b ->
  fst (has y (snd (addToFurthest x s))) = Ok (bool_decide (y = x) || b)%bool /\
  fst (has y (snd (addToNext x s))) = Ok (bool_decide (y = x) || b)%bool /\
  fst (has y (snd (delete x s))) = Ok (bool_decide (y <> x) && b)%bool.
Proof.
  intros Hi Hb. destruct (inv_Inv _ Hi) as [ps I].
  unfold has, bind, get, ret in Hb |- *. simpl in Hb |- *. injection Hb as <-.
  assert (Hadd : forall n, n = (if map_has (nodes s) x then nodes s
                               else nodes s ++ [(x, fresh (dom (heap s)))]) ->
            Ok (map_has n y) = Ok (bool_decide (y = x) || map_has (nodes s) y)%bool).
  { intros n ->. f_equal. destruct (map_has (nodes s) x) eqn:Hx.
    - destruct (decide (y = x)) as [->|Hne].
      + rewrite Hx, bool_decide_true by reflexivity. reflexivity.
      + rewrite bool_decide_false by exact Hne. reflexivity.
    - apply map_has_snoc. }
  split; [|split].
  - apply Hadd. exact (addToFurthest_nodes _ _ _ I).
  - apply Hadd. exact (addToNext_nodes _ _ _ I).
  - rewrite (delete_nodes _ _ _ I). f_equal. apply map_has_delete.
Qed.

(** X8: addToFurthest(x) or addToNext(x) of an absent item followed by
    delete(x) removes [x] again (delete returns true) and gives back the
    cursor, the anchor, the Map of nodes, the size and toArray() of the
    state before. *)
Theorem add_then_delete_restores s x :
  inv s -> map_has (nodes s) x = false ->
  (fst (delete x (snd (addToFurthest x s))) = Ok true /\
   current (snd (delete x (snd (addToFurthest x s)))) = current s /\
   insertionHead (snd (delete x (snd (addToFurthest x s)))) = insertionHead s /\
   nodes (snd (delete x (snd (addToFurthest x s)))) = nodes s /\
   size (snd (delete x (snd (addToFurthest x s)))) = size s /\
   fst (toArray (snd (delete x (snd (addToFurthest x s))))) = fst (toArray s)) /\
  (fst (delete x (snd (addToNext x s))) = Ok true /\
   current (snd (delete x (snd (addToNext x s)))) = current s /\
   insertionHead (snd (delete x (snd (addToNext x s)))) = insertionHead s /\
   nodes (snd (delete x (snd (addToNext x s)))) = nodes s /\
   size (snd (delete x (snd (addToNext x s)))) = size s /\
   fst (toArray (snd (delete x (snd (addToNext x s))))) = fst (toArray s)).
Proof.
  intros Hi Hx. apply map_has_get in Hx. destruct (inv_Inv _ Hi) as [ps I].
  destruct ps as [|c l].
  - pose proof (inv_anc _ _ I) as Ha. pose proof (inv_cur _ _ I) as Hc.
    simpl in Ha, Hc. split.
    + pose proof (addToFurthest_new _ _ _ I Hx) as Hn. simpl in Hn.
      rewrite Ha in Hn. destruct Hn as (_ & E).
      apply (delete_fresh_sole s _ x (fresh (dom (heap s))) I Hx);
        rewrite E; reflexivity.
    + pose proof (addToNext_new _ _ _ I Hx) as Hn. simpl in Hn.
      rewrite Hc in Hn. destruct Hn as (_ & E).
      apply (delete_fresh_sole s _ x (fresh (dom (heap s))) I Hx);
        rewrite E; reflexivity.
  - split.
    + pose proof (inv_anc _ _ I) as (a & Ea & Hin).
      destruct (in_split a (c :: l) Hin) as (l1 & l2 & El).
      rewrite El in I.
      destruct (addToFurthest_fresh_at s l1 a l2 x I Ea Hx)
        as (Hq & _ & _ & Ha1 & Hn1 & Hs1 & _ & Hfr & I1).
      rewrite <- Ea in Ha1.
      destruct l1 as [|c1 l1].
      * rewrite <- (app_nil_r (a :: l2)) in I, Hq.
        apply (delete_fresh_restores s _ (a :: l2) [] x _ I I1 Hq Hx);
          [discriminate|assumption..].
      * apply (delete_fresh_restores s _ (c1 :: l1) (a :: l2) x _ I I1 Hq Hx);
          [discriminate|assumption..].
    + destruct (addToNext_fresh_at s c l x I Hx)
        as (Hq & _ & _ & Ha1 & Hn1 & Hs1 & _ & Hfr & I1).
      apply (delete_fresh_restores s _ [] (c :: l) x _ I I1 Hq Hx);
        [discriminate|assumption..].
Qed.

(** X9: toSet() lists the same items as toArray(), in a possibly different
    order (insertion order against ring order from the cursor), and neither
    has a duplicate. *)
Theorem toSet_permutes_toArray s :
  inv s ->
  exists ks vs, toSet s = (Ok ks, s) /\ toArray s = (Ok vs, s) /\
    Permutation ks vs /\ NoDup vs.
Proof.
  intros Hi. destruct (inv_Inv _ Hi) as [ps I].
  destruct (toArray_Inv _ _ I) as (vs & Hv & _ & Ht).
  exists (map fst (nodes s)), vs. split; [reflexivity|]. split; [exact Ht|].
  split; [symmetry; exact (toArray_perm_keys _ _ _ I Hv)|].
  exact (toArray_NoDup _ _ _ I Hv).
Qed.

(** X10: the [size] getter is the length of toArray() and [isEmpty] holds
    exactly when toArray() is empty. *)
Theorem size_isEmpty_toArray s vs :
  inv s -> fst (toArray s) = Ok vs ->
  get_size s = (Ok (length vs), s) /\ isEmpty s = (Ok (bool_decide (vs = [])), s).
Proof.
  intros Hi Hv. destruct (inv_Inv _ Hi) as [ps I].
  destruct (toArray_Inv _ _ I) as (vs0 & _ & Hl & Ht).
  rewrite Ht in Hv. simpl in Hv. injection Hv as ->.
  unfold get_size, isEmpty, bind, get, ret. rewrite <- Hl. split; [reflexivity|].
  destruct vs; reflexivity.
Qed.

Lemma delete_toArray_filter s x vs :
  inv s -> fst (toArray s) = Ok vs ->
  fst (delete x s) = Ok (bool_decide (x ∈ vs)) /\
  fst (toArray (snd (delete x s))) = Ok (filter (fun y => y <> x) vs).
Proof.
  intros Hi Hv. destruct (inv_Inv _ Hi) as [ps I].
  destruct (toArray_Inv _ _ I) as (vs0 & Hv0 & Hl & Ht).
  rewrite Ht in Hv. simpl in Hv. injection Hv as ->.
  pose proof (toArray_perm_keys _ _ _ I Hv0) as Pk.
  pose proof (toArray_NoDup _ _ _ I Hv0) as Nd.
  destruct (map_get (nodes s) x) as [p|] eqn:Eg.
  - assert (Hxv : In x vs).
    { apply (Permutation_in _ (Permutation_sym Pk)).
      apply (in_map fst _ (x, p)), map_get_In, Eg. }
    assert (Hp : In p ps).
    { apply (inv_dom _ _ I). apply (in_map snd _ (x, p)), map_get_In, Eg. }
    pose proof (inv_vals _ _ I _ _ (map_get_In _ _ _ Eg)) as Hvp.
    destruct (in_split p ps Hp) as (l1 & l2 & El). rewrite El in I, Hv0.
    destruct (ring_values_split _ _ _ _ _ Hv0) as (vs1 & v & vs2 & -> & E1 & Ev & E2).
    rewrite Hvp in Ev. injection Ev as <-.
    apply NoDup_app in Nd as (_ & Hdisj & Nd2). apply NoDup_cons in Nd2 as [Hx2 _].
    assert (Hx1 : ~ In x vs1).
    { intros H. apply (Hdisj x); [apply list_elem_of_In, H|left]. }
    rewrite bool_decide_true by (apply list_elem_of_In; exact Hxv).
    rewrite filter_app, filter_cons_False by (intros H; apply H; reflexivity).
    rewrite !filter_neq_notin by (try exact Hx1; intros H; apply Hx2, list_elem_of_In, H).
    destruct (decide (size s = 1)) as [H1|H1].
    + rewrite (delete_sole _ _ _ Eg H1). split; [reflexivity|].
      unfold toArray, bind, get, ret. simpl.
      pose proof (ring_values_length _ _ _ Hv0) as L.
      rewrite (inv_len _ _ I), H1, !length_app in L. simpl in L.
      destruct vs1; [|simpl in L; lia]. destruct vs2; [reflexivity|simpl in L; lia].
    + destruct (delete_Inv_many _ _ _ _ _ I Eg H1)
        as (nd & _ & _ & Eok & _ & _ & Hfr & _ & _ & I2).
      split; [exact Eok|].
      destruct (toArray_Inv _ _ I2) as (vs' & Hv' & _ & Ht').
      rewrite Ht'. simpl. f_equal.
      rewrite (ring_values_frame (heap s)) in Hv' by (intros r _; apply Hfr).
      rewrite ring_values_app, E1, E2 in Hv'. congruence.
  - assert (Hxv : ~ In x vs).
    { intros H. apply map_get_None in Eg. apply Eg.
      exact (Permutation_in _ Pk H). }
    rewrite (delete_absent _ _ Eg). simpl.
    rewrite bool_decide_false by (rewrite list_elem_of_In; exact Hxv).
    split; [reflexivity|].
    rewrite Ht, filter_neq_notin by exact Hxv. reflexivity.
Qed.

(** X11: delete(x) removes exactly [x] from toArray() and keeps the order
    of the other items, whether [x] is absent, is the cursor's item, or is
    elsewhere in the ring. *)
Theorem delete_filters_toArray s x vs :
  inv s -> fst (toArray s) = Ok vs ->
  fst (delete x s) = Ok (bool_decide (x ∈ vs)) /\
  fst (toArray (snd (delete x s))) = Ok (filter (fun y => y <> x) vs).
Proof. apply delete_toArray_filter. Qed.

End Extras.

Lemma iterate_round_robin_witness :
  inv sample /\ fst (toArray sample) = Ok [1; 2; 3]%nat /\
  exists s', iterate_n (1 * 3 + 2) sample =
               (Ok (concat (repeat [1; 2; 3]%nat 1) ++ take 2 [1; 2; 3]%nat), s') /\
             fst (toArray s') = Ok (drop 2 [1; 2; 3]%nat ++ take 2 [1; 2; 3]%nat).
Proof.
  split; [exact sample_inv|]. split; [vm_compute; reflexivity|].
  apply (proj2 (iterate_round_robin sample sample_inv) [1; 2; 3]%nat 1 2);
    [vm_compute; reflexivity|simpl; lia].
Defined.

Lemma next_rotates_toArray_witness :
  inv sample /\ fst (toArray sample) = Ok [1; 2; 3]%nat /\
  fst (peek sample) = Ok 1 /\ fst (rs_next sample) = Ok 1 /\
  fst (toArray (snd (rs_next sample))) = Ok ([2; 3] ++ [1])%nat.
Proof.
  split; [exact sample_inv|]. split; [vm_compute; reflexivity|].
  apply (next_rotates_toArray sample 1 [2; 3]); [exact sample_inv|vm_compute; reflexivity].
Defined.

Lemma next_then_furthest_zero_witness :
  inv sample /\ size sample <> 0 /\
  fst (getFurthestItem (JFin 0%Q) (snd (rs_next sample))) = fst (rs_next sample).
Proof.
  split; [exact sample_inv|]. split; [vm_compute; intros H; discriminate H|].
  apply (next_then_furthest_zero sample); [exact sample_inv|vm_compute; intros H; discriminate H].
Defined.

Lemma addToFurthest_at_cursor_is_furthest_witness :
  inv sample /\ insertionHead sample = current sample /\
  map_has (nodes sample) 4 = false /\
  fst (addToFurthest 4 sample) = Ok tt /\
  fst (getFurthestItem (JFin 0%Q) (snd (addToFurthest 4 sample))) = Ok 4.
Proof.
  split; [exact sample_inv|]. split; [vm_compute; reflexivity|].
  split; [vm_compute; reflexivity|].
  apply (addToFurthest_at_cursor_is_furthest sample 4);
    [exact sample_inv|vm_compute; reflexivity|vm_compute; reflexivity].
Defined.

Lemma has_after_updates_witness :
  inv sample /\ fst (has 2 sample) = Ok true /\
  fst (has 2 (snd (addToFurthest 4 sample))) = Ok (bool_decide (2 = 4) || true)%bool /\
  fst (has 2 (snd (addToNext 4 sample))) = Ok (bool_decide (2 = 4) || true)%bool /\
  fst (has 2 (snd (delete 4 sample))) = Ok (bool_decide (2 <> 4) && true)%bool.
Proof.
  split; [exact sample_inv|]. split; [vm_compute; reflexivity|].
  apply (has_after_updates sample 4 2 true); [exact sample_inv|vm_compute; reflexivity].
Defined.

Lemma add_then_delete_restores_witness :
  inv sample /\ map_has (nodes sample) 4 = false /\
  (fst (delete 4 (snd (addToFurthest 4 sample))) = Ok true /\
   current (snd (delete 4 (snd (addToFurthest 4 sample)))) = current sample /\
   insertionHead (snd (delete 4 (snd (addToFurthest 4 sample)))) = insertionHead sample /\
   nodes (snd (delete 4 (snd (addToFurthest 4 sample)))) = nodes sample /\
   size (snd (delete 4 (snd (addToFurthest 4 sample)))) = size sample /\
   fst (toArray (snd (delete 4 (snd (addToFurthest 4 sample))))) = fst (toArray sample)) /\
  (fst (delete 4 (snd (addToNext 4 sample))) = Ok true /\
   current (snd (delete 4 (snd (addToNext 4 sample)))) = current sample /\
   insertionHead (snd (delete 4 (snd (addToNext 4 sample)))) = insertionHead sample /\
   nodes (snd (delete 4 (snd (addToNext 4 sample)))) = nodes sample /\
   size (snd (delete 4 (snd (addToNext 4 sample)))) = size sample /\
   fst (toArray (snd (delete 4 (snd (addToNext 4 sample))))) = fst (toArray sample)).
Proof.
  split; [exact sample_inv|]. split; [vm_compute; reflexivity|].
  apply (add_then_delete_restores sample 4); [exact sample_inv|vm_compute; reflexivity].
Defined.

Lemma toSet_permutes_toArray_witness :
  inv (snd (rs_next sample)) /\
  exists ks vs, toSet (snd (rs_next sample)) = (Ok ks, snd (rs_next sample)) /\
    toArray (snd (rs_next sample)) = (Ok vs, snd (rs_next sample)) /\
    Permutation ks vs /\ NoDup vs.
Proof.
  split; [exact sample_next_inv|].
  apply (toSet_permutes_toArray (snd (rs_next sample))). exact sample_next_inv.
Defined.

Lemma size_isEmpty_toArray_witness :
  inv sample /\ fst (toArray sample) = Ok [1; 2; 3]%nat /\
  get_size sample = (Ok (length [1; 2; 3]%nat), sample) /\
  isEmpty sample = (Ok (bool_decide ([1; 2; 3]%nat = [])), sample).
Proof.
  split; [exact sample_inv|]. split; [vm_compute; reflexivity|].
  apply (size_isEmpty_toArray sample [1; 2; 3]%nat); [exact sample_inv|vm_compute; reflexivity].
Defined.

Lemma delete_filters_toArray_witness :
  inv (snd (rs_next sample)) /\ fst (toArray (snd (rs_next sample))) = Ok [2; 3; 1]%nat /\
  fst (delete 3 (snd (rs_next sample))) = Ok (bool_decide (3 ∈ [2; 3; 1]%nat)) /\
  fst (toArray (snd (delete 3 (snd (rs_next sample))))) =
    Ok (filter (fun y => y <> 3) [2; 3; 1]%nat).
Proof.
  split; [exact sample_next_inv|]. split; [vm_compute; reflexivity|].
  apply (delete_filters_toArray (snd (rs_next sample)) 3 [2; 3; 1]%nat);
    [exact sample_next_inv|vm_compute; reflexivity].
Defined.

(** * The earlier variants against the final class *)
Section Variants.
Context {A : Type} `{EqDecision A}.
Implicit Types (s : @V1.RS A) (x : A).

Local Ltac simp :=
  cbv beta iota zeta;
  cbn [V1.current V1.nodes V1.size V1.heap current insertionHead nodes size heap
       fst snd down up].

Local Ltac unfold_v1 :=
  cbv [V1.bind V1.ret V1.get V1.alloc V1.upd_heap V1.read V1.write_next V1.write_prev
       V1.set_nodes V1.set_size V1.set_current V1.throw V1.requireCurrent
       bind ret get alloc upd_heap read write_next write_prev set_nodes set_size
       set_current set_insertionHead requireInsertionHead requireCurrent insertBefore
       throw].

(** ** Numbers *)
Lemma js_rem_num_int (z : Z) (n : nat) :
  n <> 0 -> js_rem_num (JFin (inject_Z z)) n = Some (inject_Z (Z.rem z (Z.of_nat n))).
Proof.
  intros Hn. destruct n as [|n]; [congruence|].
  unfold js_rem_num. simpl (Nat.eqb _ _). cbv iota.
  change (Z.of_nat (S n)) with (Zpos (Pos.of_succ_nat n)).
  unfold trunc, inject_Z, Qminus, Qplus, Qmult, Qopp, Qdiv, Qinv. simpl.
  f_equal. f_equal. rewrite Z.rem_eq by lia. rewrite !Z.mul_1_r, Pos.mul_1_l. lia.
Qed.

Lemma js_offset_num_int (z : Z) (n : nat) :
  n <> 0 -> js_offset_num (JFin (inject_Z z)) n = Some (inject_Z (js_offset z n)).
Proof.
  intros Hn. unfold js_offset_num. rewrite js_rem_num_int by exact Hn.
  rewrite <- inject_Z_plus, js_rem_num_int by exact Hn.
  unfold js_offset. destruct (Z.eqb_spec (Z.of_nat n) 0); [lia|]. reflexivity.
Qed.

Lemma loop_rounds_int (z : Z) (n : nat) :
  loop_rounds (js_offset_num (JFin (inject_Z z)) n) = Z.to_nat (js_offset z n).
Proof.
  destruct (Nat.eq_dec n 0) as [->|Hn].
  - reflexivity.
  - rewrite js_offset_num_int by exact Hn. simpl. rewrite Qceiling_Z. reflexivity.
Qed.

Lemma loop_rounds_nonfinite (i : jsnum) (n : nat) :
  (forall q, i <> JFin q) -> loop_rounds (js_offset_num i n) = 0.
Proof.
  intros Hi. unfold js_offset_num, js_rem_num. destruct (Nat.eqb n 0); [reflexivity|].
  destruct i as [| | |q]; try reflexivity. exfalso. exact (Hi q eq_refl).
Qed.

(** [loop_rounds] counts the rounds of the loop: the naturals below the
    offset. *)
Lemma loop_rounds_spec (q : Q) (i : nat) :
  i < loop_rounds (Some q) <-> (inject_Z (Z.of_nat i) < q)%Q.
Proof.
  simpl. split.
  - intros H. apply Qnot_le_lt. intros Hle.
    pose proof (Qceiling_resp_le _ _ Hle) as C. rewrite Qceiling_Z in C. lia.
  - intros H. destruct (Z_lt_le_dec (Z.of_nat i) (Qceiling q)) as [L|L]; [lia|].
    exfalso. pose proof (Qle_ceiling q) as C.
    apply (Qlt_not_le _ _ H). eapply Qle_trans; [exact C|].
    rewrite Zle_Qle in L. exact L.
Qed.

(** ** The first variant's methods are the final class's ones with the
    anchor on the cursor *)
Lemma down_up s : down (up s) = s.
Proof. destruct s; reflexivity. Qed.

Lemma up_down (s : RS A) : insertionHead s = current s -> up (down s) = s.
Proof. destruct s; simpl. intros ->. reflexivity. Qed.

Lemma V1_add x s : V1.add x s = lift (addToFurthest x (up s)).
Proof.
  destruct s as [c m n h].
  unfold V1.add, addToFurthest, lift, up. unfold_v1. simp.
  destruct (map_has m x); [reflexivity|].
  destruct c as [c|]; [|reflexivity]. simp.
  repeat match goal with
         | |- context [match ?hh !! ?p with _ => _ end] => destruct (hh !! p); simp
         end.
  all: reflexivity.
Qed.

Lemma V1_toArray s : V1.toArray s = lift (toArray (up s)).
Proof.
  destruct s as [c m n h]. unfold V1.toArray, toArray, lift, up. unfold_v1. simp.
  destruct c as [c|]; [|reflexivity]. destruct (collect h c n); reflexivity.
Qed.

Lemma V1_toArray_down (s : RS A) : fst (V1.toArray (down s)) = fst (toArray s).
Proof.
  destruct s as [c a m n h]. unfold V1.toArray, toArray, down. unfold_v1. simp.
  destruct c as [c|]; [|reflexivity]. destruct (collect h c n); reflexivity.
Qed.

Lemma V1_toSet_down (s : RS A) : fst (V1.toSet (down s)) = fst (toSet s).
Proof. reflexivity. Qed.

Lemma V1_walk p n s : V1.walk_prev_m p n s = lift (walk_prev_m p n (up s)).
Proof.
  revert p. induction n as [|n IH]; intros p.
  - unfold lift. simpl. rewrite down_up. reflexivity.
  - cbn [V1.walk_prev_m walk_prev_m]. unfold V1.bind, V1.read, bind, read. simp.
    destruct (V1.heap s !! p); [apply IH|unfold lift; simpl; rewrite down_up; reflexivity].
Qed.

Lemma V1_getFurthestItem_final (i : jsnum) (k : Q) s :
  loop_rounds (js_offset_num i (V1.size s)) = Z.to_nat (js_offset (trunc k) (V1.size s)) ->
  V1.getFurthestItem i s = lift (getFurthestItem (JFin k) (up s)).
Proof.
  intros E. unfold V1.getFurthestItem, getFurthestItem, lift. unfold_v1. simp.
  destruct (V1.current s) as [c|] eqn:Ec; [|simp; rewrite down_up; reflexivity]. simp.
  destruct (V1.heap s !! c) as [nd|]; [|simp; rewrite down_up; reflexivity]. simp.
  rewrite E, V1_walk. unfold lift.
  destruct (walk_prev_m_state (prev nd) (Z.to_nat (js_offset (trunc k) (V1.size s))) (up s))
    as [r Ew].
  rewrite Ew. simp. destruct r as [t|e]; simp; [|rewrite down_up; reflexivity].
  destruct (V1.heap s !! t); simp; rewrite down_up; reflexivity.
Qed.


Lemma addToFurthest_anchor (s : RS A) ps x :
  Inv s ps -> insertionHead s = current s ->
  insertionHead (snd (addToFurthest x s)) = current (snd (addToFurthest x s)).
Proof.
  intros I Ha. destruct (map_has (nodes s) x) eqn:Hx.
  - rewrite addToFurthest_present by exact Hx. exact Ha.
  - apply map_has_get in Hx.
    pose proof (addToFurthest_new _ _ _ I Hx) as Hn. simpl in Hn.
    destruct (insertionHead s) as [a|] eqn:Ea.
    + destruct Hn as (na & h' & _ & _ & E). rewrite E. simpl. exact Ha.
    + destruct Hn as (_ & E). rewrite E. reflexivity.
Qed.

Lemma V1_add_Inv s x :
  inv1 s -> fst (V1.add x s) = Ok tt /\ inv1 (snd (V1.add x s)) /\
    up (snd (V1.add x s)) = snd (addToFurthest x (up s)).
Proof.
  intros Hi. destruct (inv_Inv _ Hi) as [ps I].
  destruct (addToFurthest_Inv _ _ x I) as [Eok [ps' I']].
  assert (Ha : insertionHead (snd (addToFurthest x (up s))) =
               current (snd (addToFurthest x (up s))))
    by (apply (addToFurthest_anchor _ _ _ I); reflexivity).
  rewrite V1_add. unfold lift. simpl. rewrite (up_down _ Ha).
  split; [exact Eok|]. split; [|reflexivity].
  unfold inv1. rewrite (up_down _ Ha). exact (Inv_inv _ _ I').
Qed.

Lemma V1_add_all items s :
  inv1 s -> V1.add_all items s = lift (add_all items (up s)).
Proof.
  revert s. induction items as [|x items IH]; intros s Hi.
  - unfold lift. simpl. rewrite down_up. reflexivity.
  - cbn [V1.add_all add_all]. unfold V1.bind, bind.
    destruct (V1_add_Inv s x Hi) as (Eok & Hi' & Hup).
    rewrite V1_add in Eok, Hi', Hup |- *. unfold lift in *. simpl in Eok, Hi', Hup.
    destruct (addToFurthest x (up s)) as [r s1]. simpl in Eok, Hi', Hup |- *.
    subst r. rewrite (IH _ Hi'), Hup. reflexivity.
Qed.

Lemma V1_empty : up (@V1.empty A) = empty.
Proof. reflexivity. Qed.

Lemma V1_add_present s x : map_has (V1.nodes s) x = true -> V1.add x s = (Ok tt, s).
Proof. intros H. unfold V1.add. unfold_v1. simp. rewrite H. reflexivity. Qed.

Lemma V2_addItem_add s x :
  inv1 s ->
  V2.addItem x s = (Ok (negb (map_has (V1.nodes s) x)), snd (V1.add x s)).
Proof.
  intros Hi. unfold V2.addItem. unfold_v1. simp.
  destruct (map_has (V1.nodes s) x) eqn:Hx.
  - rewrite V1_add_present by exact Hx. reflexivity.
  - destruct (V1_add_Inv s x Hi) as (Eok & _ & _).
    destruct (V1.add x s) as [r s1]. simpl in Eok |- *. subst r. reflexivity.
Qed.

Lemma V2_add_all items s :
  inv1 s -> V2.add_all items s = V1.add_all items s.
Proof.
  revert s. induction items as [|x items IH]; intros s Hi; [reflexivity|].
  cbn [V2.add_all V1.add_all]. unfold V1.bind.
  rewrite (V2_addItem_add _ _ Hi).
  destruct (V1_add_Inv s x Hi) as (Eok & Hi' & _).
  destruct (V1.add x s) as [r s1]. simpl in Eok, Hi' |- *. subst r.
  apply IH. exact Hi'.
Qed.

Lemma V2_getFurthestItem s : V2.getFurthestItem s = V1.getFurthestItem JNaN s.
Proof.
  unfold V2.getFurthestItem, V1.getFurthestItem. unfold_v1. simp.
  destruct (V1.current s); [|reflexivity]. simp.
  rewrite (loop_rounds_nonfinite JNaN) by discriminate. reflexivity.
Qed.




Lemma trunc_inject_Z (z : Z) : trunc (inject_Z z) = z.
Proof. unfold trunc, inject_Z. simpl. apply Z.quot_1_r. Qed.


(** ** delete() of the first variant *)
Lemma V1_delete x s : inv1 s -> V1.delete x s = lift (delete x (up s)).
Proof.
  intros Hi. destruct (inv_Inv _ Hi) as [ps I].
  destruct (map_get (V1.nodes s) x) as [p|] eqn:Hg.
  2: { rewrite (delete_absent (up s) x Hg). unfold V1.delete. unfold_v1. simp.
       rewrite Hg. unfold lift. simpl. rewrite down_up. reflexivity. }
  destruct (Nat.eq_dec (V1.size s) 1) as [E1|N1].
  { rewrite (delete_sole (up s) x p Hg E1). unfold V1.delete. unfold_v1. simp.
    rewrite Hg, E1. reflexivity. }
  destruct (delete_many (up s) ps x p I Hg N1) as (nd & Hnd & Hin & Hpp & Hnp & _).
  simpl in Hnd.
  destruct (Inv_links _ _ _ _ I Hin Hnd) as (Hpi & Hni & _ & _).
  destruct (Inv_lookup _ _ _ I Hpi) as [npv Hnpv]. simpl in Hnpv.
  unfold V1.delete, delete, lift, up. unfold_v1. simp. rewrite Hg.
  apply Nat.eqb_neq in N1. rewrite N1. simp.
  repeat first [ rewrite Hnd | rewrite Hnpv
               | rewrite (lookup_insert_ne _ (prev nd) p) by congruence
               | rewrite (lookup_insert_ne _ (next nd) p) by congruence
               | progress simp ].
  destruct (<[prev nd:=_]> (V1.heap s) !! next nd) as [nnx|]; simp; [|reflexivity].
  repeat match goal with
         | |- context [decide ?P] => destruct (decide P); simp
         end.
  all: repeat first [ rewrite Hnd
                    | rewrite (lookup_insert_ne _ (prev nd) p) by congruence
                    | rewrite (lookup_insert_ne _ (next nd) p) by congruence
                    | progress simp ].
  all: first [reflexivity|congruence].
Qed.

Lemma delete_anchor (s : RS A) ps x :
  Inv s ps -> insertionHead s = current s ->
  insertionHead (snd (delete x s)) = current (snd (delete x s)).
Proof.
  intros I Ha. destruct (map_get (nodes s) x) as [p|] eqn:Hg.
  - destruct (decide (size s = 1)) as [E1|N1].
    + rewrite (delete_sole _ _ _ Hg E1). reflexivity.
    + destruct (delete_many _ _ _ _ I Hg N1) as (nd & _ & _ & _ & _ & h' & E & _).
      rewrite E. simpl. rewrite Ha. reflexivity.
  - rewrite (delete_absent _ _ Hg). exact Ha.
Qed.

(** ** Shared facts about the variants *)
Lemma inv1_empty : inv1 (@V1.empty A).
Proof. unfold inv1. rewrite V1_empty. exact (Inv_inv _ _ Inv_empty_set). Qed.

Lemma V1_toArray_Inv s vs :
  inv1 s -> fst (V1.toArray s) = Ok vs ->
  exists ps, Inv (up s) ps /\ ring_values (heap (up s)) ps = Some vs /\
    length vs = V1.size s /\ V1.toArray s = (Ok vs, s).
Proof.
  intros Hi Hv. destruct (inv_Inv _ Hi) as [ps I].
  destruct (toArray_Inv _ _ I) as (vs0 & Hv0 & Hl & Ht).
  rewrite V1_toArray, Ht in Hv |- *. unfold lift in *. simpl in Hv |- *.
  injection Hv as <-. exists ps. rewrite down_up. auto.
Qed.

Lemma V1_has_toArray s vs x :
  inv1 s -> fst (V1.toArray s) = Ok vs -> map_has (V1.nodes s) x = bool_decide (x ∈ vs).
Proof.
  intros Hi Hv. destruct (V1_toArray_Inv _ _ Hi Hv) as (ps & I & Hv0 & _).
  pose proof (toArray_perm_keys _ _ _ I Hv0) as P. simpl in P.
  case_bool_decide as Hx.
  - apply map_has_elem. apply list_elem_of_In. apply list_elem_of_In in Hx.
    exact (Permutation_in _ P Hx).
  - destruct (map_has (V1.nodes s) x) eqn:E; [|reflexivity]. exfalso.
    apply map_has_elem, list_elem_of_In in E. apply Hx, list_elem_of_In.
    exact (Permutation_in _ (Permutation_sym P) E).
Qed.

Lemma V1_construct_spec (items : list A) :
  let s := snd (V1.construct items) in
  fst (V1.construct items) = Ok tt /\ inv1 s /\
  fst (V1.toArray s) = Ok (first_occurrences items) /\
  fst (V1.toSet s) = Ok (first_occurrences items).
Proof.
  unfold V1.construct. cbv zeta. rewrite (V1_add_all _ _ inv1_empty), V1_empty.
  destruct (add_all_append items empty [] [] Inv_empty_set eq_refl eq_refl eq_refl)
    as (ps & E & I & Ha & Hv & Hk).
  unfold lift. cbn [fst snd]. split; [exact E|]. split.
  - unfold inv1. rewrite (up_down _ Ha). exact (Inv_inv _ _ I).
  - rewrite V1_toArray_down, V1_toSet_down.
    destruct (toArray_Inv _ _ I) as (vs & Hvs & _ & Ht).
    rewrite Hv in Hvs. injection Hvs as <-. rewrite Ht.
    split; [reflexivity|]. unfold toSet, bind, get, ret. simpl. rewrite Hk. reflexivity.
Qed.

Lemma V1_getFurthestItem_spec s vs :
  inv1 s -> fst (V1.toArray s) = Ok vs -> vs <> [] ->
  (forall z : Z, exists v,
     nth_error vs (length vs - 1 - Z.to_nat (z mod Z.of_nat (length vs))) = Some v /\
     V1.getFurthestItem (JFin (inject_Z z)) s = (Ok v, s)) /\
  (exists v, nth_error vs (length vs - 1) = Some v /\
     forall i, (forall q, i <> JFin q) -> V1.getFurthestItem i s = (Ok v, s)).
Proof.
  intros Hi Hv Hne. destruct (V1_toArray_Inv _ _ Hi Hv) as (ps & I & Hv0 & Hl & _).
  destruct ps as [|c l]; [simpl in Hv0; injection Hv0 as <-; congruence|].
  pose proof (ring_values_length _ _ _ Hv0) as Hlen. simpl in Hlen.
  assert (Key : forall k : Q, exists v,
    nth_error vs (length vs - 1 - Z.to_nat (trunc k mod Z.of_nat (length vs))) = Some v /\
    getFurthestItem (JFin k) (up s) = (Ok v, up s)).
  { intros k. destruct (getFurthestItem_spec _ _ _ k I) as (_ & t & v & Ht & Hvt & Hg).
    destruct (ring_values_nth _ _ _ _ _ Hv0 Ht) as (v' & Hv' & Hn').
    rewrite Hvt in Hv'. injection Hv' as <-. exists v. split; [|exact Hg].
    replace (size (up s)) with (length vs) in Hn' by (rewrite Hl; reflexivity).
    replace (length vs - 1) with (length l) by lia. exact Hn'. }
  split.
  - intros z. destruct (Key (inject_Z z)) as (v & Hn & Hg).
    rewrite trunc_inject_Z in Hn. exists v. split; [exact Hn|].
    rewrite (V1_getFurthestItem_final _ (inject_Z z)).
    + rewrite Hg. unfold lift. simpl. rewrite down_up. reflexivity.
    + rewrite trunc_inject_Z. apply loop_rounds_int.
  - destruct (Key 0%Q) as (v & Hn & Hg).
    change (trunc 0%Q) with 0%Z in Hn. rewrite Z.mod_0_l in Hn by lia.
    rewrite Nat.sub_0_r in Hn. exists v. split; [exact Hn|]. intros i Hfin.
    rewrite (V1_getFurthestItem_final _ 0%Q).
    + rewrite Hg. unfold lift. simpl. rewrite down_up. reflexivity.
    + rewrite loop_rounds_nonfinite by exact Hfin.
      change (trunc 0%Q) with 0%Z. rewrite js_offset_zero. reflexivity.
Qed.

(** X12: add(x) of the first variant links [x] just before the cursor, so
    that it comes last in toArray(); adding an item already present changes
    nothing.  add() never fails on a consistent set and keeps it
    consistent. *)
Theorem v1_add_appends s x vs :
  inv1 s -> fst (V1.toArray s) = Ok vs ->
  fst (V1.add x s) = Ok tt /\ inv1 (snd (V1.add x s)) /\
  fst (V1.toArray (snd (V1.add x s))) =
    Ok (if decide (x ∈ vs) then vs else vs ++ [x]).
Proof.
  intros Hi Hv. destruct (V1_add_Inv s x Hi) as (Eok & Hi' & Hup).
  split; [exact Eok|]. split; [exact Hi'|].
  destruct (V1_toArray_Inv _ _ Hi Hv) as (ps & I & Hv0 & _ & Ht).
  pose proof (toArray_perm_keys _ _ _ I Hv0) as P.
  rewrite V1_toArray. unfold lift. simpl. rewrite Hup.
  set (u := up s) in *.
  case_decide as Hx.
  - assert (Hh : map_has (nodes u) x = true).
    { apply map_has_elem, list_elem_of_In. apply list_elem_of_In in Hx.
      exact (Permutation_in _ P Hx). }
    rewrite addToFurthest_present by exact Hh.
    rewrite V1_toArray in Ht. unfold lift in Ht. injection Ht as Ht _. exact Ht.
  - assert (Hg : map_get (nodes u) x = None).
    { apply map_get_None. intros Hin. apply Hx, list_elem_of_In.
      exact (Permutation_in _ (Permutation_sym P) Hin). }
    destruct ps as [|c l].
    + simpl in Hv0. injection Hv0 as <-.
      assert (Hk : map fst (nodes u) = []).
      { apply Permutation_nil. exact P. }
      destruct (addToFurthest_append u [] [] x I eq_refl eq_refl Hk)
        as (ps' & _ & I' & _ & Hv' & _).
      rewrite decide_False in Hv' by apply not_elem_of_nil.
      destruct (toArray_Inv _ _ I') as (vs' & Hvs' & _ & Ht').
      rewrite app_nil_l in Hv'. rewrite Ht'. simpl. congruence.
    + assert (Hb : insertionHead u = Some c) by exact (inv_cur _ _ I).
      destruct (addToFurthest_fresh_at u [] c l x I Hb Hg)
        as (Hq & _ & _ & _ & _ & _ & Hvq & Hvr & I1).
      cbv zeta in Hq, Hvq, Hvr, I1. cbn iota in I1.
      destruct (toArray_Inv _ _ I1) as (vs1 & Hv1 & _ & Ht1).
      rewrite Ht1. simpl. f_equal.
      change (c :: l ++ [fresh (dom (heap u))]) with ((c :: l) ++ [fresh (dom (heap u))])
        in Hv1.
      rewrite (ring_values_snoc _ _ _ vs x) in Hv1; [congruence| |exact Hvq].
      rewrite (ring_values_except (heap u) _ (fresh (dom (heap u))));
        [exact Hv0|exact Hvr|exact Hq].
Qed.

(** X13: delete(x) of the first variant (also removeItem(x) of the second)
    returns whether [x] was in the set and removes exactly [x] from
    toArray(), keeping the order of the other items; the set stays
    consistent. *)
Theorem v1_delete_filters_toArray s x vs :
  inv1 s -> fst (V1.toArray s) = Ok vs ->
  fst (V1.delete x s) = Ok (bool_decide (x ∈ vs)) /\ inv1 (snd (V1.delete x s)) /\
  fst (V1.toArray (snd (V1.delete x s))) = Ok (filter (fun y => y <> x) vs).
Proof.
  intros Hi Hv. rewrite (V1_delete _ _ Hi). unfold lift. simpl.
  rewrite V1_toArray in Hv. unfold lift in Hv. simpl in Hv.
  destruct (inv_Inv _ Hi) as [ps I].
  destruct (delete_toArray_filter (up s) x vs Hi Hv) as [E1 E2].
  split; [exact E1|]. split.
  - unfold inv1. rewrite (up_down _ (delete_anchor _ _ x I eq_refl)).
    destruct (delete_Inv _ _ x I) as [ps' I']. exact (Inv_inv _ _ I').
  - rewrite V1_toArray_down. exact E2.
Qed.

(** X14: [new RotatableSet(items)] of the first variant gives toArray()
    and toSet() equal to the items in the order of their first occurrence,
    duplicates dropped. *)
Theorem v1_construct_first_occurrences (items : list A) :
  let s := snd (V1.construct items) in
  fst (V1.construct items) = Ok tt /\ inv1 s /\
  fst (V1.toArray s) = Ok (first_occurrences items) /\
  fst (V1.toSet s) = Ok (first_occurrences items).
Proof. apply V1_construct_spec. Qed.

(** X15: getFurthestItem(z) of the first variant for an integer [z] reads
    the item [(z mod n)] places before the last of toArray(); for NaN and
    the infinities it does not throw but reads the last item of
    toArray(), as for index 0. *)
Theorem v1_getFurthestItem_index s vs :
  inv1 s -> fst (V1.toArray s) = Ok vs -> vs <> [] ->
  (forall z : Z, exists v,
     nth_error vs (length vs - 1 - Z.to_nat (z mod Z.of_nat (length vs))) = Some v /\
     V1.getFurthestItem (JFin (inject_Z z)) s = (Ok v, s)) /\
  (exists v, nth_error vs (length vs - 1) = Some v /\
     forall i, (forall q, i <> JFin q) -> V1.getFurthestItem i s = (Ok v, s)).
Proof. apply V1_getFurthestItem_spec. Qed.


(** X17: addItem(x) of the second variant returns [true] exactly when [x]
    was not in toArray() and leaves the state add(x) leaves. *)
Theorem v2_addItem_reports s x vs :
  inv1 s -> fst (V1.toArray s) = Ok vs ->
  V2.addItem x s = (Ok (negb (bool_decide (x ∈ vs))), snd (V1.add x s)).
Proof.
  intros Hi Hv. rewrite (V2_addItem_add _ _ Hi), (V1_has_toArray _ _ _ Hi Hv).
  reflexivity.
Qed.

(** X18: [new RotatableSet(items)] of the second variant (built with
    addItem) gives toArray() and toSet() equal to the items in the order
    of their first occurrence, duplicates dropped. *)
Theorem v2_construct_first_occurrences (items : list A) :
  let s := snd (V2.construct items) in
  fst (V2.construct items) = Ok tt /\ inv1 s /\
  fst (V1.toArray s) = Ok (first_occurrences items) /\
  fst (V1.toSet s) = Ok (first_occurrences items).
Proof.
  unfold V2.construct. rewrite (V2_add_all _ _ inv1_empty). apply V1_construct_spec.
Qed.

(** X19: getFurthestItem() of the second variant throws EmptyCollection
    on an empty set and otherwise reads the last item of toArray(), the
    node just before the cursor. *)
Theorem v2_getFurthestItem_last s vs :
  inv1 s -> fst (V1.toArray s) = Ok vs ->
  (vs = [] -> V2.getFurthestItem s = (Throw EmptyCollection, s)) /\
  (vs <> [] -> exists v, nth_error vs (length vs - 1) = Some v /\
     V2.getFurthestItem s = (Ok v, s)).
Proof.
  intros Hi Hv. split.
  - intros ->. destruct (V1_toArray_Inv _ _ Hi Hv) as (ps & I & Hv0 & _).
    destruct ps as [|c l];
      [|apply ring_values_length in Hv0; simpl in Hv0; discriminate].
    pose proof (inv_cur _ _ I) as Hc. simpl in Hc.
    unfold V2.getFurthestItem. unfold_v1. rewrite Hc. reflexivity.
  - intros Hne. destruct (V1_getFurthestItem_spec _ _ Hi Hv Hne) as [_ (v & Hn & Hg)].
    exists v. split; [exact Hn|]. rewrite V2_getFurthestItem. apply Hg. discriminate.
Qed.

(** ** next() and peek() of the first variant *)
Lemma inv1_down (s : RS A) : inv s -> inv1 (down s).
Proof.
  destruct s as [c a m n h]. unfold inv1, inv. simpl.
  intros (H1 & H2 & H3 & H4 & H5 & H6 & H7 & H8 & H9).
  do 6 (split; [assumption|]). split; [exact H6|]. split; exact H8.
Qed.

Lemma V1_rs_next s : V1.rs_next s = lift (rs_next (up s)).
Proof.
  unfold V1.rs_next, rs_next, lift. unfold_v1. simp.
  destruct (V1.current s) as [c|]; simp; [|rewrite down_up; reflexivity].
  destruct (V1.heap s !! c); simp; [reflexivity|rewrite down_up; reflexivity].
Qed.

Lemma V1_peek s : V1.peek s = lift (peek (up s)).
Proof.
  unfold V1.peek, peek, lift. unfold_v1. simp.
  destruct (V1.current s) as [c|]; simp; [|rewrite down_up; reflexivity].
  destruct (V1.heap s !! c); simp; rewrite down_up; reflexivity.
Qed.

(** X20: next() of the first variant returns the first item of toArray(),
    as peek() does, and rotates toArray() by one; the set stays
    consistent. *)
Theorem v1_next_rotates_toArray s v vs :
  inv1 s -> fst (V1.toArray s) = Ok (v :: vs) ->
  fst (V1.peek s) = Ok v /\ fst (V1.rs_next s) = Ok v /\ inv1 (snd (V1.rs_next s)) /\
  fst (V1.toArray (snd (V1.rs_next s))) = Ok (vs ++ [v]).
Proof.
  intros Hi Hv. rewrite V1_toArray in Hv. unfold lift in Hv. cbn [fst] in Hv.
  destruct (rs_next_toArray_rot (up s) v vs Hi Hv) as (E1 & E2 & E3).
  rewrite V1_peek, V1_rs_next. unfold lift. cbn [fst snd].
  split; [exact E1|]. split; [exact E2|]. split.
  - apply inv1_down. destruct (inv_Inv _ Hi) as [ps I].
    destruct (rs_next_Inv_any _ _ I) as [ps' I']. exact (Inv_inv _ _ I').
  - rewrite V1_toArray_down. exact E3.
Qed.

End Variants.

(** The first variant's set built from [1; 2; 3], and after one next(). *)
Local Abbreviation sample1 := (snd (V1.construct [1; 2; 3]%nat)).

Lemma sample1_inv : inv1 sample1.
Proof. apply V1_construct_spec. Qed.

Lemma sample1_next_inv : inv1 (snd (V1.rs_next sample1)).
Proof.
  rewrite V1_rs_next. apply inv1_down.
  destruct (inv_Inv _ sample1_inv) as [ps I].
  destruct (rs_next_Inv_any _ _ I) as [ps' I']. exact (Inv_inv _ _ I').
Qed.

Lemma v1_add_appends_witness :
  inv1 (snd (V1.rs_next sample1)) /\
  fst (V1.toArray (snd (V1.rs_next sample1))) = Ok [2; 3; 1]%nat /\
  (fst (V1.add 4 (snd (V1.rs_next sample1))) = Ok tt /\
   inv1 (snd (V1.add 4 (snd (V1.rs_next sample1)))) /\
   fst (V1.toArray (snd (V1.add 4 (snd (V1.rs_next sample1))))) =
     Ok (if decide (4 ∈ [2; 3; 1]%nat) then [2; 3; 1]%nat else [2; 3; 1; 4]%nat)).
Proof.
  split; [exact sample1_next_inv|]. split; [vm_compute; reflexivity|].
  apply (v1_add_appends (snd (V1.rs_next sample1)) 4 [2; 3; 1]%nat);
    [exact sample1_next_inv|vm_compute; reflexivity].
Defined.

Lemma v1_delete_filters_toArray_witness :
  inv1 (snd (V1.rs_next sample1)) /\
  fst (V1.toArray (snd (V1.rs_next sample1))) = Ok [2; 3; 1]%nat /\
  (fst (V1.delete 2 (snd (V1.rs_next sample1))) = Ok (bool_decide (2 ∈ [2; 3; 1]%nat)) /\
   inv1 (snd (V1.delete 2 (snd (V1.rs_next sample1)))) /\
   fst (V1.toArray (snd (V1.delete 2 (snd (V1.rs_next sample1))))) =
     Ok (filter (fun y => y <> 2) [2; 3; 1]%nat)).
Proof.
  split; [exact sample1_next_inv|]. split; [vm_compute; reflexivity|].
  apply (v1_delete_filters_toArray (snd (V1.rs_next sample1)) 2 [2; 3; 1]%nat);
    [exact sample1_next_inv|vm_compute; reflexivity].
Defined.

Lemma v1_getFurthestItem_index_witness :
  inv1 sample1 /\ fst (V1.toArray sample1) = Ok [1; 2; 3]%nat /\
  [1; 2; 3]%nat <> [] /\
  exists v, nth_error [1; 2; 3]%nat (3 - 1 - Z.to_nat (4 mod 3)) = Some v /\
    V1.getFurthestItem (JFin (inject_Z 4)) sample1 = (Ok v, sample1).
Proof.
  split; [exact sample1_inv|]. split; [vm_compute; reflexivity|].
  split; [discriminate|].
  destruct (v1_getFurthestItem_index sample1 [1; 2; 3]%nat) as [Hz _];
    [exact sample1_inv|vm_compute; reflexivity|discriminate|].
  exact (Hz 4%Z).
Defined.


Lemma v2_addItem_reports_witness :
  inv1 sample1 /\ fst (V1.toArray sample1) = Ok [1; 2; 3]%nat /\
  V2.addItem 2 sample1 = (Ok (negb (bool_decide (2 ∈ [1; 2; 3]%nat))), snd (V1.add 2 sample1)).
Proof.
  split; [exact sample1_inv|]. split; [vm_compute; reflexivity|].
  apply v2_addItem_reports; [exact sample1_inv|vm_compute; reflexivity].
Defined.

Lemma v2_getFurthestItem_last_witness :
  inv1 sample1 /\ fst (V1.toArray sample1) = Ok [1; 2; 3]%nat /\
  exists v, nth_error [1; 2; 3]%nat (3 - 1) = Some v /\
    V2.getFurthestItem sample1 = (Ok v, sample1).
Proof.
  split; [exact sample1_inv|]. split; [vm_compute; reflexivity|].
  destruct (v2_getFurthestItem_last sample1 [1; 2; 3]%nat) as [_ H];
    [exact sample1_inv|vm_compute; reflexivity|].
  apply H. discriminate.
Defined.

Lemma v1_next_rotates_toArray_witness :
  inv1 sample1 /\ fst (V1.toArray sample1) = Ok [1; 2; 3]%nat /\
  (fst (V1.peek sample1) = Ok 1 /\ fst (V1.rs_next sample1) = Ok 1 /\
   inv1 (snd (V1.rs_next sample1)) /\
   fst (V1.toArray (snd (V1.rs_next sample1))) = Ok ([2; 3] ++ [1])%nat).
Proof.
  split; [exact sample1_inv|]. split; [vm_compute; reflexivity|].
  apply (v1_next_rotates_toArray sample1 1 [2; 3]%nat);
    [exact sample1_inv|vm_compute; reflexivity].
Defined.
